(** * file-site: the synchronisation and persistence layer of the vault

    A shallow embedding of the data layer of the cloud-sync variant of the
    application (the React component with its IndexedDB helpers, and
    [firebase.js]), followed by the properties of the reconciliation logic.

    Layout:
    - [Js]       JavaScript values and the built-ins the program relies on;
    - [Sys]      the world the program runs in (component state, IndexedDB
                 object store, localStorage, Firestore, Storage, oracles)
                 and the monad of effectful computations over it;
    - [Firebase] the functions of [firebase.js];
    - [App]      the helpers and handlers of the component;
    - the notions used to state the properties, and [Scenario], a few
      concrete worlds;
    - the lemmas and theorems. *)

From Stdlib Require Import ZArith String Ascii List Lia Bool Sorted.
From stdpp Require Import base option list gmap strings pretty.
From Stdlib Require Import OrderedTypeEx.

Set Warnings "-register-all,-notation-for-abbreviation".
Local Open Scope Z_scope.

(* ===================================================================== *)
(** ** JavaScript values *)
(* ===================================================================== *)

Module Js.

(** Property values.  Numbers are modelled by integers (identifiers made
    with [Date.now()], sizes and time stamps are integers); [NaN] is the
    [None] of [option Z] wherever a numeric conversion can produce it.
    Strings are sequences of one-byte code units (Latin-1). *)
Inductive Value :=
| VUndefined
| VNull
| VBool (b : bool)
| VNum (n : Z)
| VStr (s : string)
| VArr (l : list Value)
| VObj (o : gmap string Value).

(** An item is a plain object: a finite map from property names to values. *)
Abbreviation Item := (gmap string Value).

(** [o.k] on an object: a missing property reads as [undefined]. *)
Definition prop (o : Item) (k : string) : Value := default VUndefined (o !! k).

(** [v.k] on an arbitrary non-nullish value; arrays and primitives have no
    own property of the names the program reads. *)
Definition member (v : Value) (k : string) : Value :=
  match v with
  | VObj o => prop o k
  | _ => VUndefined
  end.

Definition as_object (v : Value) : option Item :=
  match v with
  | VObj o => Some o
  | _ => None
  end.

(** ToBoolean *)
Definition truthy (v : Value) : bool :=
  match v with
  | VUndefined | VNull => false
  | VBool b => b
  | VNum n => negb (n =? 0)
  | VStr s => negb (String.eqb s EmptyString)
  | VArr _ | VObj _ => true
  end.

Definition typeof (v : Value) : string :=
  match v with
  | VUndefined => "undefined"
  | VNull => "object"
  | VBool _ => "boolean"
  | VNum _ => "number"
  | VStr _ => "string"
  | VArr _ | VObj _ => "object"
  end.

(** [a === b].  Objects and arrays compare by reference; two values of the
    model that are objects stand for distinct references, hence [false]. *)
Definition strict_eq (a b : Value) : bool :=
  match a, b with
  | VUndefined, VUndefined => true
  | VNull, VNull => true
  | VBool x, VBool y => Bool.eqb x y
  | VNum x, VNum y => x =? y
  | VStr x, VStr y => String.eqb x y
  | _, _ => false
  end.

(** *** Strings *)

Definition dq : string := String (ascii_of_nat 34) EmptyString.

(** White space among the one-byte code units: TAB, LF, VT, FF, CR, SP and
    NBSP. *)
Definition is_ws (c : ascii) : bool :=
  let n := nat_of_ascii c in
  ((9 <=? n) && (n <=? 13) || (n =? 32) || (n =? 160))%nat.

Fixpoint trim_start (s : string) : string :=
  match s with
  | String c s' => if is_ws c then trim_start s' else s
  | EmptyString => EmptyString
  end.

(** Removes trailing white space: a character is kept when something that
    is kept follows it, or when it is not white space. *)
Fixpoint trim_end (s : string) : string :=
  match s with
  | EmptyString => EmptyString
  | String c s' =>
      match trim_end s' with
      | EmptyString => if is_ws c then EmptyString else String c EmptyString
      | t => String c t
      end
  end.

(** [s.trim()] *)
Definition trim (s : string) : string := trim_end (trim_start s).

(** [s.startsWith(p)] *)
Definition startsWith (s p : string) : bool := String.prefix p s.

Fixpoint join (sep : string) (l : list string) : string :=
  match l with
  | [] => EmptyString
  | [x] => x
  | x :: l' => x +:+ sep +:+ join sep l'
  end.

(** ToString, as used by template literals and by [x.toString()]. *)
Fixpoint to_string (v : Value) : string :=
  match v with
  | VUndefined => "undefined"
  | VNull => "null"
  | VBool true => "true"
  | VBool false => "false"
  | VNum n => pretty n
  | VStr s => s
  | VArr l =>
      join ","
        (List.map (fun x => match x with
                            | VUndefined | VNull => EmptyString
                            | _ => to_string x
                            end) l)
  | VObj _ => "[object Object]"
  end.

(** [v.toString()]: a [TypeError] ([None]) on [undefined] and [null]. *)
Definition method_toString (v : Value) : option string :=
  match v with
  | VUndefined | VNull => None
  | _ => Some (to_string v)
  end.

(** *** Numbers *)

Definition digit_of (c : ascii) : option Z :=
  let n := nat_of_ascii c in
  if ((48 <=? n) && (n <=? 57))%nat then Some (Z.of_nat n - 48) else None.

Fixpoint digits_value (acc : Z) (s : string) : option Z :=
  match s with
  | EmptyString => Some acc
  | String c s' =>
      match digit_of c with
      | Some d => digits_value (10 * acc + d) s'
      | None => None
      end
  end.

Definition unsigned_literal (s : string) : option Z :=
  match s with
  | EmptyString => None
  | _ => digits_value 0 s
  end.

(** StringToNumber on the integer literals: white space is trimmed, the
    empty string is [0], an optional sign precedes decimal digits.  Every
    other text is [NaN]; the fractional, exponent, radix-prefixed and
    [Infinity] literals denote numbers that the integer model does not
    have, and no identifier of the program is written that way. *)
Definition string_to_number (s : string) : option Z :=
  match trim s with
  | EmptyString => Some 0
  | String "-" r => Z.opp <$> unsigned_literal r
  | String "+" r => unsigned_literal r
  | t => unsigned_literal t
  end.

(** ToNumber *)
Definition to_number (v : Value) : option Z :=
  match v with
  | VUndefined => None
  | VNull => Some 0
  | VBool b => Some (if b then 1 else 0)
  | VNum n => Some n
  | VStr s => string_to_number s
  | VArr _ => string_to_number (to_string v)
  | VObj _ => None
  end.

(** [a - b]; [None] is [NaN]. *)
Definition js_sub (a b : Value) : option Z :=
  match to_number a, to_number b with
  | Some x, Some y => Some (x - y)
  | _, _ => None
  end.

(** *** [Array.prototype.sort] with a comparison function

    The sort is stable; a comparison result that is [NaN] counts as [+0].
    [x] moves behind [y] only when [cmp x y > 0].

    ECMAScript fixes the result only for a consistent comparison function:
    then it is the stable sorted permutation, which is what [sort] gives.
    When [cmp] is [NaN] on some pairs and not on others the order is left
    to the engine, and the insertion below is one possible outcome, not
    the one of a given engine.  Whatever is stated below about the order
    of a sorted collection is stated for a comparison that is a number on
    all pairs of its items, or [NaN] on all of them; for the others only
    the permutation is stated. *)
Section Sort.
Context {A : Type} (cmp : A -> A -> option Z).

Definition after (x y : A) : bool :=
  match cmp x y with
  | Some d => 0 <? d
  | None => false
  end.

Fixpoint insert_sorted (x : A) (l : list A) : list A :=
  match l with
  | [] => [x]
  | y :: l' => if after x y then y :: insert_sorted x l' else x :: l
  end.

Definition sort (l : list A) : list A := foldr insert_sorted [] l.
End Sort.

(** *** Dates

    [Date.parse] on the format written by [toISOString],
    [YYYY-MM-DDTHH:mm:ss.sssZ], the only one the program writes.  A text
    in another form that [new Date] accepts as well (a bare date such as
    [2023-01-01], say) counts as an invalid date here, so dates that did
    not come from [toISOString] are outside of what [parse_iso] describes;
    the statements about the order by date ask for that form. *)
Definition days_from_civil (y m d : Z) : Z :=
  let y' := if m <=? 2 then y - 1 else y in
  let era := y' / 400 in
  let yoe := y' - era * 400 in
  let mp := (m + 9) mod 12 in
  let doy := (153 * mp + 2) / 5 + d - 1 in
  let doe := yoe * 365 + yoe / 4 - yoe / 100 + doy in
  era * 146097 + doe - 719468.

Definition field (s : string) (pos len : nat) : option Z :=
  let t := String.substring pos len s in
  if (String.length t =? len)%nat then unsigned_literal t else None.

Definition sep_at (s : string) (pos : nat) (c : string) : bool :=
  String.eqb (String.substring pos 1 s) c.

Definition parse_iso (s : string) : option Z :=
  if (String.length s =? 24)%nat
     && sep_at s 4 "-" && sep_at s 7 "-" && sep_at s 10 "T"
     && sep_at s 13 ":" && sep_at s 16 ":" && sep_at s 19 "." && sep_at s 23 "Z"
  then
    y ← field s 0 4; mo ← field s 5 2; d ← field s 8 2;
    h ← field s 11 2; mi ← field s 14 2; sec ← field s 17 2; ms ← field s 20 3;
    if (1 <=? mo) && (mo <=? 12) && (1 <=? d) && (d <=? 31)
       && (h <=? 24) && (mi <=? 59) && (sec <=? 59)
    then Some ((((days_from_civil y mo d * 24 + h) * 60 + mi) * 60 + sec) * 1000 + ms)
    else None
  else None.

(** The time value of [new Date(v)]; [None] is an invalid date. *)
Definition date_value (v : Value) : option Z :=
  match v with
  | VStr s => parse_iso s
  | VNum n => Some n
  | VNull => Some 0
  | VBool b => Some (if b then 1 else 0)
  | VUndefined | VArr _ | VObj _ => None
  end.

(** [new Date(a) - new Date(b)] *)
Definition date_diff (a b : Value) : option Z :=
  match date_value a, date_value b with
  | Some x, Some y => Some (x - y)
  | _, _ => None
  end.

End Js.
Export Js.


(* ===================================================================== *)
(** ** The world of the program and the monad of its effects *)
(* ===================================================================== *)

Module Sys.

(** [firebaseConfig]: the two fields that [isFirebaseConfigured] reads.
    The values are deployment configuration. *)
Record FirebaseConfig := {
  apiKey : string;
  projectId : string }.

Inductive SyncStatus := Checking | Synced | Syncing | Offline.

Record Notification := {
  n_message : string;
  n_type : string }.

(** The state of the component: its [useState] cells, the
    [initialLoadDone] ref, and whether the 100 ms timer armed at the end of
    [loadItems] is still pending. *)
Record AppState := {
  isUnlocked : bool;
  initialLoadDone : bool;
  loadTimer : bool;
  items : list Item;
  noteText : string;
  notification : option Notification;
  storageInfo : Z * Z;
  isSaving : bool;
  cloudEnabled : bool;
  syncStatus : SyncStatus }.

(** Keys of the object store (key path [id]): numbers sort before strings.
    Dates, binary and array keys are not modelled; an [id] that is none of
    number or string counts as an invalid key. *)
Inductive Key := KNum (n : Z) | KStr (s : string).

Definition key_of (v : Value) : option Key :=
  match v with
  | VNum n => Some (KNum n)
  | VStr s => Some (KStr s)
  | _ => None
  end.

Definition key_compare (a b : Key) : comparison :=
  match a, b with
  | KNum x, KNum y => x ?= y
  | KNum _, KStr _ => Lt
  | KStr _, KNum _ => Gt
  | KStr x, KStr y => String.compare x y
  end.

(** What the program does that the properties speak about: the calls of
    the component, and the effects on the stores. *)
Inductive Event :=
| EvSetItems (l : list Item)
| EvNotify (message type : string)
| EvSaveItemsToDB (l : list Item) (forceEmpty : bool)
| EvLocalSkip
| EvLocalCommit (l : list Item)
| EvLoadItemsFromDB
| EvSaveItemToCloud (item : Item)
| EvLoadItemsFromCloud
| EvDeleteItemFromCloud (item : Item)
| EvUploadBytes (path : string)
| EvSetDoc (id : string) (data : Item)
| EvDeleteDoc (id : string)
| EvDeleteObject (path : string)
| EvRemoveLegacy.

(** The fallible requests to the outside. *)
Inductive Op := IdbOpen | IdbCount | IdbWrite | IdbRead | Cloud.

(** What the environment decides and the program cannot change. *)
Record Env := {
  config : FirebaseConfig;
  init_ok : bool;                         (* [initializeApp] and friends did not throw *)
  JSON_parse : string -> option Value;    (* [None]: a [SyntaxError] *)
  download_url : string -> string;        (* [getDownloadURL] of a storage path *)
  fresh_id : nat -> string;               (* successive results of [generateId] *)
  clock : nat -> Z;                       (* successive results of [Date.now()] *)
  iso_clock : nat -> string;              (* successive [new Date().toISOString()] *)
  estimate : Z * Z }.                     (* usage and quota of the storage manager *)

(** - [idb]: the records of the object store [items], in key order;
    - [legacy]: the entry [myImportantItems] of [localStorage];
    - [docs]: the Firestore collection, by document name;
    - [blobs]: the objects of Firebase Storage, by path (the stored content
      is the data URL it was decoded from);
    - [open_faults], ..., [cloud_faults]: for each kind of request, the
      outcomes of the coming requests ([true] is a fault; an exhausted
      script means success). *)
Record World := {
  env : Env;
  app : AppState;
  idb : list (Key * Item);
  legacy : option string;
  docs : list (string * Item);
  blobs : gmap string string;
  open_faults : list bool;
  count_faults : list bool;
  write_faults : list bool;
  read_faults : list bool;
  cloud_faults : list bool;
  ids_used : nat;
  clock_reads : nat;
  log : list Event }.

Definition with_app (a : AppState) (w : World) : World :=
  {| env := env w; app := a; idb := idb w; legacy := legacy w; docs := docs w;
     blobs := blobs w; open_faults := open_faults w; count_faults := count_faults w;
     write_faults := write_faults w; read_faults := read_faults w;
     cloud_faults := cloud_faults w; ids_used := ids_used w;
     clock_reads := clock_reads w; log := log w |}.

Definition with_idb (s : list (Key * Item)) (w : World) : World :=
  {| env := env w; app := app w; idb := s; legacy := legacy w; docs := docs w;
     blobs := blobs w; open_faults := open_faults w; count_faults := count_faults w;
     write_faults := write_faults w; read_faults := read_faults w;
     cloud_faults := cloud_faults w; ids_used := ids_used w;
     clock_reads := clock_reads w; log := log w |}.

Definition with_legacy (l : option string) (w : World) : World :=
  {| env := env w; app := app w; idb := idb w; legacy := l; docs := docs w;
     blobs := blobs w; open_faults := open_faults w; count_faults := count_faults w;
     write_faults := write_faults w; read_faults := read_faults w;
     cloud_faults := cloud_faults w; ids_used := ids_used w;
     clock_reads := clock_reads w; log := log w |}.

Definition with_docs (d : list (string * Item)) (w : World) : World :=
  {| env := env w; app := app w; idb := idb w; legacy := legacy w; docs := d;
     blobs := blobs w; open_faults := open_faults w; count_faults := count_faults w;
     write_faults := write_faults w; read_faults := read_faults w;
     cloud_faults := cloud_faults w; ids_used := ids_used w;
     clock_reads := clock_reads w; log := log w |}.

Definition with_blobs (b : gmap string string) (w : World) : World :=
  {| env := env w; app := app w; idb := idb w; legacy := legacy w; docs := docs w;
     blobs := b; open_faults := open_faults w; count_faults := count_faults w;
     write_faults := write_faults w; read_faults := read_faults w;
     cloud_faults := cloud_faults w; ids_used := ids_used w;
     clock_reads := clock_reads w; log := log w |}.

(** The scripts, by kind of request. *)
Definition faults (w : World) (op : Op) : list bool :=
  match op with
  | IdbOpen => open_faults w
  | IdbCount => count_faults w
  | IdbWrite => write_faults w
  | IdbRead => read_faults w
  | Cloud => cloud_faults w
  end.

Definition with_faults (f : Op -> list bool) (w : World) : World :=
  {| env := env w; app := app w; idb := idb w; legacy := legacy w; docs := docs w;
     blobs := blobs w; open_faults := f IdbOpen; count_faults := f IdbCount;
     write_faults := f IdbWrite; read_faults := f IdbRead;
     cloud_faults := f Cloud; ids_used := ids_used w;
     clock_reads := clock_reads w; log := log w |}.

(** The script of [op] loses its head. *)
Definition pop_fault (op : Op) (w : World) : World :=
  match op with
  | IdbOpen =>
      {| env := env w; app := app w; idb := idb w; legacy := legacy w; docs := docs w;
         blobs := blobs w; open_faults := tl (open_faults w);
         count_faults := count_faults w; write_faults := write_faults w;
         read_faults := read_faults w; cloud_faults := cloud_faults w;
         ids_used := ids_used w; clock_reads := clock_reads w; log := log w |}
  | IdbCount =>
      {| env := env w; app := app w; idb := idb w; legacy := legacy w; docs := docs w;
         blobs := blobs w; open_faults := open_faults w;
         count_faults := tl (count_faults w); write_faults := write_faults w;
         read_faults := read_faults w; cloud_faults := cloud_faults w;
         ids_used := ids_used w; clock_reads := clock_reads w; log := log w |}
  | IdbWrite =>
      {| env := env w; app := app w; idb := idb w; legacy := legacy w; docs := docs w;
         blobs := blobs w; open_faults := open_faults w;
         count_faults := count_faults w; write_faults := tl (write_faults w);
         read_faults := read_faults w; cloud_faults := cloud_faults w;
         ids_used := ids_used w; clock_reads := clock_reads w; log := log w |}
  | IdbRead =>
      {| env := env w; app := app w; idb := idb w; legacy := legacy w; docs := docs w;
         blobs := blobs w; open_faults := open_faults w;
         count_faults := count_faults w; write_faults := write_faults w;
         read_faults := tl (read_faults w); cloud_faults := cloud_faults w;
         ids_used := ids_used w; clock_reads := clock_reads w; log := log w |}
  | Cloud =>
      {| env := env w; app := app w; idb := idb w; legacy := legacy w; docs := docs w;
         blobs := blobs w; open_faults := open_faults w;
         count_faults := count_faults w; write_faults := write_faults w;
         read_faults := read_faults w; cloud_faults := tl (cloud_faults w);
         ids_used := ids_used w; clock_reads := clock_reads w; log := log w |}
  end.

Definition with_ids_used (n : nat) (w : World) : World :=
  {| env := env w; app := app w; idb := idb w; legacy := legacy w; docs := docs w;
     blobs := blobs w; open_faults := open_faults w; count_faults := count_faults w;
     write_faults := write_faults w; read_faults := read_faults w;
     cloud_faults := cloud_faults w; ids_used := n;
     clock_reads := clock_reads w; log := log w |}.

Definition with_clock_reads (n : nat) (w : World) : World :=
  {| env := env w; app := app w; idb := idb w; legacy := legacy w; docs := docs w;
     blobs := blobs w; open_faults := open_faults w; count_faults := count_faults w;
     write_faults := write_faults w; read_faults := read_faults w;
     cloud_faults := cloud_faults w; ids_used := ids_used w;
     clock_reads := n; log := log w |}.

Definition with_log (l : list Event) (w : World) : World :=
  {| env := env w; app := app w; idb := idb w; legacy := legacy w; docs := docs w;
     blobs := blobs w; open_faults := open_faults w; count_faults := count_faults w;
     write_faults := write_faults w; read_faults := read_faults w;
     cloud_faults := cloud_faults w; ids_used := ids_used w;
     clock_reads := clock_reads w; log := l |}.

(** *** Computations: state, exceptions *)

Inductive Res (A : Type) :=
| Ok (a : A)
| Throw (e : string).
Arguments Ok {A} a.
Arguments Throw {A} e.

Definition M (A : Type) : Type := World -> Res A * World.

#[global] Instance M_ret : MRet M := fun A a w => (Ok a, w).

#[global] Instance M_bind : MBind M := fun A B k m w =>
  match m w with
  | (Ok a, w') => k a w'
  | (Throw e, w') => (Throw e, w')
  end.

Definition throw {A} (e : string) : M A := fun w => (Throw e, w).

(** [try { m } catch (e) { h e }] *)
Definition try_catch {A} (m : M A) (h : string -> M A) : M A := fun w =>
  match m w with
  | (Ok a, w') => (Ok a, w')
  | (Throw e, w') => h e w'
  end.

(** [try { m } finally { f }] *)
Definition try_finally {A} (m : M A) (f : M unit) : M A := fun w =>
  match m w with
  | (r, w') =>
      match f w' with
      | (Ok _, w'') => (r, w'')
      | (Throw e, w'') => (Throw e, w'')
      end
  end.

Definition gets {A} (f : World -> A) : M A := fun w => (Ok (f w), w).
Definition modify (f : World -> World) : M unit := fun w => (Ok tt, f w).
Definition emit (e : Event) : M unit := modify (fun w => with_log (log w ++ [e]) w).

(** [for (const x of l) { body x }] *)
Fixpoint for_each {A} (l : list A) (body : A -> M unit) : M unit :=
  match l with
  | [] => mret tt
  | x :: l' => body x;; for_each l' body
  end.

(** The outcome of the next request of kind [op]. *)
Definition request (op : Op) : M bool := fun w =>
  (Ok (hd false (faults w op)), pop_fault op w).

(** Whether the next request of kind [op] faults. *)
Definition next_fault (op : Op) (w : World) : bool := hd false (faults w op).

(** No coming request of kind [op] faults. *)
Definition fault_free (op : Op) (w : World) : Prop :=
  forall n, nth n (faults w op) false = false.

(** *** The object store *)

(** [store.add(item)] by key; [None] when the key is taken. *)
Fixpoint store_add (k : Key) (it : Item) (s : list (Key * Item)) : option (list (Key * Item)) :=
  match s with
  | [] => Some [(k, it)]
  | (k', it') :: s' =>
      match key_compare k k' with
      | Lt => Some ((k, it) :: s)
      | Eq => None
      | Gt => cons (k', it') <$> store_add k it s'
      end
  end.

(** [items.forEach(item => store.add(item))]; [None] when a request fails
    (invalid or taken key), which aborts the transaction. *)
Fixpoint add_all (l : list Item) (s : list (Key * Item)) : option (list (Key * Item)) :=
  match l with
  | [] => Some s
  | it :: l' =>
      k ← key_of (prop it "id");
      s' ← store_add k it s;
      add_all l' s'
  end.
Arguments add_all : simpl never.

(** *** The Firestore collection *)

(** [setDoc]: creates or overwrites the document. *)
Fixpoint doc_set (id : string) (data : Item) (ds : list (string * Item)) : list (string * Item) :=
  match ds with
  | [] => [(id, data)]
  | (i, d) :: r =>
      match String.compare id i with
      | Lt => (id, data) :: ds
      | Eq => (id, data) :: r
      | Gt => (i, d) :: doc_set id data r
      end
  end.

Definition doc_delete (id : string) (ds : list (string * Item)) : list (string * Item) :=
  List.filter (fun p => negb (String.eqb (fst p) id)) ds.

(** *** Setters of the component *)

Definition set_state (f : AppState -> AppState) : M unit :=
  modify (fun w => with_app (f (app w)) w).

Definition setItems (l : list Item) : M unit :=
  emit (EvSetItems l);;
  set_state (fun a =>
    {| isUnlocked := isUnlocked a; initialLoadDone := initialLoadDone a;
       loadTimer := loadTimer a; items := l; noteText := noteText a;
       notification := notification a; storageInfo := storageInfo a;
       isSaving := isSaving a; cloudEnabled := cloudEnabled a;
       syncStatus := syncStatus a |}).

Definition setNoteText (s : string) : M unit :=
  set_state (fun a =>
    {| isUnlocked := isUnlocked a; initialLoadDone := initialLoadDone a;
       loadTimer := loadTimer a; items := items a; noteText := s;
       notification := notification a; storageInfo := storageInfo a;
       isSaving := isSaving a; cloudEnabled := cloudEnabled a;
       syncStatus := syncStatus a |}).

Definition setNotification (n : option Notification) : M unit :=
  set_state (fun a =>
    {| isUnlocked := isUnlocked a; initialLoadDone := initialLoadDone a;
       loadTimer := loadTimer a; items := items a; noteText := noteText a;
       notification := n; storageInfo := storageInfo a;
       isSaving := isSaving a; cloudEnabled := cloudEnabled a;
       syncStatus := syncStatus a |}).

Definition setStorageInfo (i : Z * Z) : M unit :=
  set_state (fun a =>
    {| isUnlocked := isUnlocked a; initialLoadDone := initialLoadDone a;
       loadTimer := loadTimer a; items := items a; noteText := noteText a;
       notification := notification a; storageInfo := i;
       isSaving := isSaving a; cloudEnabled := cloudEnabled a;
       syncStatus := syncStatus a |}).

Definition setIsSaving (b : bool) : M unit :=
  set_state (fun a =>
    {| isUnlocked := isUnlocked a; initialLoadDone := initialLoadDone a;
       loadTimer := loadTimer a; items := items a; noteText := noteText a;
       notification := notification a; storageInfo := storageInfo a;
       isSaving := b; cloudEnabled := cloudEnabled a;
       syncStatus := syncStatus a |}).

Definition setCloudEnabled (b : bool) : M unit :=
  set_state (fun a =>
    {| isUnlocked := isUnlocked a; initialLoadDone := initialLoadDone a;
       loadTimer := loadTimer a; items := items a; noteText := noteText a;
       notification := notification a; storageInfo := storageInfo a;
       isSaving := isSaving a; cloudEnabled := b;
       syncStatus := syncStatus a |}).

Definition setSyncStatus (s : SyncStatus) : M unit :=
  set_state (fun a =>
    {| isUnlocked := isUnlocked a; initialLoadDone := initialLoadDone a;
       loadTimer := loadTimer a; items := items a; noteText := noteText a;
       notification := notification a; storageInfo := storageInfo a;
       isSaving := isSaving a; cloudEnabled := cloudEnabled a;
       syncStatus := s |}).

Definition set_load_flags (done timer : bool) : M unit :=
  set_state (fun a =>
    {| isUnlocked := isUnlocked a; initialLoadDone := done;
       loadTimer := timer; items := items a; noteText := noteText a;
       notification := notification a; storageInfo := storageInfo a;
       isSaving := isSaving a; cloudEnabled := cloudEnabled a;
       syncStatus := syncStatus a |}).

End Sys.
Export Sys.

(* ===================================================================== *)
(** ** firebase.js *)
(* ===================================================================== *)

Module Firebase.

Definition isFirebaseConfigured (c : FirebaseConfig) : bool :=
  negb (String.eqb (apiKey c) "YOUR_API_KEY")
  && negb (String.eqb (projectId c) "YOUR_PROJECT_ID").

(** The module variable [db] is set, at load time, only when the
    configuration is in place and the initialisation does not throw. *)
Definition db_ready (e : Env) : bool :=
  isFirebaseConfigured (config e) && init_ok e.

(** One awaited call of the Firebase SDK: it throws when the service
    faults. *)
Definition cloud_request : M unit :=
  f ← request Cloud;
  if (f : bool) then throw "cloud error" else mret tt.

Definition Date_now : M Z := fun w =>
  (Ok (clock (env w) (clock_reads w)), with_clock_reads (S (clock_reads w)) w).

(** [`files/${item.id}_${item.name}`] *)
Definition storage_path (item : Item) : string :=
  "files/" +:+ to_string (prop item "id") +:+ "_" +:+ to_string (prop item "name").

(** [item.type === 'file' && item.data && item.data.startsWith('data:')];
    a truthy [data] that is not a string has no [startsWith]. *)
Definition is_inline_file (item : Item) : M bool :=
  if strict_eq (prop item "type") (VStr "file") && truthy (prop item "data") then
    match prop item "data" with
    | VStr s => mret (startsWith s "data:")
    | _ => throw "TypeError"
    end
  else mret false.

Definition setDoc (id : string) (data : Item) : M unit :=
  cloud_request;;
  emit (EvSetDoc id data);;
  modify (fun w => with_docs (doc_set id data (docs w)) w).

Definition uploadBytes (path : string) (content : string) : M unit :=
  cloud_request;;
  emit (EvUploadBytes path);;
  modify (fun w => with_blobs (<[path := content]> (blobs w)) w).

Definition getDownloadURL (path : string) : M string :=
  cloud_request;;
  gets (fun w => download_url (env w) path).

Definition saveItemToCloud (item : Item) : M (option Item) :=
  emit (EvSaveItemToCloud item);;
  ready ← gets (fun w => db_ready (env w));
  if negb ready then mret None
  else
    try_catch
      (match method_toString (prop item "id") with
       | None => throw "TypeError"
       | Some docId =>
           inline ← is_inline_file item;
           if (inline : bool) then
             cloud_request;;
             let path := storage_path item in
             uploadBytes path (to_string (prop item "data"));;
             downloadURL ← getDownloadURL path;
             now ← Date_now;
             let itemData :=
               <["updatedAt" := VNum now]>
                 (<["isCloudStored" := VBool true]>
                    (<["data" := VStr downloadURL]> item)) in
             setDoc docId itemData;;
             mret (Some itemData)
           else
             now ← Date_now;
             let itemData := <["updatedAt" := VNum now]> item in
             setDoc docId itemData;;
             mret (Some itemData)
       end)
      (fun error => throw error).

(** [(a, b) => b.id - a.id] *)
Definition by_id_desc (a b : Item) : option Z :=
  js_sub (prop b "id") (prop a "id").

(** The documents of a query snapshot, pushed into an array and sorted. *)
Definition snapshot_items (ds : list (string * Item)) : list Item :=
  sort by_id_desc (List.map snd ds).
Arguments snapshot_items : simpl never.

Definition loadItemsFromCloud : M (list Item) :=
  emit EvLoadItemsFromCloud;;
  ready ← gets (fun w => db_ready (env w));
  if negb ready then mret []
  else
    try_catch
      (cloud_request;;
       ds ← gets docs;
       mret (snapshot_items ds))
      (fun error => mret []).

Definition deleteItemFromCloud (item : Item) : M unit :=
  emit (EvDeleteItemFromCloud item);;
  ready ← gets (fun w => db_ready (env w));
  if negb ready then mret tt
  else
    try_catch
      (match method_toString (prop item "id") with
       | None => throw "TypeError"
       | Some docId =>
           cloud_request;;
           emit (EvDeleteDoc docId);;
           modify (fun w => with_docs (doc_delete docId (docs w)) w);;
           if strict_eq (prop item "type") (VStr "file")
              && truthy (prop item "isCloudStored")
           then
             try_catch
               (let path := storage_path item in
                cloud_request;;
                emit (EvDeleteObject path);;
                modify (fun w => with_blobs (delete path (blobs w)) w))
               (fun storageError => mret tt)
           else mret tt
       end)
      (fun error => throw error).

(** [subscribeToItems(callback)]: the listener that [onSnapshot] invokes on
    every change of the collection, or none when [db] is not set. *)
Definition subscribeToItems (callback : list Item -> M unit) : M (option (M unit)) :=
  ready ← gets (fun w => db_ready (env w));
  if negb ready then mret None
  else mret (Some (ds ← gets docs; callback (snapshot_items ds))).

Definition checkFirebaseConfig : M bool :=
  gets (fun w => isFirebaseConfigured (config (env w))).

End Firebase.
Export Firebase.

(* ===================================================================== *)
(** ** The component: IndexedDB helpers, validation, handlers *)
(* ===================================================================== *)

Module App.

Definition MAX_FILE_SIZE : Z := 10 * 1024 * 1024.
Definition MAX_NOTE_LENGTH : nat := 5000.
Definition MAX_ITEMS : nat := 500.

(** *** IndexedDB helpers *)

Definition openDatabase : M unit :=
  f ← request IdbOpen;
  if (f : bool) then throw "open error" else mret tt.

(** [store.count()], with [countRequest.onerror = () => resolve(0)]. *)
Definition existing_count : M nat :=
  f ← request IdbCount;
  n ← gets (fun w => length (idb w));
  mret (if (f : bool) then 0%nat else n).

(** The read-write transaction: [store.clear()], then one [store.add] per
    item.  A fault or a failed [add] aborts it: nothing is changed and the
    promise is rejected.

    An [add] fails in two ways.  A key that is taken fails the request,
    the error reaches [transaction.onerror] and the promise is rejected, as
    here.  An [id] that is not a valid key makes [store.add] throw inside
    [clearRequest.onsuccess]: the transaction aborts and nothing is
    changed, as here, but only [oncomplete] and [onerror] settle the
    promise, so that with no request pending (the first item is the one
    with the invalid key) the promise is never settled, where this
    definition rejects.  The two agree on the store in every case, and on
    the outcome whenever every [id] is a valid key ([keys_of]); the
    statements below about a collection that gets persisted ask for valid
    keys ([keys_of], [storable]). *)
Definition replace_transaction (items : list Item) : M unit :=
  f ← request IdbWrite;
  if (f : bool) then throw "transaction error"
  else
    match add_all items [] with
    | None => throw "transaction error"
    | Some s => modify (with_idb s);; emit (EvLocalCommit items)
    end.

Definition saveItemsToDB (items : list Item) (forceEmpty : bool) : M unit :=
  emit (EvSaveItemsToDB items forceEmpty);;
  try_catch
    (openDatabase;;
     if (length items =? 0)%nat && negb forceEmpty then
       existingCount ← existing_count;
       if (0 <? existingCount)%nat then emit EvLocalSkip
       else replace_transaction items
     else replace_transaction items)
    (fun error => throw error).

(** [(a, b) => new Date(b.createdAt) - new Date(a.createdAt)] *)
Definition by_createdAt_desc (a b : Item) : option Z :=
  date_diff (prop b "createdAt") (prop a "createdAt").

Definition loadItemsFromDB : M (list Item) :=
  emit EvLoadItemsFromDB;;
  try_catch
    (openDatabase;;
     f ← request IdbRead;
     if (f : bool) then throw "request error"
     else
       s ← gets idb;
       mret (sort by_createdAt_desc (List.map snd s)))
    (fun error => throw error).

Definition getStorageEstimate : M (Z * Z) := gets (fun w => estimate (env w)).

(** Only logs; no effect on the state that is modelled. *)
Definition requestPersistentStorage : M unit := mret tt.

(** *** Validation helpers *)

Definition ALLOWED_FILE_TYPES : list string :=
  [ "image/jpeg"; "image/png"; "image/gif"; "image/webp"; "image/svg+xml";
    "application/pdf";
    "text/plain"; "text/csv"; "text/html"; "text/css"; "text/javascript";
    "application/json";
    "application/msword";
    "application/vnd.openxmlformats-officedocument.wordprocessingml.document";
    "application/vnd.ms-excel";
    "application/vnd.openxmlformats-officedocument.spreadsheetml.sheet";
    "application/vnd.ms-powerpoint";
    "application/vnd.openxmlformats-officedocument.presentationml.presentation";
    "application/zip"; "application/x-rar-compressed";
    "audio/mpeg"; "audio/wav"; "audio/ogg";
    "video/mp4"; "video/webm"; "video/ogg" ].
Arguments ALLOWED_FILE_TYPES : simpl never.

(** [l.includes(s)] *)
Definition includes (l : list string) (s : string) : bool :=
  existsb (String.eqb s) l.
Arguments includes : simpl never.

(** [s.replace(/c/g, rep)] for a single character [c]. *)
Fixpoint replace_all (c : ascii) (rep : string) (s : string) : string :=
  match s with
  | EmptyString => EmptyString
  | String x s' =>
      (if Ascii.eqb x c then rep else String x EmptyString) +:+ replace_all c rep s'
  end.

Definition sanitizeText (text : string) : string :=
  trim
    (replace_all "'" "&#x27;"
       (replace_all (ascii_of_nat 34) "&quot;"
          (replace_all ">" "&gt;"
             (replace_all "<" "&lt;"
                (replace_all "&" "&amp;" text))))).

Definition generateId : M string := fun w =>
  (Ok (fresh_id (env w) (ids_used w)), with_ids_used (S (ids_used w)) w).

(** [new Date().toISOString()] *)
Definition now_iso : M string := fun w =>
  (Ok (iso_clock (env w) (clock_reads w)), with_clock_reads (S (clock_reads w)) w).

(** The entries that [safeJSONParse] keeps:
    [item && typeof item === 'object' && typeof item.id !== 'undefined'
     && typeof item.type === 'string'].  Only plain objects can pass. *)
Definition legacy_entry (item : Value) : option Item :=
  if truthy item
     && String.eqb (typeof item) "object"
     && negb (String.eqb (typeof (member item "id")) "undefined")
     && String.eqb (typeof (member item "type")) "string"
  then as_object item
  else None.

Definition safeJSONParse (parse : string -> option Value) (data : string)
    (fallback : list Item) : list Item :=
  match parse data with
  | Some (VArr parsed) => omap legacy_entry parsed
  | Some _ => fallback
  | None => fallback
  end.

(** *** The component *)

(** The timer that clears the notification after three seconds is not
    modelled. *)
Definition showNotification (message type : string) : M unit :=
  emit (EvNotify message type);;
  setNotification (Some {| n_message := message; n_type := type |}).

(** A file chosen by the user; [f_read] is the data URL that the
    [FileReader] produces, or [None] when reading fails. *)
Record File := {
  f_name : string;
  f_size : Z;
  f_type : string;
  f_read : option string }.

Definition saveItems (newItems : list Item) : M unit :=
  cloud ← gets (fun w => cloudEnabled (app w));
  setIsSaving true;;
  setSyncStatus Syncing;;
  try_finally
    (try_catch
       (saveItemsToDB newItems false;;
        info ← getStorageEstimate;
        setStorageInfo info;;
        setSyncStatus (if (cloud : bool) then Synced else Offline))
       (fun error =>
          setSyncStatus Offline;;
          showNotification "Error saving items. Please try again." "error"))
    (setIsSaving false).

Definition validateFile (items : list Item) (file : File) : M bool :=
  if MAX_FILE_SIZE <? f_size file then
    showNotification
      ("File " +:+ dq +:+ f_name file +:+ dq +:+ " is too large. Max size is 10MB.")
      "error";;
    mret false
  else if negb (String.eqb (f_type file) EmptyString)
          && negb (includes ALLOWED_FILE_TYPES (f_type file)) then
    showNotification
      ("File type " +:+ dq +:+ f_type file +:+ dq +:+ " is not allowed.")
      "error";;
    mret false
  else if (MAX_ITEMS <=? length items)%nat then
    showNotification
      ("Maximum " +:+ pretty MAX_ITEMS +:+ " items allowed. Please delete some items.")
      "error";;
    mret false
  else mret true.

Definition readAsDataURL (file : File) : M string :=
  match f_read file with
  | Some data => mret data
  | None => throw "Failed to read file"
  end.

Definition file_item (id : string) (file : File) (data createdAt : string) : Item :=
  list_to_map
    [ ("id", VStr id);
      ("type", VStr "file");
      ("name", VStr (sanitizeText (f_name file)));
      ("size", VNum (f_size file));
      ("fileType", VStr (if String.eqb (f_type file) EmptyString
                         then "application/octet-stream" else f_type file));
      ("data", VStr data);
      ("important", VBool false);
      ("createdAt", VStr createdAt) ].

(** The body of the loop of [handleFileUpload] for one file; [items] and
    [cloud] are the values the handler closed over. *)
Definition upload_one (items : list Item) (cloud : bool) (file : File)
    (currentItems : list Item) : M (list Item) :=
  ok ← validateFile items file;
  if negb ok then mret currentItems
  else
    try_catch
      (data ← readAsDataURL file;
       id ← generateId;
       createdAt ← now_iso;
       let newItem := file_item id file data createdAt in
       if cloud then
         try_catch
           (cloudItem ← saveItemToCloud newItem;
            mret (default newItem cloudItem :: currentItems))
           (fun cloudError => mret (newItem :: currentItems))
       else mret (newItem :: currentItems))
      (fun error =>
         showNotification
           ("Error uploading " +:+ dq +:+ f_name file +:+ dq) "error";;
         mret currentItems).

Fixpoint upload_loop (items : list Item) (cloud : bool) (files : list File)
    (currentItems : list Item) : M (list Item) :=
  match files with
  | [] => mret currentItems
  | file :: rest =>
      currentItems' ← upload_one items cloud file currentItems;
      upload_loop items cloud rest currentItems'
  end.

Definition handleFileUpload (files : list File) : M unit :=
  match files with
  | [] => mret tt
  | _ =>
      items0 ← gets (fun w => items (app w));
      cloud ← gets (fun w => cloudEnabled (app w));
      setIsSaving true;;
      setSyncStatus Syncing;;
      currentItems ← upload_loop items0 cloud files items0;
      setItems currentItems;;
      saveItems currentItems;;
      showNotification (pretty (length files) +:+ " file(s) uploaded!") "success";;
      setIsSaving false;;
      setSyncStatus (if (cloud : bool) then Synced else Offline)
  end.

Definition note_item (id content createdAt : string) : Item :=
  list_to_map
    [ ("id", VStr id);
      ("type", VStr "note");
      ("content", VStr content);
      ("important", VBool false);
      ("createdAt", VStr createdAt) ].

Definition handleAddNote : M unit :=
  text ← gets (fun w => noteText (app w));
  items0 ← gets (fun w => items (app w));
  cloud ← gets (fun w => cloudEnabled (app w));
  let trimmedNote := trim text in
  if String.eqb trimmedNote EmptyString then
    showNotification "Please enter a note" "error"
  else if (MAX_NOTE_LENGTH <? String.length trimmedNote)%nat then
    showNotification
      ("Note is too long. Max " +:+ pretty MAX_NOTE_LENGTH +:+ " characters.") "error"
  else if (MAX_ITEMS <=? length items0)%nat then
    showNotification
      ("Maximum " +:+ pretty MAX_ITEMS +:+ " items allowed. Please delete some items.")
      "error"
  else
    id ← generateId;
    createdAt ← now_iso;
    let newItem := note_item id trimmedNote createdAt in
    (if (cloud : bool) then
       try_catch (saveItemToCloud newItem;; mret tt) (fun cloudError => mret tt)
     else mret tt);;
    let newItems := newItem :: items0 in
    setItems newItems;;
    saveItems newItems;;
    setNoteText EmptyString;;
    showNotification "Note added successfully!" "success".

(** [item.id === id ? { ...item, important: !item.important } : item] *)
Definition toggle_item (id : Value) (item : Item) : Item :=
  if strict_eq (prop item "id") id
  then <["important" := VBool (negb (truthy (prop item "important")))]> item
  else item.

Definition toggleImportant (id : Value) : M unit :=
  items0 ← gets (fun w => items (app w));
  cloud ← gets (fun w => cloudEnabled (app w));
  let newItems := List.map (toggle_item id) items0 in
  (if (cloud : bool) then
     match List.find (fun item => strict_eq (prop item "id") id) newItems with
     | Some updatedItem =>
         try_catch (saveItemToCloud updatedItem;; mret tt) (fun cloudError => mret tt)
     | None => mret tt
     end
   else mret tt);;
  setItems newItems;;
  saveItems newItems.

(** [confirmed] is the answer to [window.confirm]. *)
Definition deleteItem (id : Value) (confirmed : bool) : M unit :=
  if confirmed then
    items0 ← gets (fun w => items (app w));
    cloud ← gets (fun w => cloudEnabled (app w));
    let itemToDelete := List.find (fun item => strict_eq (prop item "id") id) items0 in
    (match itemToDelete with
     | Some item =>
         if (cloud : bool) then
           try_catch (deleteItemFromCloud item) (fun cloudError => mret tt)
         else mret tt
     | None => mret tt
     end);;
    let newItems := List.filter (fun item => negb (strict_eq (prop item "id") id)) items0 in
    setItems newItems;;
    saveItemsToDB newItems true;;
    showNotification "Item deleted" "success"
  else mret tt.

Definition removeLegacy : M unit :=
  emit EvRemoveLegacy;;
  modify (with_legacy None).

(** [setTimeout(() => { initialLoadDone.current = true }, 100)]: arming
    the timer, and the timer firing. *)
Definition arm_load_timer : M unit :=
  done ← gets (fun w => initialLoadDone (app w));
  set_load_flags done true.

Definition load_timer_fires : M unit :=
  armed ← gets (fun w => loadTimer (app w));
  if (armed : bool) then set_load_flags true false else mret tt.

(** The effect that loads the items once the vault is unlocked. *)
Definition loadItems : M unit :=
  unlocked ← gets (fun w => isUnlocked (app w));
  if negb unlocked then mret tt
  else
    try_finally
      (try_catch
         (requestPersistentStorage;;
          firebaseConfigured ← checkFirebaseConfig;
          setCloudEnabled firebaseConfigured;;
          (if (firebaseConfigured : bool) then
             setSyncStatus Syncing;;
             cloudItems ← loadItemsFromCloud;
             if (0 <? length cloudItems)%nat then
               setItems cloudItems;;
               saveItemsToDB cloudItems false;;
               setSyncStatus Synced;;
               showNotification "Synced from cloud!" "success"
             else
               dbItems ← loadItemsFromDB;
               if (0 <? length dbItems)%nat then
                 setItems dbItems;;
                 for_each dbItems (fun item => saveItemToCloud item;; mret tt);;
                 setSyncStatus Synced;;
                 showNotification "Local data uploaded to cloud!" "success"
               else mret tt
           else
             setSyncStatus Offline;;
             dbItems ← loadItemsFromDB;
             if (0 <? length dbItems)%nat then setItems dbItems
             else
               savedItems ← gets legacy;
               match savedItems with
               | Some text =>
                   if negb (String.eqb text EmptyString) then
                     parse ← gets (fun w => JSON_parse (env w));
                     let parsed := safeJSONParse parse text [] in
                     setItems parsed;;
                     if (0 <? length parsed)%nat then
                       saveItemsToDB parsed false;;
                       removeLegacy;;
                       showNotification "Data migrated to new storage!" "success"
                     else mret tt
                   else mret tt
               | None => mret tt
               end);;
          info ← getStorageEstimate;
          setStorageInfo info)
         (fun error =>
            setSyncStatus Offline;;
            showNotification "Error loading items" "error"))
      arm_load_timer.

(** The callback given to [subscribeToItems]. *)
Definition on_cloud_items (cloudItems : list Item) : M unit :=
  done ← gets (fun w => initialLoadDone (app w));
  if (done : bool) then
    setItems cloudItems;;
    setSyncStatus Synced
  else mret tt.

(** The effect that subscribes to the real-time updates: the listener that
    the subscription installs, if any. *)
Definition subscribe_effect : M (option (M unit)) :=
  unlocked ← gets (fun w => isUnlocked (app w));
  cloud ← gets (fun w => cloudEnabled (app w));
  if negb unlocked || negb cloud then mret None
  else subscribeToItems on_cloud_items.

End App.
Export App.

(* ===================================================================== *)
(** ** Reasoning about computations *)
(* ===================================================================== *)

(** The world after a computation, and its result. *)
Definition after_run {A} (m : M A) (w : World) : World := snd (m w).
Definition result {A} (m : M A) (w : World) : Res A := fst (m w).

(** The events that a run adds to the log. *)
Definition events_of {A} (m : M A) (w : World) : list Event :=
  drop (length (log w)) (log (after_run m w)).


(** The condition under which [validateFile] returns [true] for a file,
    [held] being the collection that the handler closed over. *)
Definition file_acceptable (held : list Item) (file : File) : bool :=
  (f_size file <=? MAX_FILE_SIZE)
  && (String.eqb (f_type file) EmptyString || includes ALLOWED_FILE_TYPES (f_type file))
  && (length held <? MAX_ITEMS)%nat.

(** What an item made from an accepted file carries: a size within the
    ceiling, and either a media type of the allow-list or, for a file that
    reports none, [application/octet-stream]. *)
Definition accepted_as (file : File) (it : Item) : Prop :=
  f_size file <= MAX_FILE_SIZE
  /\ prop it "size" = VNum (f_size file)
  /\ ((f_type file = EmptyString /\ prop it "fileType" = VStr "application/octet-stream")
      \/ (includes ALLOWED_FILE_TYPES (f_type file) = true
          /\ prop it "fileType" = VStr (f_type file))).

(** The condition under which [handleAddNote] goes on. *)
Definition note_acceptable (w : World) : bool :=
  let text := trim (noteText (app w)) in
  negb (String.eqb text EmptyString)
  && (String.length text <=? MAX_NOTE_LENGTH)%nat
  && (length (items (app w)) <? MAX_ITEMS)%nat.

(** Every run of [m] only appends to the log, and what it appends
    satisfies [P]. *)
Definition emits {A} (P : list Event -> Prop) (m : M A) : Prop :=
  forall w, exists new, log (after_run m w) = log w ++ new /\ P new.

(** Every run of [m] logs [e]; every run of [m] only appends to the log. *)
Definition mentions {A} (e : Event) (m : M A) : Prop :=
  emits (fun new => e ∈ new) m.

Definition extends {A} (m : M A) : Prop := emits (fun _ => True) m.

(** The steps of a mutation intent that leave a trace: a call of the
    remote adapter (and its writes), the publication of a collection with
    [setItems], a call of the local replace-all (and its outcome). *)
Inductive Step := Remote | Publish | Persist.

Definition step_of (e : Event) : option Step :=
  match e with
  | EvSaveItemToCloud _ | EvDeleteItemFromCloud _
  | EvUploadBytes _ | EvSetDoc _ _ | EvDeleteDoc _ | EvDeleteObject _ => Some Remote
  | EvSetItems _ => Some Publish
  | EvSaveItemsToDB _ _ | EvLocalSkip | EvLocalCommit _ => Some Persist
  | EvNotify _ _ | EvLoadItemsFromDB | EvLoadItemsFromCloud | EvRemoveLegacy => None
  end.

Definition steps (evs : list Event) : list Step := omap step_of evs.

(** The place of each step in the order that the code follows, and in the
    order that the specification gives. *)
Definition code_rank (s : Step) : nat :=
  match s with Remote => 1 | Publish => 2 | Persist => 3 end.

Definition spec_rank (s : Step) : nat :=
  match s with Publish => 1 | Remote => 2 | Persist => 3 end.

Fixpoint nondecreasing (l : list nat) : bool :=
  match l with
  | a :: (b :: _) as t => (a <=? b)%nat && nondecreasing t
  | _ => true
  end.

(** The steps of [evs] follow the order given by [rank]. *)
Definition in_order (rank : Step -> nat) (evs : list Event) : bool :=
  nondecreasing (List.map rank (steps evs)).

(** The events are in the order of the code and their steps lie between
    two places. *)
Definition phase (lo hi : nat) (evs : list Event) : Prop :=
  in_order code_rank evs = true
  /\ Forall (fun n => lo <= n <= hi)%nat (List.map code_rank (steps evs)).

(** The ceilings stay folded in the proofs. *)
Opaque MAX_FILE_SIZE MAX_NOTE_LENGTH MAX_ITEMS.

(** [m] never ends in an exception. *)
Definition no_throw {A} (m : M A) : Prop :=
  forall w, exists a, result m w = Ok a.

(** [m] leaves the observation [f] of the world as it was. *)
Definition preserves {X A} (f : World -> X) (m : M A) : Prop :=
  forall w, f (after_run m w) = f w.

(* ===================================================================== *)
(** ** The filtered view of the component *)
(* ===================================================================== *)

(** [items.filter(item => ...)] under the filter chosen in the tool bar:
    [important], [files], [notes]; any other value shows everything. *)
Definition filteredItems (filter : string) (items : list Item) : list Item :=
  List.filter
    (fun item =>
       if String.eqb filter "important" then truthy (prop item "important")
       else if String.eqb filter "files" then strict_eq (prop item "type") (VStr "file")
       else if String.eqb filter "notes" then strict_eq (prop item "type") (VStr "note")
       else true)
    items.

(* ===================================================================== *)
(** ** Further notions: escaping, stores, notifications *)
(* ===================================================================== *)

(** The characters that [sanitizeText] escapes. *)
Definition markup_characters : list ascii :=
  ["&"; "<"; ">"; ascii_of_nat 34; "'"]%char.

(** A text without any of them. *)
Definition plain_text (s : string) : bool :=
  forallb (fun c => negb (existsb (Ascii.eqb c) markup_characters))
    (list_ascii_of_string s).

(** The keys under which the object store files the items of a collection,
    when every [id] is a valid key. *)
Definition keys_of (l : list Item) : option (list Key) :=
  mapM (fun it => key_of (prop it "id")) l.

(** A collection that the object store can hold: every [id] is a valid key
    and no key occurs twice. *)
Definition storable (l : list Item) : Prop :=
  exists ks, keys_of l = Some ks /\ NoDup ks.

(** The records of a store are in the order of their keys. *)
Definition key_ordered (s : list (Key * Item)) : Prop :=
  StronglySorted (fun a b => key_compare (fst a) (fst b) = Lt) s.

(** The time value of the creation date of an item; an invalid date counts
    as [0]. *)
Definition created (it : Item) : Z := default 0 (date_value (prop it "createdAt")).

(** The number that [id] converts to; [NaN] counts as [0]. *)
Definition id_number (it : Item) : Z := default 0 (to_number (prop it "id")).

(** What the remote side consists of: the documents, the blobs, and the
    script of the faults of the requests to come.  It is the same in two
    worlds when nothing was written and no request was made in between. *)
Definition remote_side (w : World) : list (string * Item) * gmap string string * list bool :=
  (docs w, blobs w, cloud_faults w).

(** The local store, and the scripts of the faults of its requests. *)
Definition local_side (w : World)
    : list (Key * Item) * list bool * list bool * list bool * list bool :=
  (idb w, open_faults w, count_faults w, write_faults w, read_faults w).

(** No event of a list is a call of the remote adapter or one of its
    writes. *)
Definition local_only (evs : list Event) : Prop :=
  Forall (fun e => step_of e <> Some Remote) evs.

(** Whether the [important] flag of an item is a boolean. *)
Definition flag_is_boolean (item : Item) : bool :=
  match item !! "important" with
  | Some (VBool _) => true
  | _ => false
  end.

(** A file that [handleFileUpload] turns into an item: it passes
    [validateFile] and the reader delivers its content. *)
Definition uploadable (held : list Item) (file : File) : bool :=
  file_acceptable held file
  && match f_read file with Some _ => true | None => false end.

(** The item made from a file: what [accepted_as] says, the type, the
    escaped name and the flag. *)
Definition made_from (file : File) (it : Item) : Prop :=
  accepted_as file it
  /\ prop it "type" = VStr "file"
  /\ prop it "name" = VStr (sanitizeText (f_name file))
  /\ prop it "important" = VBool false.

(** The notifications that the handlers show. *)
Definition saving_failed : Notification :=
  {| n_message := "Error saving items. Please try again."; n_type := "error" |}.

Definition note_added : Notification :=
  {| n_message := "Note added successfully!"; n_type := "success" |}.

Definition item_deleted : Notification :=
  {| n_message := "Item deleted"; n_type := "success" |}.

Definition files_uploaded (n : nat) : Notification :=
  {| n_message := pretty n +:+ " file(s) uploaded!"; n_type := "success" |}.

Definition loading_failed : Notification :=
  {| n_message := "Error loading items"; n_type := "error" |}.


(* ===================================================================== *)
(** ** Concrete worlds *)
(* ===================================================================== *)

Module Scenario.

Definition configured : FirebaseConfig :=
  {| apiKey := "AIzaSyVaultKey"; projectId := "vault-7f3a" |}.

(** The configuration as the repository ships it. *)
Definition placeholders : FirebaseConfig :=
  {| apiKey := "YOUR_API_KEY"; projectId := "YOUR_PROJECT_ID" |}.

Definition quoted (s : string) : string := dq +:+ s +:+ dq.

(** A legacy list with one well-formed note, one entry without [id] and
    one entry whose [type] is not a string. *)
Definition legacy_text : string :=
  "[{" +:+ quoted "id" +:+ ":1700000000000," +:+ quoted "type" +:+ ":" +:+ quoted "note"
  +:+ "," +:+ quoted "content" +:+ ":" +:+ quoted "x" +:+ "},{" +:+ quoted "type" +:+ ":"
  +:+ quoted "note" +:+ "},{" +:+ quoted "id" +:+ ":2," +:+ quoted "type" +:+ ":7}]".

Definition legacy_note : Item :=
  list_to_map [("id", VNum 1700000000000); ("type", VStr "note"); ("content", VStr "x")].

Definition legacy_value : Value :=
  VArr [ VObj legacy_note;
         VObj (list_to_map [("type", VStr "note")]);
         VObj (list_to_map [("id", VNum 2); ("type", VNum 7)]) ].

(** A list whose only entry has no [id]. *)
Definition legacy_text_no_id : string :=
  "[{" +:+ quoted "type" +:+ ":" +:+ quoted "note" +:+ "}]".

(** [JSON.parse] on the texts of the scenarios; any other text used below
    is not JSON. *)
Definition parse (text : string) : option Value :=
  if String.eqb text legacy_text then Some legacy_value
  else if String.eqb text legacy_text_no_id
       then Some (VArr [VObj (list_to_map [("type", VStr "note")])])
  else if String.eqb text "[]" then Some (VArr [])
  else None.

Definition two_digits (n : nat) : string :=
  if (n <? 10)%nat then "0" +:+ pretty n else pretty n.

Definition the_env (c : FirebaseConfig) : Env :=
  {| config := c;
     init_ok := true;
     JSON_parse := parse;
     download_url := fun path => "https://firebasestorage.googleapis.com/v0/b/vault/o/" +:+ path;
     fresh_id := fun n => "3f2b8c1e-0d4a-4e6f-9a7b-0000000000" +:+ two_digits n;
     clock := fun n => 1700000000000 + Z.of_nat n;
     iso_clock := fun n => "2023-11-14T22:13:" +:+ two_digits n +:+ ".000Z";
     estimate := (0, 0) |}.

Definition fresh_app : AppState :=
  {| isUnlocked := true; initialLoadDone := false; loadTimer := false;
     items := []; noteText := EmptyString; notification := None;
     storageInfo := (0, 0); isSaving := false; cloudEnabled := false;
     syncStatus := Checking |}.

(** A session that starts unlocked, with empty stores and no fault. *)
Definition fresh (c : FirebaseConfig) : World :=
  {| env := the_env c; app := fresh_app; idb := []; legacy := None; docs := [];
     blobs := ∅; open_faults := []; count_faults := []; write_faults := [];
     read_faults := []; cloud_faults := []; ids_used := 0; clock_reads := 0; log := [] |}.

Definition note (id : Value) (content : string) : Item :=
  list_to_map
    [ ("id", id); ("type", VStr "note"); ("content", VStr content);
      ("important", VBool false); ("createdAt", VStr "2023-11-01T08:00:00.000Z") ].

Definition inline_file (id : Value) : Item :=
  list_to_map
    [ ("id", id); ("type", VStr "file"); ("name", VStr "a.txt"); ("size", VNum 2);
      ("fileType", VStr "text/plain"); ("data", VStr "data:text/plain;base64,aGk=");
      ("important", VBool false); ("createdAt", VStr "2023-11-01T08:00:00.000Z") ].

(** The component once the load has settled, holding [l]. *)
Definition loaded (cloud : bool) (l : list Item) : AppState :=
  {| isUnlocked := true; initialLoadDone := true; loadTimer := false;
     items := l; noteText := EmptyString; notification := None;
     storageInfo := (0, 0); isSaving := false; cloudEnabled := cloud;
     syncStatus := if cloud then Synced else Offline |}.


(** The local store holds one note; nothing faults. *)
Definition one_local_note : World :=
  with_idb [(KStr "n1", note (VStr "n1") "keep me")] (fresh placeholders).

(** Remote sync is configured and holds two notes (numeric identifiers, as
    written by the first version of the application); the local store holds
    a different note. *)
Definition remote_and_local_differ : World :=
  with_docs [ ("1700000000001", note (VNum 1700000000001) "first");
              ("1700000000002", note (VNum 1700000000002) "second") ]
    (with_idb [(KStr "n1", note (VStr "n1") "keep me")] (fresh configured)).

(** Remote sync unconfigured, empty local store, a legacy list. *)
Definition with_legacy_list : World :=
  with_legacy (Some legacy_text) (fresh placeholders).


Definition small_file : File :=
  {| f_name := "a.txt"; f_size := 2; f_type := "text/plain";
     f_read := Some "data:text/plain;base64,aGk=" |}.

(** A session with remote sync configured in which the user has added two
    notes, one after the other. *)
Definition two_notes_synced : World :=
  after_run
    (setNoteText "first";; handleAddNote;; setNoteText "second";; handleAddNote)
    (with_app (loaded true []) (fresh configured)).

(** The documents that these two additions write. *)
Definition first_doc : Item :=
  <["updatedAt" := VNum 1700000000001]>
    (note_item "3f2b8c1e-0d4a-4e6f-9a7b-000000000000" "first" "2023-11-14T22:13:00.000Z").

Definition second_doc : Item :=
  <["updatedAt" := VNum 1700000000003]>
    (note_item "3f2b8c1e-0d4a-4e6f-9a7b-000000000001" "second" "2023-11-14T22:13:02.000Z").

(** Remote sync configured and empty; the local store holds one file whose
    payload is inline. *)
Definition local_inline_file : World :=
  with_idb [(KStr "f1", inline_file (VStr "f1"))] (fresh configured).

(** A loaded session without remote sync whose collection holds [n] notes. *)
Definition holding (n : nat) : World :=
  with_app
    (loaded false
       (List.map (fun i => note (VStr ("n" +:+ pretty i)) "kept") (seq 0 n)))
    (fresh placeholders).

(** A loaded session with remote sync, an empty collection, and [hello]
    typed into the note field. *)
Definition typing_hello : World :=
  after_run (setNoteText "hello") (with_app (loaded true []) (fresh configured)).

Definition untyped_file : File :=
  {| f_name := "notes.xyz"; f_size := 2; f_type := EmptyString;
     f_read := Some "data:application/octet-stream;base64,aGk=" |}.

Definition oversized_file : File :=
  {| f_name := "big.pdf"; f_size := 10 * 1024 * 1024 + 1; f_type := "application/pdf";
     f_read := Some "data:application/pdf;base64,AAAA" |}.

End Scenario.


(* ===================================================================== *)
(** ** The built-ins on examples *)
(* ===================================================================== *)

Example parse_iso_epoch : parse_iso "1970-01-01T00:00:00.000Z" = Some 0.
Proof. reflexivity. Qed.

Example parse_iso_2024 : parse_iso "2024-03-01T12:30:15.250Z" = Some 1709296215250.
Proof. reflexivity. Qed.

Example trim_inner_space : trim "  a b  " = "a b".
Proof. reflexivity. Qed.

Example numeral_minus_numeral : js_sub (VStr " 12 ") (VNum 5) = Some 7.
Proof. reflexivity. Qed.

Example uuid_minus_uuid :
  js_sub (VStr "9b2f41d2-0d4a-4e6f-9a7b-1b4e28ba0001")
         (VStr "1b4e28ba-0d4a-4e6f-9a7b-9b2f41d20002") = None.
Proof. reflexivity. Qed.

Example sort_descending : sort (fun a b => Some (b - a)) [3; 1; 2] = [3; 2; 1].
Proof. reflexivity. Qed.

Example sort_is_stable :
  sort (fun a b => Some (fst b - fst a)) [(1, "x"); (2, "y"); (1, "z")]
  = [(2, "y"); (1, "x"); (1, "z")].
Proof. reflexivity. Qed.

Example sanitize_markup : sanitizeText " <b>R&D</b> " = "&lt;b&gt;R&amp;D&lt;/b&gt;".
Proof. reflexivity. Qed.

Example placeholders_are_unconfigured :
  isFirebaseConfigured Scenario.placeholders = false
  /\ isFirebaseConfigured Scenario.configured = true.
Proof. split; reflexivity. Qed.

(* ===================================================================== *)
(** ** Frame lemmas *)
(* ===================================================================== *)

Section Frame.
Context {X : Type} (f : World -> X).

Lemma preserves_ret {A} (a : A) : preserves f (mret a).
Proof. by intros w. Qed.

Lemma preserves_throw {A} e : preserves f (@throw A e).
Proof. by intros w. Qed.

Lemma preserves_gets {A} (g : World -> A) : preserves f (gets g).
Proof. by intros w. Qed.

Lemma preserves_bind {A B} (m : M A) (k : A -> M B) :
  preserves f m -> (forall a, preserves f (k a)) -> preserves f (m ≫= k).
Proof.
  intros Hm Hk w. unfold after_run, mbind, M_bind.
  specialize (Hm w). unfold after_run in Hm.
  destruct (m w) as [[a|e] w1]; simpl in *; [|done].
  rewrite <- Hm. apply Hk.
Qed.

Lemma preserves_try_catch {A} (m : M A) (h : string -> M A) :
  preserves f m -> (forall e, preserves f (h e)) -> preserves f (try_catch m h).
Proof.
  intros Hm Hh w. unfold after_run, try_catch.
  specialize (Hm w). unfold after_run in Hm.
  destruct (m w) as [[a|e] w1]; simpl in *; [done|].
  rewrite <- Hm. apply Hh.
Qed.

Lemma preserves_try_finally {A} (m : M A) (fin : M unit) :
  preserves f m -> preserves f fin -> preserves f (try_finally m fin).
Proof.
  intros Hm Hf w. unfold after_run, try_finally.
  specialize (Hm w). unfold after_run in Hm.
  destruct (m w) as [r w1]; simpl in *.
  specialize (Hf w1). unfold after_run in Hf.
  destruct (fin w1) as [[u|e] w2]; simpl in *; congruence.
Qed.

Lemma preserves_for_each {A} (l : list A) (body : A -> M unit) :
  (forall x, preserves f (body x)) -> preserves f (for_each l body).
Proof.
  intros Hb. induction l as [|x l IH]; simpl.
  - apply preserves_ret.
  - apply preserves_bind; auto.
Qed.

End Frame.

(** What leaves the component alone leaves every part of it alone. *)
Lemma preserves_through_app {X A} (g : AppState -> X) (m : M A) :
  preserves app m -> preserves (fun w => g (app w)) m.
Proof. intros H w. by rewrite (H w). Qed.

Create HintDb frame.

(** Decomposes a goal [preserves f m] along the structure of [m]; what is
    known about the operations comes from the hint database [frame]. *)
Ltac frame_step :=
  first
    [ solve [auto with frame nocore]
    | apply preserves_through_app; solve [auto with frame nocore]
    | apply preserves_ret
    | apply preserves_throw
    | apply preserves_gets
    | apply preserves_bind; [| intros ?]
    | apply preserves_try_catch; [| intros ?]
    | apply preserves_try_finally
    | apply preserves_for_each; intros ?
    | match goal with
      | |- preserves _ (if ?b then _ else _) => destruct b
      | |- preserves _ (match ?x with _ => _ end) => destruct x
      end
    | by intros ? ].

Ltac frame := repeat frame_step.

(** *** What each operation leaves alone *)

Lemma request_app op : preserves app (request op).
Proof. intros w. by destruct op. Qed.
Lemma request_idb op : preserves idb (request op).
Proof. intros w. by destruct op. Qed.
Lemma request_log op : preserves log (request op).
Proof. intros w. by destruct op. Qed.
#[global] Hint Resolve request_app request_idb request_log : frame.

Lemma saveItemToCloud_app item : preserves app (saveItemToCloud item).
Proof.
  unfold saveItemToCloud, setDoc, uploadBytes, getDownloadURL, is_inline_file,
    cloud_request, emit.
  frame.
Qed.
#[global] Hint Resolve saveItemToCloud_app : frame.

(* ===================================================================== *)
(** ** Running computations *)
(* ===================================================================== *)

Lemma bind_ok {A B} (m : M A) (k : A -> M B) w a w1 :
  m w = (Ok a, w1) -> (m ≫= k) w = k a w1.
Proof. intros H. unfold mbind, M_bind. by rewrite H. Qed.

(** Unfolds the monad and the primitive effects. *)
Ltac run :=
  unfold events_of in *;
  unfold after_run, result, try_catch, try_finally, emit, set_state in *;
  unfold modify, gets, request, throw, mbind, M_bind, mret, M_ret in *;
  simpl in *.

(* ===================================================================== *)
(** ** Real-time pushes *)
(* ===================================================================== *)

(** C3. A push delivered to the callback before [initialLoadDone] is set
    changes nothing at all, hence leaves the collection as it was; a push
    delivered once the flag is set makes the pushed snapshot the
    collection, whatever the collection held before. *)
Theorem push_respects_initial_load (w : World) (cloudItems : list Item) :
  let w' := after_run (on_cloud_items cloudItems) w in
  if initialLoadDone (app w) then items (app w') = cloudItems else w' = w.
Proof.
  unfold on_cloud_items, setItems, setSyncStatus. run.
  destruct (initialLoadDone (app w)); reflexivity.
Qed.

(** The listener that the subscription installs hands the sorted documents
    of the collection to that callback. *)
Lemma subscription_listener (w : World) (listener : M unit) :
  result subscribe_effect w = Ok (Some listener) ->
  forall w1, listener w1 = on_cloud_items (snapshot_items (docs w1)) w1.
Proof.
  unfold subscribe_effect, subscribeToItems. run.
  destruct (negb (isUnlocked (app w)) || negb (cloudEnabled (app w))); simpl; [done|].
  destruct (db_ready (env w)); simpl; [|done].
  by intros [= <-].
Qed.

(* ===================================================================== *)
(** ** The guard of the local replace-all *)
(* ===================================================================== *)





(* ===================================================================== *)
(** ** Computations that cannot throw *)
(* ===================================================================== *)

Lemma no_throw_ret {A} (a : A) : no_throw (mret a).
Proof. intros w. by exists a. Qed.

Lemma no_throw_gets {A} (g : World -> A) : no_throw (gets g).
Proof. intros w. by eexists. Qed.

Lemma no_throw_modify g : no_throw (modify g).
Proof. intros w. by eexists. Qed.

Lemma no_throw_bind {A B} (m : M A) (k : A -> M B) :
  no_throw m -> (forall a, no_throw (k a)) -> no_throw (m ≫= k).
Proof.
  intros Hm Hk w. destruct (Hm w) as [a Ha]. unfold result in *.
  destruct (m w) as [r w1] eqn:E. simpl in Ha. subst r.
  rewrite (bind_ok _ _ _ _ _ E). apply Hk.
Qed.

Lemma no_throw_try_catch {A} (m : M A) (h : string -> M A) :
  (forall e, no_throw (h e)) -> no_throw (try_catch m h).
Proof.
  intros Hh w. unfold result, try_catch.
  destruct (m w) as [[a|e] w1]; simpl; [eauto|]. apply Hh.
Qed.

Lemma no_throw_try_finally {A} (m : M A) (fin : M unit) :
  no_throw m -> no_throw fin -> no_throw (try_finally m fin).
Proof.
  intros Hm Hf w. destruct (Hm w) as [a Ha].
  unfold result, try_finally in *.
  destruct (m w) as [r w1]. simpl in Ha. subst r.
  destruct (Hf w1) as [u Hu]. unfold result in Hu.
  destruct (fin w1) as [r2 w2]. simpl in Hu. subst r2.
  simpl. eauto.
Qed.

Create HintDb nothrow.

Ltac no_throw_step :=
  first
    [ solve [auto with nothrow nocore]
    | apply no_throw_ret
    | apply no_throw_gets
    | apply no_throw_modify
    | apply no_throw_try_catch; intros ?
    | apply no_throw_try_finally
    | apply no_throw_bind; [| intros ?]
    | match goal with
      | |- no_throw (if ?b then _ else _) => destruct b
      | |- no_throw (match ?x with _ => _ end) => destruct x
      end
    | (intros ?; by eexists) ].

Ltac nothrow := repeat no_throw_step.

(** The collection after a sequence whose first part cannot throw and
    whose second part settles it. *)
Lemma items_after_bind {A B} (m : M A) (k : A -> M B) (P : list Item -> Prop) w :
  no_throw m ->
  (forall a w1, P (items (app (after_run (k a) w1)))) ->
  P (items (app (after_run (m ≫= k) w))).
Proof.
  intros Hm Hk. destruct (Hm w) as [a Ha]. unfold result, after_run in *.
  destruct (m w) as [r w1] eqn:E. simpl in Ha. subst r.
  rewrite (bind_ok _ _ _ _ _ E). apply Hk.
Qed.

Lemma after_gets_bind {A B} (g : World -> A) (k : A -> M B) w :
  after_run (gets g ≫= k) w = after_run (k (g w)) w.
Proof. reflexivity. Qed.

(** Once [setItems l] has run, what follows and keeps the collection ends
    with [l]. *)
Lemma items_after_setItems {B} l (k : unit -> M B) w :
  (forall u, preserves (fun w => items (app w)) (k u)) ->
  items (app (after_run (setItems l ≫= k) w)) = l.
Proof.
  intros Hk. unfold after_run.
  erewrite bind_ok by reflexivity. apply (Hk tt).
Qed.

(** *** What the operations of the component leave alone *)

Lemma showNotification_no_throw message type : no_throw (showNotification message type).
Proof. unfold showNotification, setNotification, emit, set_state. nothrow. Qed.
#[global] Hint Resolve showNotification_no_throw : nothrow.

Lemma showNotification_items message type :
  preserves (fun w => items (app w)) (showNotification message type).
Proof. by intros w. Qed.

Lemma saveItemsToDB_app l force : preserves app (saveItemsToDB l force).
Proof.
  unfold saveItemsToDB, openDatabase, existing_count, replace_transaction, emit.
  frame.
Qed.

Lemma saveItemsToDB_items l force :
  preserves (fun w => items (app w)) (saveItemsToDB l force).
Proof. intros w. by rewrite (saveItemsToDB_app l force w). Qed.
#[global] Hint Resolve showNotification_items saveItemsToDB_app saveItemsToDB_items : frame.

Lemma saveItems_items l : preserves (fun w => items (app w)) (saveItems l).
Proof.
  unfold saveItems, getStorageEstimate, setStorageInfo, setSyncStatus, setIsSaving.
  frame.
Qed.

Lemma saveItems_no_throw l : no_throw (saveItems l).
Proof.
  unfold saveItems, setSyncStatus, setIsSaving, set_state. nothrow.
Qed.
#[global] Hint Resolve saveItems_items : frame.
#[global] Hint Resolve saveItems_no_throw : nothrow.

Lemma saveItemToCloud_items item :
  preserves (fun w => items (app w)) (saveItemToCloud item).
Proof. intros w. by rewrite (saveItemToCloud_app item w). Qed.
#[global] Hint Resolve saveItemToCloud_items : frame.

(* ===================================================================== *)
(** ** The flag of the initial load *)
(* ===================================================================== *)

Lemma after_try_finally {A} (m : M A) (fin : M unit) w :
  after_run (try_finally m fin) w = after_run fin (after_run m w).
Proof.
  unfold after_run, try_finally. destruct (m w) as [r w1]. simpl.
  by destruct (fin w1) as [[u|e] w2].
Qed.

(** The flag [initialLoadDone] is not set by [loadItems] itself but by the
    timer that it arms when it ends. *)
Lemma flag_set_by_timer w :
  isUnlocked (app w) = true ->
  let w1 := after_run loadItems w in
  initialLoadDone (app w1) = initialLoadDone (app w)
  /\ loadTimer (app w1) = true
  /\ initialLoadDone (app (after_run load_timer_fires w1)) = true.
Proof.
  intros Hu w1. subst w1. unfold loadItems. rewrite after_gets_bind, Hu.
  cbn [negb]. rewrite after_try_finally.
  match goal with |- context [after_run (try_catch ?m ?h) w] =>
    assert (Hp : preserves (fun w => initialLoadDone (app w)) (try_catch m h));
    [| specialize (Hp w); set (w' := after_run (try_catch m h) w) in * ]
  end.
  { unfold checkFirebaseConfig, requestPersistentStorage, setCloudEnabled, setSyncStatus,
      setItems, removeLegacy, getStorageEstimate, setStorageInfo, showNotification,
      setNotification, loadItemsFromCloud, loadItemsFromDB, openDatabase, cloud_request,
      saveItemsToDB, existing_count, replace_transaction, set_state, emit.
    frame. }
  clearbody w'. split; [|done]. by rewrite <- Hp.
Qed.

(* ===================================================================== *)
(** ** Toggling the important flag *)
(* ===================================================================== *)

Lemma toggle_item_other id item k :
  k <> "important" -> toggle_item id item !! k = item !! k.
Proof.
  intros Hk. unfold toggle_item. destruct (strict_eq _ _); [|done].
  by rewrite lookup_insert_ne.
Qed.

Lemma toggle_item_flag id item :
  strict_eq (prop item "id") id = true ->
  toggle_item id item !! "important"
  = Some (VBool (negb (truthy (prop item "important")))).
Proof. intros H. unfold toggle_item. rewrite H. apply lookup_insert_eq. Qed.

Lemma toggle_item_miss id item :
  strict_eq (prop item "id") id = false -> toggle_item id item = item.
Proof. intros H. unfold toggle_item. by rewrite H. Qed.

Lemma toggleImportant_items id w :
  items (app (after_run (toggleImportant id) w))
  = List.map (toggle_item id) (items (app w)).
Proof.
  unfold toggleImportant. rewrite !after_gets_bind.
  apply (items_after_bind _ _ (fun l => l = _)); [nothrow|].
  intros _ w1. apply items_after_setItems. intros _. frame.
Qed.

(** C10. [toggleImportant] keeps the length and the order of the
    collection; at every position the item either has another [id] and is
    unchanged, or has the given [id], gets the negation of its [important]
    flag and keeps every other property ([id], [type], [content], [data],
    [name], [size], [fileType], [createdAt] among them); with no item of
    that [id] the collection is the one before. *)
Theorem toggleImportant_frame (w : World) (id : Value) :
  let old := items (app w) in
  let new := items (app (after_run (toggleImportant id) w)) in
  length new = length old
  /\ (forall i item, old !! i = Some item ->
        exists item', new !! i = Some item'
          /\ (forall k, k <> "important" -> item' !! k = item !! k)
          /\ (if strict_eq (prop item "id") id
              then item' !! "important"
                   = Some (VBool (negb (truthy (prop item "important"))))
              else item' = item))
  /\ ((forall item, item ∈ old -> strict_eq (prop item "id") id = false) ->
      new = old).
Proof.
  intros old new. subst new. rewrite toggleImportant_items. fold old.
  split; [apply length_map|]. split.
  - intros i item Hi. exists (toggle_item id item). split.
    + change (List.map (toggle_item id) old) with (toggle_item id <$> old).
      by rewrite list_lookup_fmap, Hi.
    + split; [intros k Hk; by apply toggle_item_other|].
      destruct (strict_eq (prop item "id") id) eqn:E.
      * by apply toggle_item_flag.
      * by apply toggle_item_miss.
  - intros Hnone. induction old as [|x l IH]; [done|]. simpl.
    rewrite toggle_item_miss by (apply Hnone; left).
    f_equal. apply IH. intros item Hin. apply Hnone. by right.
Qed.

(* ===================================================================== *)
(** ** Startup: the remote collection comes first *)
(* ===================================================================== *)

Lemma nonempty_length {A} (l : list A) : l <> [] -> (0 <? length l)%nat = true.
Proof. destruct l; [done|]. by intros _. Qed.

Ltac log_norm := rewrite <- ?app_assoc, ?drop_app_length; simpl.
Ltac in_log := apply list_elem_of_In; simpl; auto 20.

(** The records of the store after the [add]s are the items added, next
    to what the store held. *)
Lemma store_add_records k it s s' :
  store_add k it s = Some s' -> List.map snd s' ≡ₚ it :: List.map snd s.
Proof.
  revert s'. induction s as [|[k' it'] s IH]; intros s' H; simpl in *.
  - by injection H as <-.
  - destruct (key_compare k k').
    + done.
    + by injection H as <-.
    + destruct (store_add k it s) as [t|]; [|done]. simpl in H.
      injection H as <-. simpl. rewrite (IH t eq_refl). apply Permutation_swap.
Qed.

Lemma add_all_records l s s' :
  add_all l s = Some s' -> List.map snd s' ≡ₚ l ++ List.map snd s.
Proof.
  revert s s'. induction l as [|it l IH]; intros s s' H; unfold add_all in H; fold add_all in H.
  - by injection H as <-.
  - destruct (key_of (prop it "id")) as [k|]; [|done]. simpl in H.
    destruct (store_add k it s) as [t|] eqn:Et; [|done]. simpl in H.
    rewrite (IH _ _ H), (store_add_records _ _ _ _ Et). simpl.
    by rewrite Permutation_middle.
Qed.

(** Keys of the object store: the order on keys, what [store_add] does
    with a taken and with a free key, and when a whole list is accepted. *)

Lemma key_compare_eq a b : key_compare a b = Eq <-> a = b.
Proof.
  destruct a as [x|x], b as [y|y]; simpl; split; try done.
  - intros H. apply Z.compare_eq in H. by subst.
  - intros [= ->]. apply Z.compare_refl.
  - intros H. apply String.compare_eq_iff in H. by subst.
  - intros [= ->]. pose proof (String.compare_antisym y y) as Ha.
    destruct (String.compare y y); simpl in *; done.
Qed.

Lemma key_compare_irrefl k : key_compare k k <> Lt.
Proof. assert (key_compare k k = Eq) by (by apply key_compare_eq). congruence. Qed.

Lemma key_compare_trans a b c :
  key_compare a b = Lt -> key_compare b c = Lt -> key_compare a c = Lt.
Proof.
  destruct a as [x|x], b as [y|y], c as [z|z]; simpl; try done.
  - rewrite !Z.compare_lt_iff. lia.
  - intros H1 H2. apply String_as_OT.cmp_lt in H1, H2.
    apply String_as_OT.cmp_lt. eapply String_as_OT.lt_trans; eauto.
Qed.

Lemma key_compare_gt a b : key_compare a b = Gt -> key_compare b a = Lt.
Proof.
  destruct a as [x|x], b as [y|y]; simpl; try done.
  - rewrite Z.compare_gt_iff, Z.compare_lt_iff. lia.
  - rewrite (String.compare_antisym y x). destruct (String.compare x y); simpl; done.
Qed.

(** On a store in key order, [add] fails on a key that is taken. *)
Lemma store_add_taken k it s :
  key_ordered s -> k ∈ List.map fst s -> store_add k it s = None.
Proof.
  intros Hs. induction Hs as [|[k' it'] s Hs IH Hall]; simpl.
  - by intros ?%elem_of_nil.
  - intros Hin. destruct (key_compare k k') eqn:E; [done|..].
    + exfalso. apply elem_of_cons in Hin as [->|Hin].
      * by apply (key_compare_irrefl k').
      * apply list_elem_of_fmap in Hin as ([k2 it2] & -> & Hin). simpl in *.
        rewrite Forall_forall in Hall. specialize (Hall _ Hin). simpl in Hall.
        by apply (key_compare_irrefl k2), (key_compare_trans _ k').
    + apply elem_of_cons in Hin as [->|Hin].
      * apply key_compare_gt in E. by apply key_compare_irrefl in E.
      * by rewrite (IH Hin).
Qed.

(** On a free key it goes through; the store stays in key order and gains
    that key. *)
Lemma store_add_free k it s :
  key_ordered s -> k ∉ List.map fst s ->
  exists s', store_add k it s = Some s' /\ key_ordered s'
             /\ List.map fst s' ≡ₚ k :: List.map fst s.
Proof.
  intros Hs. induction Hs as [|[k' it'] s Hs IH Hall]; simpl; intros Hni.
  - eexists. split; [done|]. split; [|done]. repeat constructor.
  - destruct (key_compare k k') eqn:E.
    + apply key_compare_eq in E as ->. destruct Hni. by left.
    + eexists. split; [done|]. split; [|done].
      constructor; [by constructor|]. constructor; [done|].
      eapply Forall_impl; [exact Hall|].
      intros b Hb. by apply (key_compare_trans _ k').
    + destruct IH as (s' & -> & Hs' & Hp).
      { intros Hin. apply Hni. by right. }
      simpl. eexists. split; [done|]. split.
      * constructor; [done|]. apply Forall_forall. intros [k2 it2] Hin. simpl.
        assert (Hk2 : k2 ∈ List.map fst s').
        { apply list_elem_of_fmap. by exists (k2, it2). }
        rewrite Hp in Hk2. apply elem_of_cons in Hk2 as [->|Hk2].
        -- by apply key_compare_gt.
        -- apply list_elem_of_fmap in Hk2 as ([k3 it3] & -> & Hin3).
           rewrite Forall_forall in Hall. apply (Hall _ Hin3).
      * simpl. rewrite Hp. apply Permutation_swap.
Qed.

Lemma keys_of_cons it l :
  keys_of (it :: l) = k ← key_of (prop it "id"); ks ← keys_of l; Some (k :: ks).
Proof. reflexivity. Qed.

Lemma add_all_cons it l s :
  add_all (it :: l) s
  = k ← key_of (prop it "id"); s' ← store_add k it s; add_all l s'.
Proof. reflexivity. Qed.

Lemma key_ordered_NoDup s : key_ordered s -> NoDup (List.map fst s).
Proof.
  intros Hs. induction Hs as [|[k it] s Hs IH Hall]; simpl; [constructor|].
  apply NoDup_cons. split; [|done]. intros Hin.
  apply list_elem_of_fmap in Hin as ([k2 it2] & -> & Hin).
  rewrite Forall_forall in Hall. specialize (Hall _ Hin). simpl in Hall.
  by apply key_compare_irrefl in Hall.
Qed.

(** The [add]s of a transaction all go through when the keys are valid and
    differ from one another and from those of the store... *)
Lemma add_all_accepts l : forall s ks,
  key_ordered s -> keys_of l = Some ks -> NoDup (ks ++ List.map fst s) ->
  exists s', add_all l s = Some s' /\ key_ordered s'
             /\ List.map fst s' ≡ₚ ks ++ List.map fst s.
Proof.
  induction l as [|it l IH]; intros s ks Hs Hk Hnd.
  - injection Hk as <-. by exists s.
  - rewrite keys_of_cons in Hk. rewrite add_all_cons.
    destruct (key_of (prop it "id")) as [k|]; [|done]. simpl in *.
    destruct (keys_of l) as [ks'|]; [|done]. simpl in Hk. injection Hk as <-.
    simpl in Hnd. apply NoDup_cons in Hnd as [Hni Hnd].
    destruct (store_add_free k it s Hs) as (s1 & -> & Hs1 & Hp1).
    { intros Hin. apply Hni. apply elem_of_app. by right. }
    simpl. destruct (IH s1 ks' Hs1 eq_refl) as (s' & -> & Hs' & Hp).
    { rewrite Hp1. rewrite <- Permutation_middle. by apply NoDup_cons. }
    exists s'. split; [done|]. split; [done|].
    rewrite Hp, Hp1. simpl. by rewrite <- Permutation_middle.
Qed.

(** ... and only then. *)
Lemma add_all_rejects l : forall s s',
  key_ordered s -> add_all l s = Some s' ->
  exists ks, keys_of l = Some ks /\ NoDup (ks ++ List.map fst s).
Proof.
  induction l as [|it l IH]; intros s s' Hs Ha.
  - exists []. split; [done|]. by apply key_ordered_NoDup.
  - rewrite add_all_cons in Ha. rewrite keys_of_cons.
    destruct (key_of (prop it "id")) as [k|]; [|done]. simpl in *.
    destruct (store_add k it s) as [s1|] eqn:E1; [|done]. simpl in Ha.
    assert (Hni : k ∉ List.map fst s).
    { intros Hin. by rewrite (store_add_taken k it s Hs Hin) in E1. }
    destruct (store_add_free k it s Hs Hni) as (s1' & E1' & Hs1 & Hp1).
    rewrite E1 in E1'. injection E1' as <-.
    destruct (IH s1 s' Hs1 Ha) as (ks & -> & Hnd). simpl.
    exists (k :: ks). split; [done|].
    rewrite Hp1 in Hnd. by rewrite <- Permutation_middle in Hnd.
Qed.

Lemma add_all_storable l :
  storable l <-> exists s, add_all l [] = Some s.
Proof.
  split.
  - intros (ks & Hk & Hnd).
    destruct (add_all_accepts l [] ks) as (s & Hs & _); [constructor|done|..].
    + simpl. by rewrite app_nil_r.
    + by exists s.
  - intros (s & Hs).
    destruct (add_all_rejects l [] s) as (ks & Hk & Hnd); [constructor|done|].
    exists ks. split; [done|]. simpl in Hnd. by rewrite app_nil_r in Hnd.
Qed.

Lemma add_all_key_ordered l s :
  add_all l [] = Some s -> key_ordered s /\ List.map snd s ≡ₚ l.
Proof.
  intros E. split.
  - destruct (add_all_rejects l [] s) as (ks & Hk & Hnd); [constructor|done|].
    destruct (add_all_accepts l [] ks) as (s' & E' & Hs & _); [constructor|done|done|].
    congruence.
  - apply add_all_records in E. by rewrite app_nil_r in E.
Qed.

(** C1. With remote sync configured and a remote fetch that returns a
    non-empty collection, that collection becomes the collection of the
    component and [saveItemsToDB] is called on it, whatever the local store
    held.  When the database opens, the transaction does not fault and the
    ids of the remote items are valid keys with no key twice, the
    transaction commits and the local store is the mirror of the remote
    collection: it is what adding the remote items one by one to the
    cleared store gives, so its records are the remote items and nothing
    else, in the order of their keys. *)
Theorem remote_precedence (w : World) (cloudItems : list Item) :
  isUnlocked (app w) = true ->
  isFirebaseConfigured (config (env w)) = true ->
  result loadItemsFromCloud w = Ok cloudItems ->
  cloudItems <> [] ->
  let w' := after_run loadItems w in
  items (app w') = cloudItems
  /\ EvSaveItemsToDB cloudItems false ∈ events_of loadItems w
  /\ (next_fault IdbOpen w = false -> next_fault IdbWrite w = false ->
      storable cloudItems ->
      EvLocalCommit cloudItems ∈ events_of loadItems w
      /\ add_all cloudItems [] = Some (idb w')
      /\ List.map snd (idb w') ≡ₚ cloudItems
      /\ key_ordered (idb w')).
Proof.
  intros Hu Hc Hr Hne. apply nonempty_length in Hne.
  unfold loadItems, loadItemsFromCloud, checkFirebaseConfig, requestPersistentStorage,
    cloud_request, setCloudEnabled, setSyncStatus, db_ready, next_fault, faults in *.
  destruct (init_ok (env w)) eqn:Hi; destruct (hd false (cloud_faults w)) eqn:Hf;
  run; repeat (progress (rewrite ?Hu, ?Hc, ?Hi, ?Hf in *); simpl in *);
  injection Hr as Hr; try (by subst cloudItems).
  rewrite Hr, Hne. clear Hr.
  unfold saveItemsToDB, setItems, openDatabase, replace_transaction, showNotification,
    setNotification, getStorageEstimate, setStorageInfo, arm_load_timer, set_load_flags.
  run. rewrite Nat.eqb_sym. destruct (length cloudItems) eqn:El; [done|]. simpl.
  destruct (hd false (open_faults w)) eqn:Ho; simpl.
  { split; [done|]. split; [log_norm; in_log|]. done. }
  destruct (hd false (write_faults w)) eqn:Hw; simpl.
  { split; [done|]. split; [log_norm; in_log|]. done. }
  destruct (add_all cloudItems []) as [s|] eqn:Ea; simpl.
  - split; [done|]. split; [log_norm; in_log|]. intros _ _ _.
    split; [log_norm; in_log|]. split; [done|].
    destruct (add_all_key_ordered _ _ Ea) as [Hk Hp]. by split.
  - split; [done|]. split; [log_norm; in_log|]. intros _ _ Hs.
    apply add_all_storable in Hs as [s Hs]. congruence.
Qed.

(** The local store held the note [n1] only; after the start it holds the
    two remote notes and no longer [n1]. *)
Lemma remote_precedence_witness :
  let w := Scenario.remote_and_local_differ in
  let cloudItems := [ Scenario.note (VNum 1700000000002) "second";
                      Scenario.note (VNum 1700000000001) "first" ] in
  let w' := after_run loadItems w in
  List.map snd (idb w) = [ Scenario.note (VStr "n1") "keep me" ]
  /\ items (app w') = cloudItems
  /\ EvSaveItemsToDB cloudItems false ∈ events_of loadItems w
  /\ EvLocalCommit cloudItems ∈ events_of loadItems w
  /\ add_all cloudItems [] = Some (idb w')
  /\ List.map snd (idb w') ≡ₚ cloudItems
  /\ key_ordered (idb w').
Proof.
  split; [reflexivity|].
  destruct (remote_precedence Scenario.remote_and_local_differ
              [ Scenario.note (VNum 1700000000002) "second";
                Scenario.note (VNum 1700000000001) "first" ])
    as (H1 & H2 & H3); [reflexivity | reflexivity | reflexivity | discriminate |].
  split; [exact H1|]. split; [exact H2|].
  apply H3; [reflexivity | reflexivity |].
  exists [KNum 1700000000002; KNum 1700000000001]. split; [reflexivity|].
  apply NoDup_cons. split; [|apply NoDup_singleton].
  intros H. apply list_elem_of_singleton in H. discriminate H.
Defined.

(* ===================================================================== *)
(** ** Startup: the legacy import *)
(* ===================================================================== *)




Lemma loadItems_no_throw : no_throw loadItems.
Proof.
  unfold loadItems, arm_load_timer, set_load_flags, setSyncStatus, set_state. nothrow.
Qed.



Ltac not_in_log :=
  let H := fresh in
  intros H; repeat (apply elem_of_cons in H as [?|H]; [done|]); by apply elem_of_nil in H.



Example legacy_import_scenario :
  let w' := after_run loadItems Scenario.with_legacy_list in
  items (app w') = [Scenario.legacy_note]
  /\ List.map snd (idb w') = [Scenario.legacy_note]
  /\ legacy w' = None.
Proof. repeat split; reflexivity. Qed.


(* ===================================================================== *)
(** ** Sorting with a comparison function *)
(* ===================================================================== *)

Section SortFacts.
Context {A : Type} (cmp : A -> A -> option Z).

Lemma insert_sorted_perm x l : insert_sorted cmp x l ≡ₚ x :: l.
Proof.
  induction l as [|y l IH]; simpl; [done|].
  destruct (after cmp x y); [|done].
  rewrite IH. apply Permutation_swap.
Qed.

Lemma sort_perm l : sort cmp l ≡ₚ l.
Proof.
  induction l as [|x l IH]; simpl; [done|].
  unfold sort in *. simpl. by rewrite insert_sorted_perm, IH.
Qed.

(** A comparison that is [NaN] on every pair leaves the array as it is. *)
Lemma sort_all_nan l :
  (forall x y, x ∈ l -> y ∈ l -> cmp x y = None) -> sort cmp l = l.
Proof.
  induction l as [|x l IH]; intros H; [done|].
  unfold sort in *. simpl. rewrite IH.
  - destruct l as [|y l']; [done|]. simpl. unfold after.
    rewrite (H x y); [done | by left | right; by left].
  - intros a b Ha Hb. apply H; by right.
Qed.

(** A comparison that subtracts integer keys sorts by descending key. *)
Lemma insert_sorted_desc (key : A -> Z) x l :
  (forall a b, a ∈ x :: l -> b ∈ x :: l -> cmp a b = Some (key b - key a)) ->
  StronglySorted (fun a b => key b <= key a) l ->
  StronglySorted (fun a b => key b <= key a) (insert_sorted cmp x l).
Proof.
  intros Hc Hs. induction Hs as [|y l Hs IH Hy]; simpl.
  - repeat constructor.
  - unfold after. rewrite (Hc x y); [| by left | right; by left].
    destruct (0 <? key y - key x) eqn:E.
    + apply Z.ltb_lt in E. constructor.
      * apply IH. intros a b Ha Hb. apply Hc.
        -- apply elem_of_cons in Ha as [->|Ha]; [by left | right; by right].
        -- apply elem_of_cons in Hb as [->|Hb]; [by left | right; by right].
      * apply Forall_forall. intros z Hz.
        rewrite insert_sorted_perm in Hz.
        apply elem_of_cons in Hz as [->|Hz]; [lia|].
        rewrite Forall_forall in Hy. by apply Hy.
    + apply Z.ltb_ge in E. constructor; [by constructor|].
      constructor; [lia|]. eapply Forall_impl; [exact Hy|]. simpl. intros z Hz. lia.
Qed.

Lemma sort_desc (key : A -> Z) l :
  (forall a b, a ∈ l -> b ∈ l -> cmp a b = Some (key b - key a)) ->
  StronglySorted (fun a b => key b <= key a) (sort cmp l).
Proof.
  induction l as [|x l IH]; intros Hc; [constructor|].
  unfold sort in *. simpl. apply insert_sorted_desc.
  - intros a b Ha Hb. apply Hc.
    + apply elem_of_cons in Ha as [->|Ha]; [by left|]. right.
      by rewrite <- (sort_perm l).
    + apply elem_of_cons in Hb as [->|Hb]; [by left|]. right.
      by rewrite <- (sort_perm l).
  - apply IH. intros a b Ha Hb. apply Hc; by right.
Qed.

End SortFacts.

(* ===================================================================== *)
(** ** Reading the remote collection *)
(* ===================================================================== *)

Lemma loadItemsFromCloud_no_throw : no_throw loadItemsFromCloud.
Proof. unfold loadItemsFromCloud, emit. nothrow. Qed.

Lemma loadItemsFromCloud_unconfigured w :
  isFirebaseConfigured (config (env w)) = false ->
  result loadItemsFromCloud w = Ok [].
Proof.
  intros H. unfold loadItemsFromCloud, db_ready. run. by rewrite H.
Qed.

Lemma loadItemsFromCloud_fault w :
  next_fault Cloud w = true -> result loadItemsFromCloud w = Ok [].
Proof.
  unfold next_fault, faults. intros H. unfold loadItemsFromCloud, cloud_request. run.
  destruct (db_ready (env w)); simpl; [|done]. by rewrite H.
Qed.

Lemma loadItemsFromCloud_answer w :
  db_ready (env w) = true -> next_fault Cloud w = false ->
  result loadItemsFromCloud w = Ok (snapshot_items (docs w)).
Proof.
  unfold next_fault, faults. intros Hd H. unfold loadItemsFromCloud, cloud_request. run.
  rewrite Hd. simpl. by rewrite H.
Qed.

Lemma snapshot_items_perm ds : snapshot_items ds ≡ₚ List.map snd ds.
Proof. apply sort_perm. Qed.

(** With numeric identifiers the snapshot is in descending order of [id]. *)
Lemma snapshot_items_numeric ds :
  (forall it, it ∈ List.map snd ds -> exists n, prop it "id" = VNum n) ->
  StronglySorted
    (fun a b => default 0 (to_number (prop b "id")) <= default 0 (to_number (prop a "id")))
    (snapshot_items ds).
Proof.
  intros H. apply (sort_desc _ (fun it => default 0 (to_number (prop it "id")))).
  intros a b Ha Hb. destruct (H a Ha) as [x Hx], (H b Hb) as [y Hy].
  unfold by_id_desc, js_sub. by rewrite Hx, Hy.
Qed.

(** With identifiers that are not numerals, such as those that
    [generateId] makes, the snapshot keeps the order of the documents. *)
Lemma snapshot_items_not_numeric ds :
  (forall it, it ∈ List.map snd ds -> to_number (prop it "id") = None) ->
  snapshot_items ds = List.map snd ds.
Proof.
  intros H. apply sort_all_nan. intros a b Ha Hb.
  unfold by_id_desc, js_sub. by rewrite (H b Hb).
Qed.

(** C9, on identifiers as [generateId] makes them.  After two notes were
    added, the remote read returns the older note first: [b.id - a.id] is
    [NaN] on these identifiers and the sort moves nothing, so the result is
    in ascending, not descending, order of [id] (the component itself holds
    the newer note first). *)
Theorem cloud_read_keeps_document_order :
  let w := Scenario.two_notes_synced in
  let older := Scenario.first_doc in
  let newer := Scenario.second_doc in
  result loadItemsFromCloud w = Ok [older; newer]
  /\ by_id_desc older newer = None
  /\ (exists a b, prop older "id" = VStr a /\ prop newer "id" = VStr b
                  /\ String.ltb a b = true)
  /\ List.map (fun it => prop it "content") (items (app w))
     = [VStr "second"; VStr "first"].
Proof.
  split; [reflexivity|]. split; [reflexivity|]. split; [|reflexivity].
  eexists _, _. split; [reflexivity|]. split; reflexivity.
Qed.

(* ===================================================================== *)
(** ** Promoting an inline payload *)
(* ===================================================================== *)

Lemma hd_iter_tl {A} (d : A) k l : hd d (Nat.iter k (@tl A) l) = nth k l d.
Proof.
  revert l. induction k as [|k IH]; intros l; [by destruct l|].
  rewrite Nat.iter_succ_r. destruct l as [|x l]; simpl.
  - rewrite IH. by destruct k.
  - apply IH.
Qed.

Lemma fault_free_nth op w k :
  fault_free op w -> hd false (Nat.iter k (@tl bool) (faults w op)) = false.
Proof. intros H. rewrite hd_iter_tl. apply H. Qed.

(** What [saveItemToCloud] does with a file whose payload is inline, when
    the remote store is there and answers: the payload goes to the blob
    store under [files/<id>_<name>], the record gets the download URL for
    [data], [isCloudStored] and [updatedAt], is written and returned. *)
Lemma saveItemToCloud_inline_file (w : World) (item : Item) (payload docId : string) :
  db_ready (env w) = true ->
  fault_free Cloud w ->
  prop item "type" = VStr "file" ->
  prop item "data" = VStr payload ->
  startsWith payload "data:" = true ->
  method_toString (prop item "id") = Some docId ->
  let path := storage_path item in
  let record :=
    <["updatedAt" := VNum (clock (env w) (clock_reads w))]>
      (<["isCloudStored" := VBool true]>
         (<["data" := VStr (download_url (env w) path)]> item)) in
  let w' := after_run (saveItemToCloud item) w in
  result (saveItemToCloud item) w = Ok (Some record)
  /\ blobs w' = <[path := payload]> (blobs w)
  /\ docs w' = doc_set docId record (docs w).
Proof.
  intros Hd Hf Ht Hp Hs Hi path record w'. subst w' record path.
  pose proof (fault_free_nth _ _ 0 Hf) as H0.
  pose proof (fault_free_nth _ _ 1 Hf) as H1.
  pose proof (fault_free_nth _ _ 2 Hf) as H2.
  pose proof (fault_free_nth _ _ 3 Hf) as H3.
  assert (Htr : truthy (VStr payload) = true).
  { destruct payload; [done|]. done. }
  unfold saveItemToCloud, is_inline_file, uploadBytes, getDownloadURL, setDoc,
    cloud_request, Date_now, faults in *.
  run. rewrite Hd, Hi, Ht, Hp. simpl. rewrite Htr. simpl.
  rewrite Hs. simpl. rewrite H0. simpl. rewrite H1. simpl. rewrite H2. simpl.
  rewrite H3. simpl. done.
Qed.

(** [handleFileUpload] takes the returned record as the item. *)
Example upload_uses_returned_record :
  let w := with_app (Scenario.loaded true []) (Scenario.fresh Scenario.configured) in
  let w' := after_run (handleFileUpload [Scenario.small_file]) w in
  List.map (fun it => (prop it "isCloudStored", prop it "data")) (items (app w'))
  = [ (VBool true,
       VStr ("https://firebasestorage.googleapis.com/v0/b/vault/o/files/"
             +:+ "3f2b8c1e-0d4a-4e6f-9a7b-000000000000_a.txt")) ].
Proof. reflexivity. Qed.

(** C4, at the start-up upload.  Remote sync is configured and empty, the
    local store holds one file with an inline payload.  [saveItemToCloud]
    returns the promoted record and writes it, but [loadItems] drops what
    it returns: the collection (and the local store) keep the item with
    the inline payload and without [isCloudStored]. *)
Theorem startup_upload_keeps_inline_copy :
  let w := Scenario.local_inline_file in
  let w' := after_run loadItems w in
  let local := Scenario.inline_file (VStr "f1") in
  let url := "https://firebasestorage.googleapis.com/v0/b/vault/o/files/f1_a.txt" in
  let remote :=
    <["updatedAt" := VNum 1700000000000]>
      (<["isCloudStored" := VBool true]> (<["data" := VStr url]> local)) in
  result (saveItemToCloud local) w = Ok (Some remote)
  /\ docs w' = [("f1", remote)]
  /\ blobs w' !! "files/f1_a.txt" = Some "data:text/plain;base64,aGk="
  /\ items (app w') = [local]
  /\ List.map snd (idb w') = [local]
  /\ prop local "isCloudStored" = VUndefined.
Proof. repeat split; reflexivity. Qed.

(* ===================================================================== *)
(** ** The ceiling on the number of items *)
(* ===================================================================== *)

(** C6, on a selection of two files.  [validateFile] compares the ceiling
    with the collection that the handler closed over, not with the one the
    loop is building: with 499 items both files pass, and the collection
    (and the local store) end with 501. *)
Theorem multi_file_upload_exceeds_maximum :
  let w := Scenario.holding 499 in
  let w' := after_run (handleFileUpload [Scenario.small_file; Scenario.small_file]) w in
  length (items (app w)) = 499%nat
  /\ length (items (app w')) = 501%nat
  /\ (MAX_ITEMS <? length (items (app w')))%nat = true
  /\ length (idb w') = 501%nat.
Proof.
  intros w w'. split; [vm_compute; reflexivity|]. split; [vm_compute; reflexivity|].
  split; vm_compute; reflexivity.
Qed.

(* ===================================================================== *)
(** ** Admission of files and notes *)
(* ===================================================================== *)

Lemma validateFile_result held file w :
  result (validateFile held file) w = Ok (file_acceptable held file).
Proof.
  unfold validateFile, file_acceptable, showNotification, setNotification. run.
  rewrite Z.leb_antisym.
  destruct (MAX_FILE_SIZE <? f_size file); simpl; [done|].
  destruct (String.eqb (f_type file) EmptyString); simpl.
  - rewrite Nat.ltb_antisym. by destruct (MAX_ITEMS <=? length held)%nat.
  - destruct (includes ALLOWED_FILE_TYPES (f_type file)); simpl; [|done].
    rewrite Nat.ltb_antisym. by destruct (MAX_ITEMS <=? length held)%nat.
Qed.

Lemma validateFile_rejects held file w :
  file_acceptable held file = false ->
  exists message,
    events_of (validateFile held file) w = [EvNotify message "error"]
    /\ idb (after_run (validateFile held file) w) = idb w
    /\ docs (after_run (validateFile held file) w) = docs w
    /\ blobs (after_run (validateFile held file) w) = blobs w
    /\ items (app (after_run (validateFile held file) w)) = items (app w).
Proof.
  unfold validateFile, file_acceptable, showNotification, setNotification. run.
  rewrite Z.leb_antisym, Nat.ltb_antisym.
  destruct (MAX_FILE_SIZE <? f_size file); simpl.
  { intros _. eexists. by rewrite drop_app_length. }
  destruct (String.eqb (f_type file) EmptyString); simpl.
  - destruct (MAX_ITEMS <=? length held)%nat; simpl; [|done].
    intros _. eexists. by rewrite drop_app_length.
  - destruct (includes ALLOWED_FILE_TYPES (f_type file)); simpl.
    + destruct (MAX_ITEMS <=? length held)%nat; simpl; [|done].
      intros _. eexists. by rewrite drop_app_length.
    + intros _. eexists. by rewrite drop_app_length.
Qed.

Lemma saveItemToCloud_keeps item w it' :
  result (saveItemToCloud item) w = Ok (Some it') ->
  forall k, k <> "data" -> k <> "isCloudStored" -> k <> "updatedAt" ->
    it' !! k = item !! k.
Proof.
  unfold saveItemToCloud, is_inline_file, uploadBytes, getDownloadURL, setDoc,
    cloud_request, Date_now. run.
  destruct (db_ready (env w)); simpl; [|done].
  destruct (method_toString (prop item "id")); simpl; [|done].
  destruct (strict_eq (prop item "type") (VStr "file") && truthy (prop item "data")); simpl.
  - destruct (prop item "data"); simpl; try done.
    destruct (startsWith s0 "data:"); simpl.
    + repeat (match goal with |- context [hd false ?l] => destruct (hd false l); simpl; [done|] end).
      intros [= <-] k H1 H2 H3. by rewrite !lookup_insert_ne.
    + destruct (hd false (cloud_faults w)); simpl; [done|].
      intros [= <-] k H1 H2 H3. by rewrite !lookup_insert_ne.
  - destruct (hd false (cloud_faults w)); simpl; [done|].
    intros [= <-] k H1 H2 H3. by rewrite !lookup_insert_ne.
Qed.

Lemma file_acceptable_carries held file it :
  file_acceptable held file = true ->
  prop it "size" = VNum (f_size file) ->
  prop it "fileType"
  = VStr (if String.eqb (f_type file) EmptyString
          then "application/octet-stream" else f_type file) ->
  accepted_as file it.
Proof.
  unfold file_acceptable, accepted_as. intros Ha Hs Ht.
  apply andb_true_iff in Ha as [Ha _]. apply andb_true_iff in Ha as [Hsz Hty].
  apply Z.leb_le in Hsz. split; [done|]. split; [done|].
  destruct (String.eqb (f_type file) EmptyString) eqn:E.
  - left. by apply String.eqb_eq in E.
  - right. done.
Qed.

Lemma upload_one_spec held cloud file cur w :
  exists cur',
    result (upload_one held cloud file cur) w = Ok cur'
    /\ (cur' = cur
        \/ (file_acceptable held file = true
            /\ exists it, cur' = it :: cur /\ accepted_as file it)).
Proof.
  unfold upload_one, result.
  pose proof (validateFile_result held file w) as Hr. unfold result in Hr.
  destruct (validateFile held file w) as [r w1] eqn:Ev. simpl in Hr. subst r.
  rewrite (bind_ok _ _ _ _ _ Ev).
  destruct (file_acceptable held file) eqn:Ha; simpl; [|by eexists; split; [|left]].
  unfold readAsDataURL, generateId, now_iso, showNotification, setNotification.
  destruct (f_read file) as [data|]; run; [|by eexists; split; [|left]].
  set (newItem := file_item _ file data _).
  assert (Hnew : accepted_as file newItem).
  { subst newItem.
    apply (file_acceptable_carries held); [done|reflexivity|reflexivity]. }
  destruct cloud; simpl; [|by eexists; split; [|right; eauto]].
  match goal with |- context [saveItemToCloud newItem ?w'] =>
    pose proof (saveItemToCloud_keeps newItem w') as Hk;
    unfold result in Hk; destruct (saveItemToCloud newItem w') as [[[it'|]|e] w2]
  end; simpl in *.
  - eexists. split; [done|]. right. split; [done|]. eexists. split; [done|].
    apply (file_acceptable_carries held); [done|..]; unfold prop.
    + by rewrite (Hk it' eq_refl).
    + by rewrite (Hk it' eq_refl).
  - eexists. split; [done|]. right. eauto.
  - eexists. split; [done|]. right. eauto.
Qed.

Lemma upload_loop_spec held cloud files cur w :
  exists added,
    result (upload_loop held cloud files cur) w = Ok (added ++ cur)
    /\ Forall (fun it => exists file, file ∈ files /\ file_acceptable held file = true
                                     /\ accepted_as file it) added.
Proof.
  revert cur w. induction files as [|file files IH]; intros cur w; simpl.
  - exists []. split; [done|constructor].
  - destruct (upload_one_spec held cloud file cur w) as (cur' & Hr & Hc).
    unfold result in *. destruct (upload_one held cloud file cur w) as [r w1] eqn:E.
    simpl in Hr. subst r. rewrite (bind_ok _ _ _ _ _ E).
    destruct (IH cur' w1) as (added & Hr' & Hf). rewrite Hr'.
    assert (Hf' : Forall (fun it => exists f, f ∈ file :: files
              /\ file_acceptable held f = true /\ accepted_as f it) added).
    { eapply Forall_impl; [exact Hf|]. simpl. intros it (f & Hin & Ha & Hb).
      exists f. split; [by right|done]. }
    destruct Hc as [->|(Ha & it & -> & Hit)].
    + exists added. by split.
    + exists (added ++ [it]). split; [by rewrite <- app_assoc|].
      apply Forall_app. split; [done|]. constructor; [|constructor].
      exists file. split; [by left|done].
Qed.

Lemma after_bind_result {A B} (m : M A) (k : A -> M B) w a :
  result m w = Ok a -> after_run (m ≫= k) w = after_run (k a) (after_run m w).
Proof.
  unfold result, after_run, mbind, M_bind.
  destruct (m w) as [[x|e] w1]; simpl; [by intros [= ->]|done].
Qed.

Lemma handleFileUpload_items files w :
  exists added,
    items (app (after_run (handleFileUpload files) w)) = added ++ items (app w)
    /\ Forall (fun it => exists file, file ∈ files
                 /\ file_acceptable (items (app w)) file = true
                 /\ accepted_as file it) added.
Proof.
  unfold handleFileUpload. destruct files as [|file files].
  { exists []. split; [done|constructor]. }
  rewrite !after_gets_bind.
  set (held := items (app w)). set (cloud := cloudEnabled (app w)).
  set (files' := file :: files). clearbody files'.
  rewrite (after_bind_result (setIsSaving true) _ _ tt) by reflexivity.
  rewrite (after_bind_result (setSyncStatus Syncing) _ _ tt) by reflexivity.
  set (w2 := after_run (setSyncStatus Syncing) _).
  destruct (upload_loop_spec held cloud files' held w2) as (added & Hr & Hf).
  rewrite (after_bind_result _ _ _ _ Hr).
  exists added. split; [|done].
  apply items_after_setItems. intros _.
  unfold setIsSaving, setSyncStatus, set_state. frame.
Qed.

Lemma upload_one_rejected held cloud file cur w :
  file_acceptable held file = false ->
  let w' := after_run (upload_one held cloud file cur) w in
  result (upload_one held cloud file cur) w = Ok cur
  /\ (exists message, events_of (upload_one held cloud file cur) w = [EvNotify message "error"])
  /\ idb w' = idb w /\ docs w' = docs w /\ blobs w' = blobs w.
Proof.
  intros Ha w'. subst w'.
  pose proof (validateFile_result held file w) as Hr. rewrite Ha in Hr.
  destruct (validateFile_rejects held file w Ha) as (msg & He & Hi & Hd & Hb & _).
  unfold upload_one, events_of in *.
  rewrite (after_bind_result _ _ _ _ Hr). simpl.
  unfold result in *. unfold mbind, M_bind.
  destruct (validateFile held file w) as [r w1]. simpl in *. subst r. simpl.
  split; [done|]. split; [by exists msg|done].
Qed.

Lemma handleAddNote_rejected w :
  note_acceptable w = false ->
  let w' := after_run handleAddNote w in
  (exists message, events_of handleAddNote w = [EvNotify message "error"])
  /\ items (app w') = items (app w)
  /\ idb w' = idb w /\ docs w' = docs w /\ blobs w' = blobs w.
Proof.
  unfold note_acceptable, handleAddNote, showNotification, setNotification. run.
  rewrite (Nat.leb_antisym MAX_NOTE_LENGTH), (Nat.ltb_antisym MAX_ITEMS).
  destruct (String.eqb (trim (noteText (app w))) EmptyString); simpl.
  { intros _. split; [|done]. eexists. by rewrite drop_app_length. }
  destruct (MAX_NOTE_LENGTH <? String.length (trim (noteText (app w))))%nat; simpl.
  { intros _. split; [|done]. eexists. by rewrite drop_app_length. }
  destruct (MAX_ITEMS <=? length (items (app w)))%nat; simpl; [|done].
  intros _. split; [|done]. eexists. by rewrite drop_app_length.
Qed.

Lemma handleAddNote_accepted w :
  note_acceptable w = true ->
  exists it,
    items (app (after_run handleAddNote w)) = it :: items (app w)
    /\ prop it "type" = VStr "note"
    /\ prop it "content" = VStr (trim (noteText (app w)))
    /\ (String.length (trim (noteText (app w))) <= MAX_NOTE_LENGTH)%nat.
Proof.
  unfold note_acceptable. intros Ha.
  apply andb_true_iff in Ha as [Ha Hc]. apply andb_true_iff in Ha as [He Hl].
  apply negb_true_iff in He. apply Nat.leb_le in Hl as Hl'.
  rewrite Nat.leb_antisym in Hl. apply negb_true_iff in Hl.
  rewrite Nat.ltb_antisym in Hc. apply negb_true_iff in Hc.
  unfold handleAddNote. rewrite !after_gets_bind. rewrite He, Hl, Hc.
  rewrite (after_bind_result generateId _ _ _ eq_refl).
  rewrite (after_bind_result now_iso _ _ _ eq_refl).
  eexists. split; [|split; [|split; [|exact Hl']]].
  - apply (items_after_bind _ _ (fun l => l = _)); [nothrow|]. intros _ w1.
    apply items_after_setItems. intros _. unfold setNoteText, set_state. frame.
  - reflexivity.
  - reflexivity.
Qed.

Lemma handleFileUpload_rejected file w :
  file_acceptable (items (app w)) file = false ->
  let w' := after_run (handleFileUpload [file]) w in
  items (app w') = items (app w) /\ docs w' = docs w /\ blobs w' = blobs w.
Proof.
  intros Ha w'. subst w'. split.
  { destruct (handleFileUpload_items [file] w) as (added & -> & Hf).
    destruct added as [|it added]; [done|].
    apply Forall_cons in Hf as [(f & Hin & Hf & _) _].
    apply list_elem_of_singleton in Hin as ->. congruence. }
  unfold handleFileUpload. rewrite !after_gets_bind.
  rewrite (after_bind_result (setIsSaving true) _ _ tt) by reflexivity.
  rewrite (after_bind_result (setSyncStatus Syncing) _ _ tt) by reflexivity.
  set (w2 := after_run (setSyncStatus Syncing) _).
  destruct (upload_one_rejected (items (app w)) (cloudEnabled (app w)) file
              (items (app w)) w2 Ha) as (Hr & _ & _ & Hd & Hb).
  assert (Hloop : result (upload_loop (items (app w)) (cloudEnabled (app w)) [file]
                            (items (app w))) w2 = Ok (items (app w))
                  /\ after_run (upload_loop (items (app w)) (cloudEnabled (app w)) [file]
                                  (items (app w))) w2
                     = after_run (upload_one (items (app w)) (cloudEnabled (app w)) file
                                    (items (app w))) w2).
  { simpl. unfold result, after_run, mbind, M_bind in *.
    destruct (upload_one _ _ _ _ w2) as [r w3]. simpl in Hr. by subst r. }
  destruct Hloop as [Hres Haft].
  rewrite (after_bind_result _ _ _ _ Hres), Haft.
  set (rest := (setItems _ ≫= _)).
  assert (Hdocs : preserves docs rest /\ preserves blobs rest).
  { subst rest. unfold setItems, saveItems, saveItemsToDB, openDatabase, existing_count,
      replace_transaction, showNotification, setNotification, getStorageEstimate,
      setStorageInfo, setIsSaving, setSyncStatus, set_state, emit.
    split; frame; intros ?; by destruct op. }
  destruct Hdocs as [Hpd Hpb]. by rewrite (Hpd _), (Hpb _), Hd, Hb.
Qed.

(* ===================================================================== *)
(** ** The order of the steps of a mutation *)
(* ===================================================================== *)

Lemma nondecreasing_app x y mid :
  nondecreasing x = true -> nondecreasing y = true ->
  Forall (fun n => n <= mid)%nat x -> Forall (fun n => mid <= n)%nat y ->
  nondecreasing (x ++ y) = true.
Proof.
  intros Hx Hy Fx Fy. induction x as [|a x IH]; [done|].
  apply Forall_cons in Fx as [Ha Fx].
  destruct x as [|b x].
  - simpl. destruct y as [|c y]; [done|]. apply Forall_cons in Fy as [Hc _].
    simpl in *. rewrite Hy. rewrite andb_true_r. apply Nat.leb_le. lia.
  - simpl in Hx. apply andb_true_iff in Hx as [Hab Hx].
    change ((a :: b :: x) ++ y) with (a :: (b :: x) ++ y). simpl.
    rewrite Hab. simpl. by apply IH.
Qed.

Lemma phase_nil lo hi : phase lo hi [].
Proof. split; [done|constructor]. Qed.

Lemma phase_app a b c x y :
  phase a b x -> phase b c y -> (a <= b <= c)%nat -> phase a c (x ++ y).
Proof.
  intros [Ox Fx] [Oy Fy] Habc. unfold phase, in_order, steps in *.
  rewrite omap_app, map_app. split.
  - apply (nondecreasing_app _ _ b); [done|done|..].
    + eapply Forall_impl; [exact Fx|]. simpl. lia.
    + eapply Forall_impl; [exact Fy|]. simpl. lia.
  - apply Forall_app. split.
    + eapply Forall_impl; [exact Fx|]. simpl. lia.
    + eapply Forall_impl; [exact Fy|]. simpl. lia.
Qed.

Lemma phase_weaken a b a' b' x :
  phase a b x -> (a' <= a)%nat -> (b <= b')%nat -> phase a' b' x.
Proof.
  intros [Ox Fx] ? ?. split; [done|]. eapply Forall_impl; [exact Fx|]. simpl. lia.
Qed.

Lemma phase_one n e :
  (match step_of e with Some s => code_rank s = n | None => True end) -> phase n n [e].
Proof.
  intros H. unfold phase, in_order, steps. simpl.
  destruct (step_of e) as [s|]; simpl; [|split; [done|constructor]].
  split; [done|]. constructor; [lia|constructor].
Qed.

Section Emits.
Context (n : nat).

Lemma emits_ret {A} (a : A) lo hi : emits (phase lo hi) (mret a).
Proof. intros w. exists []. split; [by rewrite app_nil_r|apply phase_nil]. Qed.

Lemma emits_throw {A} e lo hi : emits (phase lo hi) (@throw A e).
Proof. intros w. exists []. split; [by rewrite app_nil_r|apply phase_nil]. Qed.

Lemma emits_gets {A} (g : World -> A) lo hi : emits (phase lo hi) (gets g).
Proof. intros w. exists []. split; [by rewrite app_nil_r|apply phase_nil]. Qed.

Lemma emits_quiet {A} (m : M A) lo hi : preserves log m -> emits (phase lo hi) m.
Proof.
  intros H w. exists []. split; [by rewrite app_nil_r, (H w)|apply phase_nil].
Qed.

Lemma emits_emit e :
  (match step_of e with Some s => code_rank s = n | None => True end) ->
  emits (phase n n) (emit e).
Proof. intros H w. exists [e]. split; [done|by apply phase_one]. Qed.

Lemma emits_weaken {A} (m : M A) a b a' b' :
  emits (phase a b) m -> (a' <= a)%nat -> (b <= b')%nat -> emits (phase a' b') m.
Proof.
  intros H ? ? w. destruct (H w) as (new & Hl & Hp). exists new. split; [done|].
  by apply (phase_weaken a b).
Qed.

(** A computation in the places [a..b] followed by one in [b..c]. *)
Lemma emits_bind {A B} (m : M A) (k : A -> M B) a b c :
  emits (phase a b) m -> (forall x, emits (phase b c) (k x)) -> (a <= b <= c)%nat ->
  emits (phase a c) (m ≫= k).
Proof.
  intros Hm Hk Habc w. destruct (Hm w) as (new & Hl & Hp).
  unfold after_run, mbind, M_bind in *. destruct (m w) as [[x|e] w1]; simpl in *.
  - destruct (Hk x w1) as (new2 & Hl2 & Hp2). unfold after_run in Hl2.
    exists (new ++ new2). split; [by rewrite Hl2, Hl, app_assoc|].
    by apply (phase_app a b c).
  - exists new. split; [done|]. apply (phase_weaken a b); [done|lia..].
Qed.

Lemma emits_try_catch {A} (m : M A) (h : string -> M A) a b c :
  emits (phase a b) m -> (forall e, emits (phase b c) (h e)) -> (a <= b <= c)%nat ->
  emits (phase a c) (try_catch m h).
Proof.
  intros Hm Hk Habc w. destruct (Hm w) as (new & Hl & Hp).
  unfold after_run, try_catch in *. destruct (m w) as [[x|e] w1]; simpl in *.
  - exists new. split; [done|]. apply (phase_weaken a b); [done|lia..].
  - destruct (Hk e w1) as (new2 & Hl2 & Hp2). unfold after_run in Hl2.
    exists (new ++ new2). split; [by rewrite Hl2, Hl, app_assoc|].
    by apply (phase_app a b c).
Qed.

Lemma emits_try_finally {A} (m : M A) (fin : M unit) a b c :
  emits (phase a b) m -> emits (phase b c) fin -> (a <= b <= c)%nat ->
  emits (phase a c) (try_finally m fin).
Proof.
  intros Hm Hf Habc w. destruct (Hm w) as (new & Hl & Hp).
  unfold after_run, try_finally in *. destruct (m w) as [r w1]; simpl in *.
  destruct (Hf w1) as (new2 & Hl2 & Hp2). unfold after_run in Hl2.
  exists (new ++ new2).
  split; [|by apply (phase_app a b c)].
  destruct (fin w1) as [[u|e] w2]; simpl in *; by rewrite Hl2, Hl, app_assoc.
Qed.

Lemma emits_for_each {A} (l : list A) (body : A -> M unit) :
  (forall x, emits (phase n n) (body x)) -> emits (phase n n) (for_each l body).
Proof.
  intros Hb. induction l as [|x l IH]; simpl; [apply emits_ret|].
  apply (emits_bind _ _ n n n); [apply Hb|by intros _|lia].
Qed.

End Emits.

(** Decomposes [emits (phase n n) m] for a computation that stays in one
    place. *)
Create HintDb emits.

Ltac emits_step :=
  first
    [ solve [auto with emits nocore]
    | apply emits_ret
    | apply emits_throw
    | apply emits_gets
    | apply emits_emit; exact I
    | apply emits_emit; reflexivity
    | apply emits_for_each; intros ?
    | match goal with
      | |- emits (phase ?n ?n) (_ ≫= _) => apply (emits_bind _ _ n n n); [| intros ? | lia]
      | |- emits (phase ?n ?n) (try_catch _ _) =>
          apply (emits_try_catch _ _ n n n); [| intros ? | lia]
      | |- emits (phase ?n ?n) (try_finally _ _) =>
          apply (emits_try_finally _ _ n n n); [| | lia]
      | |- emits _ (if ?b then _ else _) => destruct b
      | |- emits _ (match ?x with _ => _ end) => destruct x
      end
    | (apply emits_quiet; by intros ?) ].

Ltac emits_block := repeat emits_step.

Lemma request_emits op n : emits (phase n n) (request op).
Proof. apply emits_quiet. intros w. by destruct op. Qed.
#[global] Hint Resolve request_emits : emits.

Lemma saveItemToCloud_emits item : emits (phase 1 1) (saveItemToCloud item).
Proof.
  unfold saveItemToCloud, is_inline_file, uploadBytes, getDownloadURL, setDoc,
    cloud_request, Date_now.
  emits_block.
Qed.

Lemma deleteItemFromCloud_emits item : emits (phase 1 1) (deleteItemFromCloud item).
Proof.
  unfold deleteItemFromCloud, cloud_request. emits_block.
Qed.

Lemma showNotification_emits message type n : emits (phase n n) (showNotification message type).
Proof. unfold showNotification, setNotification, set_state. emits_block. Qed.
#[global] Hint Resolve saveItemToCloud_emits deleteItemFromCloud_emits showNotification_emits : emits.

Lemma saveItemsToDB_emits l force : emits (phase 3 3) (saveItemsToDB l force).
Proof.
  unfold saveItemsToDB, openDatabase, existing_count, replace_transaction. emits_block.
Qed.
#[global] Hint Resolve saveItemsToDB_emits : emits.

Lemma saveItems_emits l : emits (phase 3 3) (saveItems l).
Proof.
  unfold saveItems, getStorageEstimate, setStorageInfo, setSyncStatus, setIsSaving, set_state.
  emits_block.
Qed.
#[global] Hint Resolve saveItems_emits : emits.

Lemma setItems_emits l : emits (phase 2 2) (setItems l).
Proof.
  unfold setItems, set_state. apply (emits_bind _ _ 2 2 2); [|intros _|lia].
  - by apply emits_emit.
  - apply emits_quiet. by intros ?.
Qed.

Lemma events_of_emits {A} (m : M A) P w : emits P m -> P (events_of m w).
Proof.
  intros H. destruct (H w) as (new & Hl & Hp). unfold events_of.
  by rewrite Hl, drop_app_length.
Qed.

(** [m] in the places [a..b], then what follows in [b..c]. *)
Ltac emits_then b := apply (emits_bind _ _ _ b _); [| intros ? | lia].
Ltac emits_within a b := apply (emits_weaken _ a b); [| lia | lia].

Lemma validateFile_emits held file n : emits (phase n n) (validateFile held file).
Proof. unfold validateFile. emits_block. Qed.
#[global] Hint Resolve validateFile_emits : emits.

Lemma upload_one_emits held cloud file cur :
  emits (phase 1 1) (upload_one held cloud file cur).
Proof.
  unfold upload_one, readAsDataURL, generateId, now_iso. emits_block.
Qed.

Lemma upload_loop_emits held cloud files cur :
  emits (phase 1 1) (upload_loop held cloud files cur).
Proof.
  revert cur. induction files as [|file files IH]; intros cur; simpl.
  - apply emits_ret.
  - emits_then 1%nat; [apply upload_one_emits|apply IH].
Qed.

Lemma handleFileUpload_emits files : emits (phase 1 3) (handleFileUpload files).
Proof.
  unfold handleFileUpload. destruct files as [|file files]; [apply emits_ret|].
  emits_then 1%nat; [apply emits_gets|].
  emits_then 1%nat; [apply emits_gets|].
  emits_then 1%nat; [unfold setIsSaving, set_state; emits_block|].
  emits_then 1%nat; [unfold setSyncStatus, set_state; emits_block|].
  emits_then 1%nat; [apply upload_loop_emits|].
  emits_then 2%nat; [emits_within 2%nat 2%nat; apply setItems_emits|].
  emits_within 3%nat 3%nat.
  unfold setIsSaving, setSyncStatus, set_state. emits_block.
Qed.

Lemma handleAddNote_emits : emits (phase 1 3) handleAddNote.
Proof.
  unfold handleAddNote.
  emits_then 1%nat; [apply emits_gets|].
  emits_then 1%nat; [apply emits_gets|].
  emits_then 1%nat; [apply emits_gets|].
  destruct (String.eqb _ _); [emits_within 1%nat 1%nat; emits_block|].
  destruct (_ <? _)%nat; [emits_within 1%nat 1%nat; emits_block|].
  destruct (_ <=? _)%nat; [emits_within 1%nat 1%nat; emits_block|].
  emits_then 1%nat; [unfold generateId; emits_block|].
  emits_then 1%nat; [unfold now_iso; emits_block|].
  emits_then 1%nat; [emits_block|].
  emits_then 2%nat; [emits_within 2%nat 2%nat; apply setItems_emits|].
  emits_within 3%nat 3%nat. unfold setNoteText, set_state. emits_block.
Qed.

Lemma toggleImportant_emits id : emits (phase 1 3) (toggleImportant id).
Proof.
  unfold toggleImportant.
  emits_then 1%nat; [apply emits_gets|].
  emits_then 1%nat; [apply emits_gets|].
  emits_then 1%nat; [emits_block|].
  emits_then 2%nat; [emits_within 2%nat 2%nat; apply setItems_emits|].
  emits_within 3%nat 3%nat. emits_block.
Qed.

Lemma deleteItem_emits id confirmed : emits (phase 1 3) (deleteItem id confirmed).
Proof.
  unfold deleteItem. destruct confirmed; [|apply emits_ret].
  emits_then 1%nat; [apply emits_gets|].
  emits_then 1%nat; [apply emits_gets|].
  emits_then 1%nat; [emits_block|].
  emits_then 2%nat; [emits_within 2%nat 2%nat; apply setItems_emits|].
  emits_within 3%nat 3%nat. emits_block.
Qed.


Lemma emits_extends {A} (m : M A) P : emits P m -> extends m.
Proof. intros H w. destruct (H w) as (new & Hl & _). by exists new. Qed.

Lemma mentions_emit e : mentions e (emit e).
Proof. intros w. exists [e]. split; [done|]. by left. Qed.

(** What a computation logged stays logged, whatever follows. *)
Lemma mentions_bind_l {A B} e (m : M A) (k : A -> M B) :
  mentions e m -> (forall a, extends (k a)) -> mentions e (m ≫= k).
Proof.
  intros Hm Hk w. destruct (Hm w) as (new & Hl & Hin).
  unfold after_run, mbind, M_bind in *. destruct (m w) as [[a|x] w1]; simpl in *.
  - destruct (Hk a w1) as (new2 & Hl2 & _). unfold after_run in Hl2.
    exists (new ++ new2). split; [by rewrite Hl2, Hl, app_assoc|].
    apply elem_of_app. by left.
  - by exists new.
Qed.

(** What follows a computation that cannot throw does run. *)
Lemma mentions_bind_r {A B} e (m : M A) (k : A -> M B) :
  extends m -> no_throw m -> (forall a, mentions e (k a)) -> mentions e (m ≫= k).
Proof.
  intros Hm Hn Hk w. destruct (Hm w) as (new & Hl & _). destruct (Hn w) as [a Ha].
  unfold after_run, result, mbind, M_bind in *.
  destruct (m w) as [r w1]; simpl in *. subst r.
  destruct (Hk a w1) as (new2 & Hl2 & Hin). unfold after_run in Hl2.
  exists (new ++ new2). split; [by rewrite Hl2, Hl, app_assoc|].
  apply elem_of_app. by right.
Qed.

Lemma mentions_try_catch {A} e (m : M A) (h : string -> M A) :
  mentions e m -> (forall x, extends (h x)) -> mentions e (try_catch m h).
Proof.
  intros Hm Hh w. destruct (Hm w) as (new & Hl & Hin).
  unfold after_run, try_catch in *. destruct (m w) as [[a|x] w1]; simpl in *.
  - by exists new.
  - destruct (Hh x w1) as (new2 & Hl2 & _). unfold after_run in Hl2.
    exists (new ++ new2). split; [by rewrite Hl2, Hl, app_assoc|].
    apply elem_of_app. by left.
Qed.

Lemma mentions_try_finally {A} e (m : M A) (fin : M unit) :
  mentions e m -> extends fin -> mentions e (try_finally m fin).
Proof.
  intros Hm Hf w. destruct (Hm w) as (new & Hl & Hin).
  unfold after_run, try_finally in *. destruct (m w) as [r w1]; simpl in *.
  destruct (Hf w1) as (new2 & Hl2 & _). unfold after_run in Hl2.
  exists (new ++ new2). split.
  - destruct (fin w1) as [[u|x] w2]; simpl in *; by rewrite Hl2, Hl, app_assoc.
  - apply elem_of_app. by left.
Qed.

Lemma extends_quiet {A} (m : M A) : preserves log m -> extends m.
Proof. intros H. apply (emits_extends _ (phase 1 1)). by apply emits_quiet. Qed.

Lemma saveItemsToDB_mentions l force :
  mentions (EvSaveItemsToDB l force) (saveItemsToDB l force).
Proof.
  unfold saveItemsToDB. apply mentions_bind_l; [apply mentions_emit|].
  intros _. apply (emits_extends _ (phase 3 3)).
  unfold openDatabase, existing_count, replace_transaction. emits_block.
Qed.

Lemma saveItems_mentions l : mentions (EvSaveItemsToDB l false) (saveItems l).
Proof.
  unfold saveItems.
  apply mentions_bind_r; [by apply extends_quiet|nothrow|intros cloud].
  apply mentions_bind_r;
    [apply extends_quiet; by intros ?|unfold setIsSaving, set_state; nothrow|intros _].
  apply mentions_bind_r;
    [apply extends_quiet; by intros ?|unfold setSyncStatus, set_state; nothrow|intros _].
  apply mentions_try_finally; [|apply extends_quiet; by intros ?].
  apply mentions_try_catch.
  - apply mentions_bind_l; [apply saveItemsToDB_mentions|]. intros _.
    apply (emits_extends _ (phase 3 3)).
    unfold getStorageEstimate, setStorageInfo, setSyncStatus, set_state. emits_block.
  - intros x. apply (emits_extends _ (phase 3 3)).
    unfold setSyncStatus, set_state. emits_block.
Qed.

(** When [m] returns [a], the publication of [l a] and a persist of [l a]
    that come next are both in the trace. *)
Lemma publish_then_persist {A B} (l : A -> list Item) force (m : M A)
    (persist : A -> M B) w a :
  extends m -> result m w = Ok a ->
  (forall x, mentions (EvSaveItemsToDB (l x) force) (persist x)) ->
  let run := m ≫= fun x => setItems (l x) ≫= fun _ => persist x in
  EvSetItems (l a) ∈ events_of run w
  /\ EvSaveItemsToDB (l a) force ∈ events_of run w.
Proof.
  intros Hm Hr Hp run. subst run.
  destruct (Hm w) as (new & Hl & _). destruct (Hp a) with
    (w := after_run (setItems (l a)) (after_run m w)) as (new2 & Hl2 & Hin).
  assert (He : events_of (m ≫= fun x => setItems (l x) ≫= fun _ => persist x) w
               = new ++ EvSetItems (l a) :: new2).
  { unfold events_of. rewrite (after_bind_result _ _ _ _ Hr).
    rewrite (after_bind_result (setItems (l a)) _ _ tt) by reflexivity.
    rewrite Hl2. change (log (after_run (setItems (l a)) (after_run m w)))
      with (log (after_run m w) ++ [EvSetItems (l a)]).
    rewrite Hl, <- !app_assoc, drop_app_length. done. }
  rewrite He. split; apply elem_of_app; right; [by left|by right].
Qed.

Lemma toggleImportant_publishes id w :
  let new := List.map (toggle_item id) (items (app w)) in
  EvSetItems new ∈ events_of (toggleImportant id) w
  /\ EvSaveItemsToDB new false ∈ events_of (toggleImportant id) w.
Proof.
  intros new. unfold toggleImportant.
  set (remote := if cloudEnabled (app w)
        then match List.find (fun item => strict_eq (prop item "id") id) new with
             | Some updatedItem =>
                 try_catch (saveItemToCloud updatedItem;; mret tt) (fun _ => mret tt)
             | None => mret tt
             end
        else mret tt).
  assert (Hn : no_throw remote) by (subst remote; nothrow).
  destruct (Hn w) as [[] Hr].
  change (events_of _ w) with
    (events_of (remote ≫= fun _ => setItems new ≫= fun _ => saveItems new) w).
  apply (publish_then_persist (fun _ => new) false remote (fun _ => saveItems new) w tt).
  - apply (emits_extends _ (phase 1 1)). subst remote. emits_block.
  - done.
  - intros _. apply saveItems_mentions.
Qed.

Lemma deleteItem_publishes id w :
  let new := List.filter (fun item => negb (strict_eq (prop item "id") id)) (items (app w)) in
  EvSetItems new ∈ events_of (deleteItem id true) w
  /\ EvSaveItemsToDB new true ∈ events_of (deleteItem id true) w.
Proof.
  intros new. unfold deleteItem.
  set (remote :=
    match List.find (fun item => strict_eq (prop item "id") id) (items (app w)) with
    | Some item =>
        if cloudEnabled (app w)
        then try_catch (deleteItemFromCloud item) (fun _ => mret tt)
        else mret tt
    | None => mret tt
    end).
  assert (Hn : no_throw remote) by (subst remote; nothrow).
  destruct (Hn w) as [[] Hr].
  change (events_of _ w) with
    (events_of (remote ≫= fun _ => setItems new ≫= fun _ =>
                  (saveItemsToDB new true;; showNotification "Item deleted" "success")) w).
  apply (publish_then_persist (fun _ => new) true remote _ w tt).
  - apply (emits_extends _ (phase 1 1)). subst remote. emits_block.
  - done.
  - intros _. apply mentions_bind_l; [apply saveItemsToDB_mentions|].
    intros _. apply (emits_extends _ (phase 3 3)). emits_block.
Qed.

Lemma handleFileUpload_publishes file files w :
  exists cur,
    EvSetItems cur ∈ events_of (handleFileUpload (file :: files)) w
    /\ EvSaveItemsToDB cur false ∈ events_of (handleFileUpload (file :: files)) w.
Proof.
  unfold handleFileUpload.
  set (held := items (app w)). set (cloud := cloudEnabled (app w)).
  set (loop := setIsSaving true ≫= fun _ => setSyncStatus Syncing ≫= fun _ =>
                 upload_loop held cloud (file :: files) held).
  destruct (upload_loop_spec held cloud (file :: files) held
              (after_run (setSyncStatus Syncing) (after_run (setIsSaving true) w)))
    as (added & Hr & _).
  assert (Hres : result loop w = Ok (added ++ held)).
  { subst loop. unfold result in *. unfold mbind, M_bind. simpl. exact Hr. }
  exists (added ++ held).
  change (events_of _ w) with
    (events_of (loop ≫= fun cur => setItems cur ≫= fun _ =>
        (saveItems cur;;
         showNotification (pretty (length (file :: files)) +:+ " file(s) uploaded!") "success";;
         setIsSaving false;;
         setSyncStatus (if cloud then Synced else Offline))) w).
  apply (publish_then_persist (fun cur => cur) false loop _ w (added ++ held)).
  - apply (emits_extends _ (phase 1 1)). subst loop.
    unfold setIsSaving, setSyncStatus, set_state.
    apply (emits_bind _ _ 1 1 1); [emits_block|intros _|lia].
    apply (emits_bind _ _ 1 1 1); [emits_block|intros _|lia].
    apply upload_loop_emits.
  - done.
  - intros cur. apply mentions_bind_l; [apply saveItems_mentions|].
    intros _. apply (emits_extends _ (phase 3 3)).
    unfold setIsSaving, setSyncStatus, set_state. emits_block.
Qed.

Lemma handleAddNote_publishes w :
  note_acceptable w = true ->
  let newItem := note_item (fresh_id (env w) (ids_used w)) (trim (noteText (app w)))
                   (iso_clock (env w) (clock_reads w)) in
  EvSetItems (newItem :: items (app w)) ∈ events_of handleAddNote w
  /\ EvSaveItemsToDB (newItem :: items (app w)) false ∈ events_of handleAddNote w.
Proof.
  intros Ha newItem. unfold note_acceptable in Ha.
  apply andb_true_iff in Ha as [Ha Hc]. apply andb_true_iff in Ha as [He Hl].
  apply negb_true_iff in He.
  rewrite Nat.leb_antisym in Hl. apply negb_true_iff in Hl.
  rewrite Nat.ltb_antisym in Hc. apply negb_true_iff in Hc.
  set (remote := generateId ≫= fun _ => now_iso ≫= fun _ =>
        if cloudEnabled (app w)
        then try_catch (saveItemToCloud newItem;; mret tt) (fun _ => mret tt)
        else mret tt).
  assert (Hn : no_throw remote).
  { subst remote. unfold generateId, now_iso. nothrow. }
  destruct (Hn w) as [[] Hr].
  assert (Heq : events_of handleAddNote w
    = events_of (remote ≫= fun _ => setItems (newItem :: items (app w)) ≫= fun _ =>
        (saveItems (newItem :: items (app w));;
         setNoteText EmptyString;;
         showNotification "Note added successfully!" "success")) w).
  { unfold events_of, handleAddNote. rewrite !after_gets_bind. by rewrite He, Hl, Hc. }
  rewrite Heq.
  apply (publish_then_persist (fun _ => newItem :: items (app w)) false remote _ w tt).
  - apply (emits_extends _ (phase 1 1)). subst remote. unfold generateId, now_iso.
    emits_block.
  - done.
  - intros _. apply mentions_bind_l; [apply saveItems_mentions|].
    intros _. apply (emits_extends _ (phase 3 3)). unfold setNoteText, set_state.
    emits_block.
Qed.

(** Where an event of a part of a computation is found in the trace of
    the whole. *)
Lemma in_events_bind_l {A B} e (m : M A) (k : A -> M B) w :
  extends m -> (forall a, extends (k a)) ->
  e ∈ events_of m w -> e ∈ events_of (m ≫= k) w.
Proof.
  intros Hm Hk. unfold events_of. destruct (Hm w) as (new & Hl & _).
  unfold after_run, mbind, M_bind in *. destruct (m w) as [[a|x] w1]; simpl in *; [|done].
  destruct (Hk a w1) as (new2 & Hl2 & _). unfold after_run in Hl2.
  rewrite Hl2, Hl, <- app_assoc, !drop_app_length. intros H. apply elem_of_app. by left.
Qed.

Lemma in_events_bind_r {A B} e (m : M A) (k : A -> M B) w a :
  extends m -> result m w = Ok a ->
  e ∈ events_of (k a) (after_run m w) -> e ∈ events_of (m ≫= k) w.
Proof.
  intros Hm Hr. unfold events_of. rewrite (after_bind_result _ _ _ _ Hr).
  destruct (Hm w) as (new & Hl & _). rewrite Hl.
  rewrite length_app, <- drop_drop. intros H.
  by apply (subseteq_drop (length new)).
Qed.

Lemma in_events_try_catch {A} e (m : M A) (h : string -> M A) w :
  extends m -> (forall x, extends (h x)) ->
  e ∈ events_of m w -> e ∈ events_of (try_catch m h) w.
Proof.
  intros Hm Hh. unfold events_of. destruct (Hm w) as (new & Hl & _).
  unfold after_run, try_catch in *. destruct (m w) as [[a|x] w1]; simpl in *; [done|].
  destruct (Hh x w1) as (new2 & Hl2 & _). unfold after_run in Hl2.
  rewrite Hl2, Hl, <- app_assoc, !drop_app_length. intros H. apply elem_of_app. by left.
Qed.

Lemma saveItemToCloud_mentions item : mentions (EvSaveItemToCloud item) (saveItemToCloud item).
Proof.
  unfold saveItemToCloud. apply mentions_bind_l; [apply mentions_emit|].
  intros _. apply (emits_extends _ (phase 1 1)).
  unfold is_inline_file, uploadBytes, getDownloadURL, setDoc, cloud_request, Date_now.
  emits_block.
Qed.

Lemma deleteItemFromCloud_mentions item :
  mentions (EvDeleteItemFromCloud item) (deleteItemFromCloud item).
Proof.
  unfold deleteItemFromCloud. apply mentions_bind_l; [apply mentions_emit|].
  intros _. apply (emits_extends _ (phase 1 1)). unfold cloud_request. emits_block.
Qed.


Lemma extends_ret {A} (a : A) : extends (mret a : M A).
Proof. apply extends_quiet. by intros ?. Qed.

Lemma guarded_cloud_save item :
  mentions (EvSaveItemToCloud item)
    (try_catch (saveItemToCloud item;; mret tt) (fun _ => mret tt)).
Proof.
  apply mentions_try_catch; [|intros _; apply extends_ret].
  apply mentions_bind_l; [apply saveItemToCloud_mentions|intros _; apply extends_ret].
Qed.

Lemma handleAddNote_remote w :
  note_acceptable w = true -> cloudEnabled (app w) = true ->
  let newItem := note_item (fresh_id (env w) (ids_used w)) (trim (noteText (app w)))
                   (iso_clock (env w) (clock_reads w)) in
  EvSaveItemToCloud newItem ∈ events_of handleAddNote w.
Proof.
  intros Ha Hcl newItem. unfold note_acceptable in Ha.
  apply andb_true_iff in Ha as [Ha Hc]. apply andb_true_iff in Ha as [He Hl].
  apply negb_true_iff in He.
  rewrite Nat.leb_antisym in Hl. apply negb_true_iff in Hl.
  rewrite Nat.ltb_antisym in Hc. apply negb_true_iff in Hc.
  set (remote := generateId ≫= fun _ => now_iso ≫= fun _ =>
        try_catch (saveItemToCloud newItem;; mret tt) (fun _ => mret tt)).
  assert (Heq : events_of handleAddNote w
    = events_of (remote ≫= fun _ => setItems (newItem :: items (app w)) ≫= fun _ =>
        (saveItems (newItem :: items (app w));;
         setNoteText EmptyString;;
         showNotification "Note added successfully!" "success")) w).
  { unfold events_of, handleAddNote. rewrite !after_gets_bind. by rewrite He, Hl, Hc, Hcl. }
  rewrite Heq. apply events_of_emits.
  apply mentions_bind_l.
  - subst remote.
    apply mentions_bind_r;
      [apply extends_quiet; by intros ?|unfold generateId; nothrow|intros _].
    apply mentions_bind_r;
      [apply extends_quiet; by intros ?|unfold now_iso; nothrow|intros _].
    apply guarded_cloud_save.
  - intros _. apply (emits_extends _ (phase 2 3)).
    emits_then 2%nat; [emits_within 2%nat 2%nat; apply setItems_emits|].
    emits_within 3%nat 3%nat. unfold setNoteText, set_state. emits_block.
Qed.

Lemma toggleImportant_remote id w updatedItem :
  cloudEnabled (app w) = true ->
  List.find (fun item => strict_eq (prop item "id") id)
    (List.map (toggle_item id) (items (app w))) = Some updatedItem ->
  EvSaveItemToCloud updatedItem ∈ events_of (toggleImportant id) w.
Proof.
  intros Hcl Hf.
  set (new := List.map (toggle_item id) (items (app w))) in *.
  assert (Heq : events_of (toggleImportant id) w
    = events_of (try_catch (saveItemToCloud updatedItem;; mret tt) (fun _ => mret tt)
                 ≫= fun _ => setItems new ≫= fun _ => saveItems new) w).
  { unfold events_of, toggleImportant. rewrite !after_gets_bind. fold new. by rewrite Hcl, Hf. }
  rewrite Heq. apply events_of_emits.
  apply mentions_bind_l; [apply guarded_cloud_save|].
  intros _. apply (emits_extends _ (phase 2 3)).
  emits_then 2%nat; [emits_within 2%nat 2%nat; apply setItems_emits|].
  emits_within 3%nat 3%nat. emits_block.
Qed.

Lemma deleteItem_remote id w item :
  cloudEnabled (app w) = true ->
  List.find (fun item => strict_eq (prop item "id") id) (items (app w)) = Some item ->
  EvDeleteItemFromCloud item ∈ events_of (deleteItem id true) w.
Proof.
  intros Hcl Hf.
  set (new := List.filter (fun item => negb (strict_eq (prop item "id") id)) (items (app w))).
  assert (Heq : events_of (deleteItem id true) w
    = events_of (try_catch (deleteItemFromCloud item) (fun _ => mret tt)
                 ≫= fun _ => setItems new ≫= fun _ =>
                   (saveItemsToDB new true;; showNotification "Item deleted" "success")) w).
  { unfold events_of, deleteItem. rewrite !after_gets_bind. fold new. by rewrite Hcl, Hf. }
  rewrite Heq. apply events_of_emits.
  apply mentions_bind_l.
  - apply mentions_try_catch; [apply deleteItemFromCloud_mentions|intros _; apply extends_ret].
  - intros _. apply (emits_extends _ (phase 2 3)).
    emits_then 2%nat; [emits_within 2%nat 2%nat; apply setItems_emits|].
    emits_within 3%nat 3%nat. emits_block.
Qed.

Lemma upload_one_remote held file cur w :
  uploadable held file = true ->
  exists id data createdAt,
    f_read file = Some data
    /\ EvSaveItemToCloud (file_item id file data createdAt)
         ∈ events_of (upload_one held true file cur) w.
Proof.
  unfold uploadable. intros Hu. apply andb_true_iff in Hu as [Ha Hr].
  destruct (f_read file) as [data|] eqn:Hd; [|done].
  pose proof (validateFile_result held file w) as Hv. rewrite Ha in Hv.
  set (w1 := after_run (validateFile held file) w).
  exists (fresh_id (env w1) (ids_used w1)), data, (iso_clock (env w1) (clock_reads w1)).
  split; [done|]. unfold upload_one.
  apply (in_events_bind_r _ _ _ _ true);
    [apply (emits_extends _ (phase 1 1)); apply validateFile_emits|done|].
  fold w1. simpl negb. cbv iota.
  apply in_events_try_catch.
  - apply (emits_extends _ (phase 1 1)). unfold readAsDataURL, generateId, now_iso.
    emits_block.
  - intros x. apply (emits_extends _ (phase 1 1)). emits_block.
  - unfold readAsDataURL. rewrite Hd.
    apply (in_events_bind_r _ _ _ _ data); [apply extends_ret|done|].
    apply (in_events_bind_r _ _ _ _ (fresh_id (env w1) (ids_used w1)));
      [apply extends_quiet; by intros ?|done|].
    apply (in_events_bind_r _ _ _ _ (iso_clock (env w1) (clock_reads w1)));
      [apply extends_quiet; by intros ?|done|].
    apply in_events_try_catch.
    + apply (emits_extends _ (phase 1 1)). emits_block.
    + intros x. apply extends_ret.
    + apply in_events_bind_l;
        [apply (emits_extends _ (phase 1 1)); apply saveItemToCloud_emits
        |intros r; apply extends_ret|].
      apply events_of_emits. apply saveItemToCloud_mentions.
Qed.

Lemma upload_loop_remote held files file : forall cur w,
  file ∈ files -> uploadable held file = true ->
  exists id data createdAt,
    f_read file = Some data
    /\ EvSaveItemToCloud (file_item id file data createdAt)
         ∈ events_of (upload_loop held true files cur) w.
Proof.
  induction files as [|f files IH]; intros cur w Hin Hu; [by apply elem_of_nil in Hin|].
  simpl. apply elem_of_cons in Hin as [->|Hin].
  - destruct (upload_one_remote held f cur w Hu) as (id & data & iso & Hd & He).
    exists id, data, iso. split; [done|].
    apply in_events_bind_l; [|intros cur'|done].
    + apply (emits_extends _ (phase 1 1)). apply upload_one_emits.
    + apply (emits_extends _ (phase 1 1)). apply upload_loop_emits.
  - destruct (upload_one_spec held true f cur w) as (cur' & Hr & _).
    destruct (IH cur' (after_run (upload_one held true f cur) w) Hin Hu)
      as (id & data & iso & Hd & He).
    exists id, data, iso. split; [done|].
    apply (in_events_bind_r _ _ _ _ cur'); [|done|done].
    apply (emits_extends _ (phase 1 1)). apply upload_one_emits.
Qed.

Lemma handleFileUpload_remote files file w :
  cloudEnabled (app w) = true ->
  file ∈ files -> uploadable (items (app w)) file = true ->
  exists id data createdAt,
    f_read file = Some data
    /\ EvSaveItemToCloud (file_item id file data createdAt)
         ∈ events_of (handleFileUpload files) w.
Proof.
  intros Hcl Hin Hu. destruct files as [|f files]; [by apply elem_of_nil in Hin|].
  set (held := items (app w)) in *.
  set (w2 := after_run (setSyncStatus Syncing) (after_run (setIsSaving true) w)).
  destruct (upload_loop_remote held (f :: files) file held w2 Hin Hu)
    as (id & data & iso & Hd & He).
  exists id, data, iso. split; [done|].
  set (loop := setIsSaving true ≫= fun _ => setSyncStatus Syncing ≫= fun _ =>
                 upload_loop held true (f :: files) held).
  assert (Heq : events_of (handleFileUpload (f :: files)) w
    = events_of (loop ≫= fun cur => setItems cur ≫= fun _ =>
        (saveItems cur;;
         showNotification (pretty (length (f :: files)) +:+ " file(s) uploaded!") "success";;
         setIsSaving false;;
         setSyncStatus Synced)) w).
  { unfold events_of, handleFileUpload. rewrite !after_gets_bind. fold held. by rewrite Hcl. }
  rewrite Heq.
  apply in_events_bind_l.
  - apply (emits_extends _ (phase 1 1)). subst loop.
    unfold setIsSaving, setSyncStatus, set_state.
    apply (emits_bind _ _ 1 1 1); [emits_block|intros _|lia].
    apply (emits_bind _ _ 1 1 1); [emits_block|intros _|lia].
    apply upload_loop_emits.
  - intros cur. apply (emits_extends _ (phase 2 3)).
    emits_then 2%nat; [emits_within 2%nat 2%nat; apply setItems_emits|].
    emits_within 3%nat 3%nat.
    unfold setIsSaving, setSyncStatus, set_state. emits_block.
  - exact He.
Qed.

(** C5, as amended.  In every run of the four mutation handlers the steps
    come in the order: the remote write for the changed item, then the
    publication of the new collection, then the local persist.  Validation
    comes before all of them: a note that validation rejects, and a file
    that validation rejects, leave no step behind.  And the steps do take
    place: a note that passes, a selection of files, a toggle and a
    confirmed deletion each publish a collection and call the local
    replace-all on that same collection; and with remote sync enabled each
    calls the remote adapter for the changed item: [saveItemToCloud] on
    the very note that is published, on the item made from each selected
    file that passes validation and can be read, and on the toggled item,
    [deleteItemFromCloud] on the item to delete. *)
Theorem mutation_steps_order (w : World) :
  in_order code_rank (events_of handleAddNote w) = true
  /\ (forall files, in_order code_rank (events_of (handleFileUpload files) w) = true)
  /\ (forall id, in_order code_rank (events_of (toggleImportant id) w) = true)
  /\ (forall id confirmed,
        in_order code_rank (events_of (deleteItem id confirmed) w) = true)
  /\ (note_acceptable w = false -> steps (events_of handleAddNote w) = [])
  /\ (forall file cloud cur,
        file_acceptable (items (app w)) file = false ->
        steps (events_of (upload_one (items (app w)) cloud file cur) w) = [])
  /\ (note_acceptable w = true ->
      exists newItem,
        EvSetItems (newItem :: items (app w)) ∈ events_of handleAddNote w
        /\ EvSaveItemsToDB (newItem :: items (app w)) false ∈ events_of handleAddNote w
        /\ (cloudEnabled (app w) = true ->
            EvSaveItemToCloud newItem ∈ events_of handleAddNote w))
  /\ (forall file files, exists cur,
        EvSetItems cur ∈ events_of (handleFileUpload (file :: files)) w
        /\ EvSaveItemsToDB cur false ∈ events_of (handleFileUpload (file :: files)) w)
  /\ (forall files file,
        cloudEnabled (app w) = true ->
        file ∈ files -> uploadable (items (app w)) file = true ->
        exists id data createdAt,
          f_read file = Some data
          /\ EvSaveItemToCloud (file_item id file data createdAt)
               ∈ events_of (handleFileUpload files) w)
  /\ (forall id,
        let new := List.map (toggle_item id) (items (app w)) in
        EvSetItems new ∈ events_of (toggleImportant id) w
        /\ EvSaveItemsToDB new false ∈ events_of (toggleImportant id) w
        /\ (cloudEnabled (app w) = true ->
            forall updatedItem,
              List.find (fun item => strict_eq (prop item "id") id) new = Some updatedItem ->
              EvSaveItemToCloud updatedItem ∈ events_of (toggleImportant id) w))
  /\ (forall id,
        let new := List.filter (fun item => negb (strict_eq (prop item "id") id))
                     (items (app w)) in
        EvSetItems new ∈ events_of (deleteItem id true) w
        /\ EvSaveItemsToDB new true ∈ events_of (deleteItem id true) w
        /\ (cloudEnabled (app w) = true ->
            forall item,
              List.find (fun item => strict_eq (prop item "id") id) (items (app w))
                = Some item ->
              EvDeleteItemFromCloud item ∈ events_of (deleteItem id true) w)).
Proof.
  split; [apply (events_of_emits _ _ w handleAddNote_emits)|].
  split; [intros files; apply (events_of_emits _ _ w (handleFileUpload_emits files))|].
  split; [intros id; apply (events_of_emits _ _ w (toggleImportant_emits id))|].
  split; [intros id c; apply (events_of_emits _ _ w (deleteItem_emits id c))|].
  split.
  { intros Hn. destruct (handleAddNote_rejected w Hn) as [[message ->] _]. reflexivity. }
  split.
  { intros file cloud cur Hf.
    destruct (upload_one_rejected _ cloud file cur w Hf) as (_ & [message ->] & _).
    reflexivity. }
  split.
  { intros Ha. eexists. destruct (handleAddNote_publishes w Ha) as [Hp Hs].
    split; [exact Hp|]. split; [exact Hs|]. intros Hc. by apply handleAddNote_remote. }
  split; [intros file files; apply handleFileUpload_publishes|].
  split; [intros files file; apply handleFileUpload_remote|].
  split.
  { intros id new. destruct (toggleImportant_publishes id w) as [Hp Hs].
    split; [exact Hp|]. split; [exact Hs|]. intros Hc u Hf.
    by apply toggleImportant_remote. }
  intros id new. destruct (deleteItem_publishes id w) as [Hp Hs].
  split; [exact Hp|]. split; [exact Hs|]. intros Hc item Hf.
  by apply deleteItem_remote.
Qed.

(** With remote sync on, the note typed in the scenario is handed to
    [saveItemToCloud] and written, then published as the collection, then
    persisted. *)
Example mutation_steps_scenario :
  let w := Scenario.typing_hello in
  cloudEnabled (app w) = true
  /\ exists newItem id doc,
       events_of handleAddNote w
       = [ EvSaveItemToCloud newItem; EvSetDoc id doc;
           EvSetItems [newItem]; EvSaveItemsToDB [newItem] false;
           EvLocalCommit [newItem]; EvNotify "Note added successfully!" "success" ]
       /\ prop newItem "content" = VStr "hello".
Proof.
  split; [reflexivity|]. eexists. eexists. eexists.
  split; [vm_compute; reflexivity|reflexivity].
Qed.

(** C5, as stated, fails: with remote sync on, adding a note writes the
    note to the remote store before the new collection is published. *)
Lemma remote_write_precedes_publication :
  let w := Scenario.typing_hello in
  steps (events_of handleAddNote w) = [Remote; Remote; Publish; Persist; Persist]
  /\ in_order spec_rank (events_of handleAddNote w) = false.
Proof. split; vm_compute; reflexivity. Qed.

(** C7, as amended.
    - Every item that [handleFileUpload] adds comes from a selected file
      that passed [validateFile]: its size is within the byte ceiling and
      its media type is in the allow-list, or the file reports no media
      type and the item carries [application/octet-stream].
    - A file that breaks a rule gets an error message, is not added, and
      no remote write is made for it.
    - A note that is added has a trimmed text within the character
      ceiling; a note that breaks a rule gets an error message and nothing
      else happens: the collection and the three stores stay as they
      were. *)
Theorem admission_policy (w : World) :
  (forall files, exists added,
      items (app (after_run (handleFileUpload files) w)) = added ++ items (app w)
      /\ Forall (fun it => exists file, file ∈ files
                   /\ file_acceptable (items (app w)) file = true
                   /\ accepted_as file it) added)
  /\ (forall file,
        file_acceptable (items (app w)) file = false ->
        (forall cloud cur, exists message,
            events_of (upload_one (items (app w)) cloud file cur) w
            = [EvNotify message "error"])
        /\ let w' := after_run (handleFileUpload [file]) w in
           items (app w') = items (app w) /\ docs w' = docs w /\ blobs w' = blobs w)
  /\ (let w' := after_run handleAddNote w in
      if note_acceptable w
      then exists it,
             items (app w') = it :: items (app w)
             /\ prop it "type" = VStr "note"
             /\ prop it "content" = VStr (trim (noteText (app w)))
             /\ (String.length (trim (noteText (app w))) <= MAX_NOTE_LENGTH)%nat
      else (exists message, events_of handleAddNote w = [EvNotify message "error"])
           /\ items (app w') = items (app w)
           /\ idb w' = idb w /\ docs w' = docs w /\ blobs w' = blobs w).
Proof.
  split; [intros files; apply handleFileUpload_items|]. split.
  - intros file Hf. split.
    + intros cloud cur.
      by destruct (upload_one_rejected _ cloud file cur w Hf) as (_ & Hm & _).
    + by apply handleFileUpload_rejected.
  - intros w'. subst w'. destruct (note_acceptable w) eqn:Hn.
    + by apply handleAddNote_accepted.
    + by apply handleAddNote_rejected.
Qed.

(** C7, as stated, fails twice.  A file that reports no media type is
    added, under a type that is not in the allow-list.  And after a file
    was rejected for its size, the handler still writes the collection to
    the local store, which here held nothing. *)
Lemma untyped_file_accepted_and_rejection_writes :
  (let w := Scenario.holding 0 in
   let w' := after_run (handleFileUpload [Scenario.untyped_file]) w in
   List.map (fun it => prop it "fileType") (items (app w'))
   = [VStr "application/octet-stream"]
   /\ includes ALLOWED_FILE_TYPES (f_type Scenario.untyped_file) = false
   /\ includes ALLOWED_FILE_TYPES "application/octet-stream" = false)
  /\ (let w := Scenario.holding 1 in
      let w' := after_run (handleFileUpload [Scenario.oversized_file]) w in
      file_acceptable (items (app w)) Scenario.oversized_file = false
      /\ length (idb w) = 0%nat
      /\ length (idb w') = 1%nat
      /\ existsb (fun e => match e with EvLocalCommit _ => true | _ => false end)
           (events_of (handleFileUpload [Scenario.oversized_file]) w) = true).
Proof.
  split.
  - split; [vm_compute; reflexivity|]. split; vm_compute; reflexivity.
  - split; [vm_compute; reflexivity|]. split; [vm_compute; reflexivity|].
    split; vm_compute; reflexivity.
Qed.

(* ===================================================================== *)
(** ** Escaping of names *)
(* ===================================================================== *)

Lemma chars_app a b :
  list_ascii_of_string (a +:+ b) = list_ascii_of_string a ++ list_ascii_of_string b.
Proof. induction a as [|x a IH]; simpl; [done|]. by rewrite IH. Qed.

(** A character of [s.replace(/c/g, rep)] comes from [rep], or from [s] and
    is not [c]. *)
Lemma chars_replace_all c rep s x :
  x ∈ list_ascii_of_string (replace_all c rep s) ->
  x ∈ list_ascii_of_string rep \/ (x ∈ list_ascii_of_string s /\ x <> c).
Proof.
  induction s as [|y s IH]; simpl; [by intros ?%elem_of_nil|].
  rewrite chars_app. intros [H|H]%elem_of_app.
  - destruct (Ascii.eqb y c) eqn:E; [by left|].
    right. apply list_elem_of_singleton in H as ->. split; [by left|].
    by apply Ascii.eqb_neq.
  - destruct (IH H) as [?|[? ?]]; [by left|]. right. split; [by right|done].
Qed.

Lemma chars_trim_start s x :
  x ∈ list_ascii_of_string (trim_start s) -> x ∈ list_ascii_of_string s.
Proof.
  induction s as [|y s IH]; simpl; [done|].
  destruct (is_ws y); [|done]. intros H. right. by apply IH.
Qed.

Lemma chars_trim_end s x :
  x ∈ list_ascii_of_string (trim_end s) -> x ∈ list_ascii_of_string s.
Proof.
  induction s as [|y s IH]; simpl; [done|].
  destruct (trim_end s) as [|z t] eqn:E.
  - destruct (is_ws y); [by intros ?%elem_of_nil|].
    intros H. apply list_elem_of_singleton in H as ->. by left.
  - intros [->|H]%elem_of_cons; [by left|]. right. by apply IH.
Qed.

Lemma chars_trim s x :
  x ∈ list_ascii_of_string (trim s) -> x ∈ list_ascii_of_string s.
Proof. intros H. by apply chars_trim_start, chars_trim_end. Qed.

Lemma trim_start_idem s : trim_start (trim_start s) = trim_start s.
Proof.
  induction s as [|y s IH]; simpl; [done|].
  destruct (is_ws y) eqn:E; [done|]. simpl. by rewrite E.
Qed.

Lemma trim_end_idem s : trim_end (trim_end s) = trim_end s.
Proof.
  induction s as [|y s IH]; simpl; [done|].
  destruct (trim_end s) as [|z t] eqn:E.
  - destruct (is_ws y) eqn:W; [done|]. simpl. by rewrite W.
  - simpl in *. by rewrite IH.
Qed.

Lemma trim_start_shorter s : (String.length (trim_start s) <= String.length s)%nat.
Proof. induction s as [|z s IH]; simpl; [done|]. destruct (is_ws z); simpl; lia. Qed.

(** What does not start with white space still does not once its end is
    trimmed. *)
Lemma trim_start_trim_end s :
  trim_start s = s -> trim_start (trim_end s) = trim_end s.
Proof.
  destruct s as [|y s]; simpl; [done|].
  destruct (is_ws y) eqn:W.
  - intros H. exfalso. pose proof (trim_start_shorter s) as Hl.
    rewrite H in Hl. simpl in Hl. lia.
  - intros _. destruct (trim_end s); simpl; by rewrite W.
Qed.

Lemma trim_idem s : trim (trim s) = trim s.
Proof.
  unfold trim. rewrite (trim_start_trim_end (trim_start s)) by apply trim_start_idem.
  apply trim_end_idem.
Qed.

(** X1. Whatever the text, the result of [sanitizeText] holds none of [<],
    [>], the double quote and the single quote, and neither starts nor ends
    with white space (trimming it again changes nothing). *)
Theorem sanitizeText_has_no_markup (text : string) :
  Forall (fun c => c <> "<"%char /\ c <> ">"%char /\ c <> ascii_of_nat 34 /\ c <> "'"%char)
    (list_ascii_of_string (sanitizeText text))
  /\ trim (sanitizeText text) = sanitizeText text.
Proof.
  split; [|apply trim_idem].
  apply Forall_forall. intros x Hx. unfold sanitizeText in Hx.
  apply chars_trim in Hx.
  apply chars_replace_all in Hx as [Hx|[Hx Hq]].
  { repeat (apply elem_of_cons in Hx as [->|Hx]; [by repeat split|]).
    by apply elem_of_nil in Hx. }
  apply chars_replace_all in Hx as [Hx|[Hx Hd]].
  { repeat (apply elem_of_cons in Hx as [->|Hx]; [by repeat split|]).
    by apply elem_of_nil in Hx. }
  apply chars_replace_all in Hx as [Hx|[Hx Hg]].
  { repeat (apply elem_of_cons in Hx as [->|Hx]; [by repeat split|]).
    by apply elem_of_nil in Hx. }
  apply chars_replace_all in Hx as [Hx|[Hx Hl]].
  { repeat (apply elem_of_cons in Hx as [->|Hx]; [by repeat split|]).
    by apply elem_of_nil in Hx. }
  done.
Qed.

Lemma replace_all_absent c rep s :
  c ∉ list_ascii_of_string s -> replace_all c rep s = s.
Proof.
  induction s as [|y s IH]; simpl; [done|]. intros H.
  destruct (Ascii.eqb y c) eqn:E.
  - apply Ascii.eqb_eq in E as ->. destruct H. by left.
  - simpl. rewrite IH; [done|]. intros ?. apply H. by right.
Qed.

(** X2. On a text that holds none of [&], [<], [>] and the two quotes,
    [sanitizeText] only trims. *)
Theorem sanitizeText_plain (text : string) :
  plain_text text = true -> sanitizeText text = trim text.
Proof.
  intros H. unfold plain_text in H. rewrite forallb_forall in H.
  assert (Hn : forall c, c ∈ markup_characters -> c ∉ list_ascii_of_string text).
  { intros c Hc Hin. apply list_elem_of_In in Hin. apply H in Hin.
    apply negb_true_iff in Hin.
    assert (Ht : existsb (Ascii.eqb c) markup_characters = true); [|congruence].
    apply existsb_exists. exists c. split; [by apply list_elem_of_In|].
    apply Ascii.eqb_refl. }
  unfold sanitizeText.
  rewrite (replace_all_absent "&" _ text) by (apply Hn; in_log).
  rewrite (replace_all_absent "<" _ text) by (apply Hn; in_log).
  rewrite (replace_all_absent ">" _ text) by (apply Hn; in_log).
  rewrite (replace_all_absent (ascii_of_nat 34) _ text) by (apply Hn; in_log).
  by rewrite (replace_all_absent "'" _ text) by (apply Hn; in_log).
Qed.

Lemma sanitizeText_plain_witness :
  sanitizeText "  report 2024.pdf " = trim "  report 2024.pdf ".
Proof. apply (sanitizeText_plain "  report 2024.pdf "). reflexivity. Defined.

(* ===================================================================== *)
(** ** The object store: keys, transactions, reading back *)
(* ===================================================================== *)

(** X3. [saveItemsToDB] is all or nothing: either the store is left as it
    was, or the call resolves and the records of the store are exactly the
    items given; a call that rejects has written nothing. *)
Theorem saveItemsToDB_all_or_nothing (l : list Item) (force : bool) (w : World) :
  let w' := after_run (saveItemsToDB l force) w in
  (idb w' = idb w
   \/ (result (saveItemsToDB l force) w = Ok tt
       /\ add_all l [] = Some (idb w') /\ List.map snd (idb w') ≡ₚ l))
  /\ (forall e, result (saveItemsToDB l force) w = Throw e -> idb w' = idb w).
Proof.
  unfold saveItemsToDB, openDatabase, existing_count, replace_transaction. run.
  destruct (hd false (open_faults w)); simpl; [by split; [left|]|].
  destruct ((length l =? 0)%nat && negb force); simpl.
  - destruct (0 <? (if hd false (count_faults w) then 0 else length (idb w)))%nat; simpl;
      [by split; [left|]|].
    destruct (hd false (write_faults w)); simpl; [by split; [left|]|].
    destruct (add_all l []) as [s|] eqn:E; simpl; [|by split; [left|]].
    split; [|done]. right. split; [done|]. split; [done|].
    by apply add_all_key_ordered.
  - destruct (hd false (write_faults w)); simpl; [by split; [left|]|].
    destruct (add_all l []) as [s|] eqn:E; simpl; [|by split; [left|]].
    split; [|done]. right. split; [done|]. split; [done|].
    by apply add_all_key_ordered.
Qed.

(** A call that gets to the transaction: the database opens, and the
    collection is not empty or the write is forced. *)
Lemma saveItemsToDB_writes l force w :
  next_fault IdbOpen w = false ->
  l <> [] \/ force = true ->
  saveItemsToDB l force w
  = try_catch (replace_transaction l) (fun error => throw error)
      (pop_fault IdbOpen (with_log (log w ++ [EvSaveItemsToDB l force]) w)).
Proof.
  unfold next_fault, faults. intros Ho Hl.
  assert (Hg : (length l =? 0)%nat && negb force = false).
  { destruct Hl as [Hl| ->]; [|apply andb_false_r]. by destruct l. }
  unfold saveItemsToDB, openDatabase. run. by rewrite Ho, Hg.
Qed.

(** X4. What the store accepts.  When the database opens and the
    transaction does not fault, a collection whose [id]s are all valid keys
    and that is not empty (or whose write is forced) is saved exactly when
    no key occurs twice: then the call resolves and the store holds the
    items, in key order; with a repeated key it rejects and the store is
    as before. *)
Theorem saveItemsToDB_accepts (l : list Item) (ks : list Key) (force : bool) (w : World) :
  next_fault IdbOpen w = false -> next_fault IdbWrite w = false ->
  l <> [] \/ force = true ->
  keys_of l = Some ks ->
  let w' := after_run (saveItemsToDB l force) w in
  (NoDup ks ->
     result (saveItemsToDB l force) w = Ok tt
     /\ List.map snd (idb w') ≡ₚ l /\ key_ordered (idb w'))
  /\ (~ NoDup ks ->
     (exists e, result (saveItemsToDB l force) w = Throw e) /\ idb w' = idb w).
Proof.
  intros Ho Hw Hl Hk. unfold after_run, result.
  rewrite (saveItemsToDB_writes l force w Ho Hl).
  unfold next_fault, faults in *. unfold replace_transaction. run. rewrite Hw. simpl.
  split.
  - intros Hnd. assert (Hst : storable l) by (by exists ks).
    apply add_all_storable in Hst as (s & E).
    rewrite E. simpl. split; [done|].
    destruct (add_all_key_ordered l s E). by split.
  - intros Hn. destruct (add_all l []) as [s|] eqn:E; simpl.
    + destruct Hn. assert (Hst : storable l) by (apply add_all_storable; by exists s).
      destruct Hst as (ks' & Hk' & Hnd). congruence.
    + split; [by eexists|done].
Qed.

Lemma saveItemsToDB_accepts_witness :
  let l := [Scenario.note (VStr "n1") "keep me"] in
  let ks := [KStr "n1"] in
  let w := Scenario.fresh Scenario.placeholders in
  let w' := after_run (saveItemsToDB l false) w in
  (NoDup ks ->
     result (saveItemsToDB l false) w = Ok tt
     /\ List.map snd (idb w') ≡ₚ l /\ key_ordered (idb w'))
  /\ (~ NoDup ks ->
     (exists e, result (saveItemsToDB l false) w = Throw e) /\ idb w' = idb w).
Proof.
  apply (saveItemsToDB_accepts [Scenario.note (VStr "n1") "keep me"] [KStr "n1"] false
           (Scenario.fresh Scenario.placeholders));
    [reflexivity | reflexivity | by left | reflexivity].
Defined.

(** Two items under one [id]: the store takes neither. *)
Example repeated_id_is_rejected :
  let l := [Scenario.note (VStr "n1") "one"; Scenario.note (VStr "n1") "two"] in
  ~ storable l
  /\ (exists e, result (saveItemsToDB l false) Scenario.one_local_note = Throw e)
  /\ idb (after_run (saveItemsToDB l false) Scenario.one_local_note)
     = idb Scenario.one_local_note.
Proof.
  split; [|split; [by eexists|done]].
  intros (ks & Hk & Hnd). injection Hk as <-.
  apply NoDup_cons in Hnd as [Hni _]. apply Hni. by left.
Qed.

Lemma by_createdAt_desc_valid a b :
  is_Some (date_value (prop a "createdAt")) ->
  is_Some (date_value (prop b "createdAt")) ->
  by_createdAt_desc a b = Some (created b - created a).
Proof.
  unfold by_createdAt_desc, date_diff, created. by intros [x ->] [y ->].
Qed.

(** A load that resolves returns the records of the store, sorted. *)
Lemma loadItemsFromDB_ok w l :
  result loadItemsFromDB w = Ok l ->
  l = sort by_createdAt_desc (List.map snd (idb w)).
Proof.
  unfold loadItemsFromDB, openDatabase. run.
  destruct (hd false (open_faults w)); simpl; [done|].
  destruct (hd false (read_faults w)); simpl; [done|]. by intros [= <-].
Qed.

(** What the sort on the creation date leaves: every item once, and from
    the newest to the oldest when every [createdAt] is a date as
    [toISOString] writes it. *)
Lemma sort_by_date l :
  let r := sort by_createdAt_desc l in
  r ≡ₚ l
  /\ (Forall (fun it => exists s t, prop it "createdAt" = VStr s /\ parse_iso s = Some t) l ->
      StronglySorted (fun a b => created b <= created a) r).
Proof.
  split; [apply sort_perm|]. intros Hv.
  apply sort_desc. intros a b Ha Hb.
  rewrite Forall_forall in Hv.
  destruct (Hv a Ha) as (sa & ta & Hsa & Hta).
  destruct (Hv b Hb) as (sb & tb & Hsb & Htb).
  apply by_createdAt_desc_valid.
  - rewrite Hsa. simpl. by rewrite Hta.
  - rewrite Hsb. simpl. by rewrite Htb.
Qed.

(** X5. [loadItemsFromDB] changes no record.  It rejects exactly when
    opening the database or the read request faults; otherwise it returns
    every record of the store once, and from the newest to the oldest when
    every [createdAt] is a date as [toISOString] writes it. *)
Theorem loadItemsFromDB_reads (w : World) :
  let w' := after_run loadItemsFromDB w in
  idb w' = idb w
  /\ (forall l, result loadItemsFromDB w = Ok l ->
        l ≡ₚ List.map snd (idb w)
        /\ (Forall (fun it => exists s t, prop it "createdAt" = VStr s
                                         /\ parse_iso s = Some t) l ->
            StronglySorted (fun a b => created b <= created a) l))
  /\ ((exists e, result loadItemsFromDB w = Throw e) <->
      next_fault IdbOpen w = true \/ next_fault IdbRead w = true).
Proof.
  split; [|split].
  - unfold loadItemsFromDB, openDatabase. run.
    destruct (hd false (open_faults w)); simpl; [done|].
    by destruct (hd false (read_faults w)).
  - intros l Hl. apply loadItemsFromDB_ok in Hl as ->.
    split; [apply sort_perm|]. intros Hv.
    apply sort_desc. intros a b Ha Hb.
    rewrite Forall_forall in Hv.
    destruct (Hv a) as (sa & ta & Hsa & Hta); [by rewrite sort_perm|].
    destruct (Hv b) as (sb & tb & Hsb & Htb); [by rewrite sort_perm|].
    apply by_createdAt_desc_valid.
    + rewrite Hsa. simpl. by rewrite Hta.
    + rewrite Hsb. simpl. by rewrite Htb.
  - unfold next_fault, faults. unfold loadItemsFromDB, openDatabase. run.
    destruct (hd false (open_faults w)); simpl.
    { split; [by left|]. intros _. by eexists. }
    destruct (hd false (read_faults w)); simpl.
    { split; [by right|]. intros _. by eexists. }
    split; [by intros [e ?]|]. by intros [?|?].
Qed.

(** X6. What [saveItemsToDB] has saved, [loadItemsFromDB] reads back:
    after a save that resolved, of a collection that is not empty or with
    the write forced, a load that resolves returns the items saved, each
    once (the order is that of the dates, not that of the collection). *)
Theorem save_then_load (l l' : list Item) (force : bool) (w : World) :
  l <> [] \/ force = true ->
  result (saveItemsToDB l force) w = Ok tt ->
  result loadItemsFromDB (after_run (saveItemsToDB l force) w) = Ok l' ->
  l' ≡ₚ l.
Proof.
  intros Hl Hs Hr.
  apply loadItemsFromDB_ok in Hr as ->. rewrite sort_perm.
  assert (Hg : (length l =? 0)%nat && negb force = false).
  { destruct Hl as [Hl| ->]; [|apply andb_false_r]. by destruct l. }
  revert Hs. unfold saveItemsToDB, openDatabase, replace_transaction. run.
  rewrite Hg. destruct (hd false (open_faults w)); simpl; [done|].
  destruct (hd false (write_faults w)); simpl; [done|].
  destruct (add_all l []) as [s|] eqn:E; simpl; [|done].
  intros _. by apply add_all_key_ordered.
Qed.

Lemma save_then_load_witness :
  [Scenario.note (VStr "n0") "older"; Scenario.note (VStr "n1") "keep me"]
  ≡ₚ [Scenario.note (VStr "n1") "keep me"; Scenario.note (VStr "n0") "older"].
Proof.
  apply (save_then_load
           [Scenario.note (VStr "n1") "keep me"; Scenario.note (VStr "n0") "older"]
           [Scenario.note (VStr "n0") "older"; Scenario.note (VStr "n1") "keep me"]
           false (Scenario.fresh Scenario.placeholders));
    [by left | reflexivity | reflexivity].
Defined.

(* ===================================================================== *)
(** ** The remote adapter: documents and blobs *)
(* ===================================================================== *)

Lemma doc_set_named id data ds : (id, data) ∈ doc_set id data ds.
Proof.
  induction ds as [|[i d] r IH]; simpl; [by left|].
  destruct (String.compare id i); [by left|by left|by right].
Qed.

(** [setDoc] leaves the documents of the other names alone. *)
Lemma doc_set_others id data ds i x :
  i <> id -> (i, x) ∈ doc_set id data ds <-> (i, x) ∈ ds.
Proof.
  intros Hne. induction ds as [|[i0 d0] r IH]; simpl.
  - split; [|by intros ?%elem_of_nil].
    intros [=]%list_elem_of_singleton. done.
  - destruct (String.compare id i0) eqn:E.
    + apply String.compare_eq_iff in E as <-. split.
      * intros [[=]|H]%elem_of_cons; [done|by right].
      * intros [[=]|H]%elem_of_cons; [done|by right].
    + split.
      * intros [[=]|H]%elem_of_cons; [done|done].
      * intros H. by right.
    + split.
      * intros [->|H]%elem_of_cons; [by left|]. right. by apply IH.
      * intros [->|H]%elem_of_cons; [by left|]. right. by apply IH.
Qed.

Lemma doc_delete_named id ds x : (id, x) ∉ doc_delete id ds.
Proof.
  unfold doc_delete. intros H. apply list_elem_of_In, filter_In in H as [_ H].
  simpl in H. by rewrite String.eqb_refl in H.
Qed.

Lemma doc_delete_others id ds i x :
  i <> id -> (i, x) ∈ doc_delete id ds <-> (i, x) ∈ ds.
Proof.
  intros Hne. unfold doc_delete. rewrite !list_elem_of_In, filter_In. simpl.
  apply String.eqb_neq in Hne. rewrite Hne. simpl. tauto.
Qed.

Ltac as_before := split; [done | split; [done | by left]].
Ltac blob_left := split; [done | split; [done | by right]].

(** What a call of [saveItemToCloud] does, by its outcome. *)
Lemma saveItemToCloud_outcome item w :
  let w' := after_run (saveItemToCloud item) w in
  match result (saveItemToCloud item) w with
  | Ok None => db_ready (env w) = false /\ remote_side w' = remote_side w
  | Ok (Some record) =>
      db_ready (env w) = true
      /\ exists docId, method_toString (prop item "id") = Some docId
         /\ docs w' = doc_set docId record (docs w)
         /\ ((record = <["updatedAt" := VNum (clock (env w) (clock_reads w))]> item
              /\ blobs w' = blobs w)
             \/ (record
                 = <["updatedAt" := VNum (clock (env w) (clock_reads w))]>
                     (<["isCloudStored" := VBool true]>
                        (<["data" := VStr (download_url (env w) (storage_path item))]> item))
                 /\ blobs w'
                    = <[storage_path item := to_string (prop item "data")]> (blobs w)
                 /\ prop item "type" = VStr "file"))
  | Throw e =>
      db_ready (env w) = true /\ docs w' = docs w
      /\ (blobs w' = blobs w
          \/ (prop item "type" = VStr "file"
              /\ blobs w'
                 = <[storage_path item := to_string (prop item "data")]> (blobs w)))
  end.
Proof.
  unfold remote_side, saveItemToCloud, is_inline_file, uploadBytes, getDownloadURL, setDoc,
    cloud_request, Date_now. run.
  destruct (db_ready (env w)); simpl; [|done].
  destruct (method_toString (prop item "id")) as [docId|]; simpl; [|as_before].
  destruct (strict_eq (prop item "type") (VStr "file")) eqn:Et; simpl.
  - assert (Hty : prop item "type" = VStr "file").
    { destruct (prop item "type"); try done. simpl in Et.
      by apply String.eqb_eq in Et as ->. }
    destruct (truthy (prop item "data")) eqn:Ed; simpl.
    + destruct (prop item "data") eqn:Ep; simpl; try as_before.
      destruct (startsWith s "data:"); simpl.
      * destruct (hd false (cloud_faults w)); simpl; [as_before|].
        destruct (hd false (tl (cloud_faults w))); simpl; [as_before|].
        destruct (hd false (tl (tl (cloud_faults w)))); simpl; [blob_left|].
        destruct (hd false (tl (tl (tl (cloud_faults w))))); simpl; [blob_left|].
        split; [done|]. exists docId. split; [done|]. split; [done|]. by right.
      * destruct (hd false (cloud_faults w)); simpl; [as_before|].
        split; [done|]. exists docId. split; [done|]. split; [done|]. by left.
    + destruct (hd false (cloud_faults w)); simpl; [as_before|].
      split; [done|]. exists docId. split; [done|]. split; [done|]. by left.
  - destruct (hd false (cloud_faults w)); simpl; [as_before|].
    split; [done|]. exists docId. split; [done|]. split; [done|]. by left.
Qed.

Lemma request_env op : preserves env (request op).
Proof. intros w. by destruct op. Qed.
#[global] Hint Resolve request_env : frame.

Lemma saveItemToCloud_env item : preserves env (saveItemToCloud item).
Proof.
  unfold saveItemToCloud, setDoc, uploadBytes, getDownloadURL, is_inline_file,
    cloud_request, emit.
  frame.
Qed.

(** X7. [saveItemToCloud] writes at most one document.  A call that
    throws has written none; a call that returns a record has filed that
    record under the [id] of the item, which the record keeps, and has left
    the documents of every other name alone; and an item that is not a file
    never changes the blob store. *)
Theorem saveItemToCloud_writes_one_document (item : Item) (w : World) :
  let w' := after_run (saveItemToCloud item) w in
  (forall e, result (saveItemToCloud item) w = Throw e -> docs w' = docs w)
  /\ (forall record, result (saveItemToCloud item) w = Ok (Some record) ->
        exists docId, method_toString (prop item "id") = Some docId
          /\ (docId, record) ∈ docs w'
          /\ (forall i x, i <> docId -> (i, x) ∈ docs w' <-> (i, x) ∈ docs w)
          /\ prop record "id" = prop item "id")
  /\ (prop item "type" <> VStr "file" -> blobs w' = blobs w).
Proof.
  intros w'. pose proof (saveItemToCloud_outcome item w) as H. fold w' in H.
  pose proof (saveItemToCloud_keeps item w) as Hk.
  destruct (result (saveItemToCloud item) w) as [[record|]|e].
  - destruct H as (_ & docId & Hid & Hd & Hb). split; [done|]. split.
    + intros ? [= <-]. exists docId. split; [done|]. rewrite Hd.
      split; [apply doc_set_named|]. split; [intros i x Hne; by apply doc_set_others|].
      unfold prop. by rewrite (Hk record eq_refl).
    + intros Hn. by destruct Hb as [[_ ?]|(_ & _ & ?)].
  - destruct H as [_ [= _ Hb _]]. by repeat split.
  - destruct H as (_ & Hd & Hb). split; [done|]. split; [done|].
    intros Hn. by destruct Hb as [?|[? _]].
Qed.

(** The upload went through, the request for the download address did
    not: the blob stays behind, without a document. *)
Example failed_promotion_leaves_blob :
  let w := with_faults (fun op => match op with Cloud => [false; false; true] | _ => [] end)
             (Scenario.fresh Scenario.configured) in
  let w' := after_run (saveItemToCloud (Scenario.inline_file (VStr "f1"))) w in
  (exists e, result (saveItemToCloud (Scenario.inline_file (VStr "f1"))) w = Throw e)
  /\ docs w' = []
  /\ blobs w' !! "files/f1_a.txt" = Some "data:text/plain;base64,aGk=".
Proof. split; [by eexists|]. split; reflexivity. Qed.

(** X8. What [saveItemToCloud] has written, [loadItemsFromCloud] reads
    back: after a call that returned a record, a read that does not fault
    returns a collection that holds that record. *)
Theorem cloud_save_then_load (item record : Item) (w : World) :
  result (saveItemToCloud item) w = Ok (Some record) ->
  next_fault Cloud (after_run (saveItemToCloud item) w) = false ->
  exists l, result loadItemsFromCloud (after_run (saveItemToCloud item) w) = Ok l
            /\ record ∈ l.
Proof.
  intros Hr Hf. pose proof (saveItemToCloud_outcome item w) as H. rewrite Hr in H.
  destruct H as (Hd & docId & _ & Hdocs & _).
  exists (snapshot_items (docs (after_run (saveItemToCloud item) w))). split.
  - apply loadItemsFromCloud_answer; [|done]. by rewrite saveItemToCloud_env.
  - rewrite snapshot_items_perm, Hdocs. apply list_elem_of_fmap.
    exists (docId, record). split; [done|]. apply doc_set_named.
Qed.

Lemma cloud_save_then_load_witness :
  exists l,
    result loadItemsFromCloud
      (after_run (saveItemToCloud (Scenario.note (VStr "n1") "keep me"))
         (Scenario.fresh Scenario.configured)) = Ok l
    /\ <["updatedAt" := VNum 1700000000000]> (Scenario.note (VStr "n1") "keep me") ∈ l.
Proof.
  apply (cloud_save_then_load (Scenario.note (VStr "n1") "keep me")
           (<["updatedAt" := VNum 1700000000000]> (Scenario.note (VStr "n1") "keep me"))
           (Scenario.fresh Scenario.configured)); reflexivity.
Defined.

(** X9. [deleteItemFromCloud], with the remote store set up, on an item
    whose [id] has a text.  When the request that deletes the document
    faults, the call throws and nothing is deleted.  Otherwise the call
    returns, no document of that name is left and the others are as before;
    the blob of the item is deleted only for a file marked [isCloudStored]
    and only when that second request goes through: its fault is swallowed. *)
Theorem deleteItemFromCloud_removes_document (item : Item) (docId : string) (w : World) :
  db_ready (env w) = true ->
  method_toString (prop item "id") = Some docId ->
  let w' := after_run (deleteItemFromCloud item) w in
  if next_fault Cloud w
  then (exists e, result (deleteItemFromCloud item) w = Throw e)
       /\ docs w' = docs w /\ blobs w' = blobs w
  else result (deleteItemFromCloud item) w = Ok tt
       /\ (forall x, (docId, x) ∉ docs w')
       /\ (forall i x, i <> docId -> (i, x) ∈ docs w' <-> (i, x) ∈ docs w)
       /\ blobs w'
          = if strict_eq (prop item "type") (VStr "file")
               && truthy (prop item "isCloudStored")
               && negb (next_fault Cloud (pop_fault Cloud w))
            then delete (storage_path item) (blobs w)
            else blobs w.
Proof.
  unfold next_fault, faults. intros Hd Hid.
  unfold deleteItemFromCloud, cloud_request. run. rewrite Hd, Hid. simpl.
  destruct (hd false (cloud_faults w)); simpl; [by split; [eexists|]|].
  destruct (strict_eq (prop item "type") (VStr "file") && truthy (prop item "isCloudStored"));
    simpl.
  - destruct (hd false (tl (cloud_faults w))); simpl.
    + split; [done|]. split; [intros x; apply doc_delete_named|].
      split; [|done]. intros i x Hne. by apply doc_delete_others.
    + split; [done|]. split; [intros x; apply doc_delete_named|].
      split; [|done]. intros i x Hne. by apply doc_delete_others.
  - split; [done|]. split; [intros x; apply doc_delete_named|].
    split; [|done]. intros i x Hne. by apply doc_delete_others.
Qed.

Lemma deleteItemFromCloud_removes_document_witness :
  let w := Scenario.two_notes_synced in
  let w' := after_run (deleteItemFromCloud Scenario.first_doc) w in
  let docId := "3f2b8c1e-0d4a-4e6f-9a7b-000000000000" in
  result (deleteItemFromCloud Scenario.first_doc) w = Ok tt
  /\ (forall x, (docId, x) ∉ docs w')
  /\ (forall i x, i <> docId -> (i, x) ∈ docs w' <-> (i, x) ∈ docs w)
  /\ blobs w' = blobs w.
Proof.
  apply (deleteItemFromCloud_removes_document Scenario.first_doc
           "3f2b8c1e-0d4a-4e6f-9a7b-000000000000" Scenario.two_notes_synced);
    reflexivity.
Defined.

(** X10. Without a remote store ([db] is not set: the configuration
    holds the placeholders, or the initialisation threw) the adapter does
    nothing: [saveItemToCloud] returns [null], [loadItemsFromCloud] the
    empty array, [deleteItemFromCloud] returns, [subscribeToItems] installs
    no listener, and none of them writes or makes a request. *)
Theorem unconfigured_adapter_is_inert (item : Item) (callback : list Item -> M unit)
    (w : World) :
  db_ready (env w) = false ->
  result (saveItemToCloud item) w = Ok None
  /\ result loadItemsFromCloud w = Ok []
  /\ result (deleteItemFromCloud item) w = Ok tt
  /\ result (subscribeToItems callback) w = Ok None
  /\ remote_side (after_run (saveItemToCloud item) w) = remote_side w
  /\ remote_side (after_run loadItemsFromCloud w) = remote_side w
  /\ remote_side (after_run (deleteItemFromCloud item) w) = remote_side w
  /\ after_run (subscribeToItems callback) w = w.
Proof.
  intros Hd. unfold remote_side, saveItemToCloud, loadItemsFromCloud, deleteItemFromCloud,
    subscribeToItems.
  run. rewrite Hd. simpl. done.
Qed.

Lemma unconfigured_adapter_is_inert_witness :
  let w := Scenario.one_local_note in
  let item := Scenario.note (VStr "n1") "keep me" in
  result (saveItemToCloud item) w = Ok None
  /\ result loadItemsFromCloud w = Ok []
  /\ result (deleteItemFromCloud item) w = Ok tt
  /\ result (subscribeToItems on_cloud_items) w = Ok None
  /\ remote_side (after_run (saveItemToCloud item) w) = remote_side w
  /\ remote_side (after_run loadItemsFromCloud w) = remote_side w
  /\ remote_side (after_run (deleteItemFromCloud item) w) = remote_side w
  /\ after_run (subscribeToItems on_cloud_items) w = w.
Proof.
  apply (unconfigured_adapter_is_inert (Scenario.note (VStr "n1") "keep me")
           on_cloud_items Scenario.one_local_note).
  reflexivity.
Defined.

(** X11. [loadItemsFromCloud] writes nothing.  Without a remote store, or
    when the read faults, it returns the empty array: a failed read looks
    like an empty collection.  Otherwise it returns every document once,
    and in descending order of [id] when every [id] converts to a number. *)
Theorem loadItemsFromCloud_reads (w : World) :
  let w' := after_run loadItemsFromCloud w in
  docs w' = docs w /\ blobs w' = blobs w
  /\ (db_ready (env w) = false \/ next_fault Cloud w = true ->
      result loadItemsFromCloud w = Ok [])
  /\ (db_ready (env w) = true -> next_fault Cloud w = false ->
      exists l, result loadItemsFromCloud w = Ok l
        /\ l ≡ₚ List.map snd (docs w)
        /\ ((forall it, it ∈ l -> is_Some (to_number (prop it "id"))) ->
            StronglySorted (fun a b => id_number b <= id_number a) l)).
Proof.
  split; [|split; [|split]].
  - unfold loadItemsFromCloud, cloud_request. run.
    destruct (db_ready (env w)); simpl; [|done].
    by destruct (hd false (cloud_faults w)).
  - unfold loadItemsFromCloud, cloud_request. run.
    destruct (db_ready (env w)); simpl; [|done].
    by destruct (hd false (cloud_faults w)).
  - intros [Hd|Hf]; [|by apply loadItemsFromCloud_fault].
    unfold loadItemsFromCloud. run. by rewrite Hd.
  - intros Hd Hf. exists (snapshot_items (docs w)).
    split; [by apply loadItemsFromCloud_answer|].
    split; [apply snapshot_items_perm|]. intros Hn.
    apply sort_desc. intros a b Ha Hb.
    destruct (Hn a) as [x Hx]; [by rewrite snapshot_items_perm|].
    destruct (Hn b) as [y Hy]; [by rewrite snapshot_items_perm|].
    unfold by_id_desc, js_sub, id_number. by rewrite Hx, Hy.
Qed.

Example numeric_ids_are_read_newest_first :
  result loadItemsFromCloud Scenario.remote_and_local_differ
  = Ok [Scenario.note (VNum 1700000000002) "second";
        Scenario.note (VNum 1700000000001) "first"].
Proof. reflexivity. Qed.

(* ===================================================================== *)
(** ** Deleting an item *)
(* ===================================================================== *)

Lemma gets_bind {A B} (g : World -> A) (k : A -> M B) w : (gets g ≫= k) w = k (g w) w.
Proof. reflexivity. Qed.

Lemma request_cloud_local : preserves local_side (request Cloud).
Proof. by intros w. Qed.
Lemma request_open_remote : preserves remote_side (request IdbOpen).
Proof. by intros w. Qed.
Lemma request_count_remote : preserves remote_side (request IdbCount).
Proof. by intros w. Qed.
Lemma request_write_remote : preserves remote_side (request IdbWrite).
Proof. by intros w. Qed.
Lemma request_read_remote : preserves remote_side (request IdbRead).
Proof. by intros w. Qed.
#[global] Hint Resolve request_cloud_local request_open_remote request_count_remote
  request_write_remote request_read_remote : frame.

Lemma saveItemToCloud_local item : preserves local_side (saveItemToCloud item).
Proof.
  unfold saveItemToCloud, setDoc, uploadBytes, getDownloadURL, is_inline_file,
    cloud_request, emit.
  frame.
Qed.

Lemma deleteItemFromCloud_local item : preserves local_side (deleteItemFromCloud item).
Proof. unfold deleteItemFromCloud, cloud_request, emit. frame. Qed.

Lemma deleteItemFromCloud_app item : preserves app (deleteItemFromCloud item).
Proof. unfold deleteItemFromCloud, cloud_request, emit. frame. Qed.

Lemma saveItemsToDB_remote l force : preserves remote_side (saveItemsToDB l force).
Proof.
  unfold saveItemsToDB, openDatabase, existing_count, replace_transaction, emit.
  frame.
Qed.

Lemma saveItems_remote l : preserves remote_side (saveItems l).
Proof.
  unfold saveItems, getStorageEstimate, setStorageInfo, setSyncStatus, setIsSaving,
    showNotification, setNotification, set_state, emit.
  frame; apply saveItemsToDB_remote.
Qed.
#[global] Hint Resolve saveItemToCloud_local deleteItemFromCloud_local deleteItemFromCloud_app
  saveItemsToDB_remote saveItems_remote : frame.

Lemma deleteItem_run id w :
  let rem := List.filter (fun item => negb (strict_eq (prop item "id") id)) (items (app w)) in
  exists w1, app w1 = app w /\ local_side w1 = local_side w
    /\ (cloudEnabled (app w) = false -> w1 = w)
    /\ deleteItem id true w
       = (setItems rem;; saveItemsToDB rem true;; showNotification "Item deleted" "success") w1.
Proof.
  intros rem. unfold deleteItem. rewrite !gets_bind.
  match goal with |- context [(?m ≫= _) w] => set (cloudpart := m) end.
  assert (Hn : no_throw cloudpart).
  { subst cloudpart. nothrow. }
  assert (Ha : preserves app cloudpart).
  { subst cloudpart. frame. }
  assert (Hl : preserves local_side cloudpart).
  { subst cloudpart. frame. }
  assert (Hoff : cloudEnabled (app w) = false -> after_run cloudpart w = w).
  { intros Hc. subst cloudpart. rewrite Hc. by destruct (find _ _). }
  destruct (Hn w) as [[] Hr]. specialize (Ha w). specialize (Hl w).
  unfold result, after_run in *. destruct (cloudpart w) as [r w1] eqn:E.
  simpl in *. subst r. exists w1. split; [done|]. split; [done|]. split; [done|].
  by rewrite (bind_ok _ _ _ _ _ E).
Qed.

Lemma keys_of_filter (P : Item -> bool) l : forall ks,
  keys_of l = Some ks ->
  exists fs, keys_of (List.filter P l) = Some fs /\ fs `sublist_of` ks.
Proof.
  induction l as [|it l IH]; intros ks Hk.
  - injection Hk as <-. by exists [].
  - rewrite keys_of_cons in Hk.
    destruct (key_of (prop it "id")) as [k|] eqn:Ek; [|done]. simpl in Hk.
    destruct (keys_of l) as [ks'|] eqn:El; [|done]. simpl in Hk. injection Hk as <-.
    destruct (IH ks' eq_refl) as (fs & Hf & Hsub).
    cbn [List.filter]. destruct (P it).
    + exists (k :: fs). rewrite keys_of_cons, Ek, Hf. split; [done|].
      by apply sublist_skip.
    + exists fs. split; [done|]. by apply sublist_cons.
Qed.

(** What the store can hold, it can hold without some of the items. *)
Lemma storable_filter (P : Item -> bool) l : storable l -> storable (List.filter P l).
Proof.
  intros (ks & Hk & Hnd).
  destruct (keys_of_filter P l ks Hk) as (fs & Hf & Hsub).
  exists fs. split; [done|]. by apply (sublist_NoDup fs ks).
Qed.

(** A forced save resolves exactly when the database opens, the
    transaction does not fault and the store can hold the collection. *)
Lemma saveItemsToDB_forced l w :
  (next_fault IdbOpen w = false /\ next_fault IdbWrite w = false /\ storable l
   -> result (saveItemsToDB l true) w = Ok tt)
  /\ (forall e, result (saveItemsToDB l true) w = Throw e ->
        next_fault IdbOpen w = true \/ next_fault IdbWrite w = true \/ ~ storable l).
Proof.
  unfold next_fault, faults. unfold saveItemsToDB, openDatabase, replace_transaction. run.
  rewrite andb_false_r.
  destruct (hd false (open_faults w)); simpl.
  { split; [by intros [? _]|]. intros _ _. by left. }
  destruct (hd false (write_faults w)); simpl.
  { split; [by intros (_ & ? & _)|]. intros _ _. right. by left. }
  destruct (add_all l []) as [s|] eqn:E; simpl.
  - split; [done|]. done.
  - split.
    + intros (_ & _ & Hs). apply add_all_storable in Hs as [s Hs]. congruence.
    + intros _ _. right. right. intros Hs.
      apply add_all_storable in Hs as [s Hs]. congruence.
Qed.

(** X12. A confirmed [deleteItem] leaves in the collection exactly the
    items whose [id] is not the given one, in their order, whether or not
    the local save then goes through; a deletion that is not confirmed
    changes nothing at all. *)
Theorem deleteItem_removes (id : Value) (w : World) :
  let remaining :=
    List.filter (fun item => negb (strict_eq (prop item "id") id)) (items (app w)) in
  let w' := after_run (deleteItem id true) w in
  items (app w') = remaining
  /\ Forall (fun item => strict_eq (prop item "id") id = false) (items (app w'))
  /\ after_run (deleteItem id false) w = w.
Proof.
  intros remaining w'.
  assert (H : items (app w') = remaining).
  { subst w'. destruct (deleteItem_run id w) as (w1 & Ha & _ & _ & Hrun).
    unfold after_run. rewrite Hrun. fold remaining.
    apply (items_after_setItems remaining). intros _. frame. }
  split; [done|]. split; [|done]. rewrite H. subst remaining.
  apply Forall_forall. intros item Hin.
  apply list_elem_of_In, filter_In in Hin as [_ Hin]. by apply negb_true_iff.
Qed.

(** The store after [saveItemsToDB], by its outcome. *)
Lemma saveItemsToDB_outcome l force w :
  let w' := after_run (saveItemsToDB l force) w in
  match result (saveItemsToDB l force) w with
  | Ok _ => l <> [] \/ force = true -> add_all l [] = Some (idb w')
  | Throw e => idb w' = idb w
  end.
Proof.
  unfold saveItemsToDB, openDatabase, existing_count, replace_transaction. run.
  destruct (hd false (open_faults w)); simpl; [done|].
  destruct ((length l =? 0)%nat && negb force) eqn:Hg; simpl.
  - assert (Hno : ~ (l <> [] \/ force = true)).
    { apply andb_true_iff in Hg as [Hl Hf]. apply negb_true_iff in Hf.
      intros [Hne| ->]; [|done]. by destruct l. }
    destruct (0 <? (if hd false (count_faults w) then 0 else length (idb w)))%nat; simpl;
      [done|].
    destruct (hd false (write_faults w)); simpl; [done|].
    by destruct (add_all l []).
  - destruct (hd false (write_faults w)); simpl; [done|].
    by destruct (add_all l []).
Qed.

Lemma local_side_faults w1 w :
  local_side w1 = local_side w ->
  idb w1 = idb w
  /\ next_fault IdbOpen w1 = next_fault IdbOpen w
  /\ next_fault IdbWrite w1 = next_fault IdbWrite w.
Proof. unfold local_side, next_fault, faults. by intros [= -> -> _ -> _]. Qed.

Lemma setItems_run l w :
  exists w2, setItems l w = (Ok tt, w2)
    /\ local_side w2 = local_side w /\ remote_side w2 = remote_side w
    /\ items (app w2) = l /\ notification (app w2) = notification (app w)
    /\ log w2 = log w ++ [EvSetItems l].
Proof. eexists. split; [reflexivity|]. by repeat split. Qed.

(** X13. When the database opens, the transaction does not fault and
    the store can hold the collection, a confirmed [deleteItem] resolves,
    the records of the store are exactly the items left (none, when the
    last item was deleted: the save is forced), and the notification is
    [Item deleted]. *)
Theorem deleteItem_persists (id : Value) (w : World) :
  next_fault IdbOpen w = false -> next_fault IdbWrite w = false ->
  storable (items (app w)) ->
  let w' := after_run (deleteItem id true) w in
  result (deleteItem id true) w = Ok tt
  /\ List.map snd (idb w') ≡ₚ items (app w')
  /\ notification (app w') = Some item_deleted.
Proof.
  intros Ho Hw Hst w'. subst w'.
  destruct (deleteItem_run id w) as (w1 & Ha & Hl & _ & Hrun).
  set (rem := List.filter _ _) in *.
  destruct (setItems_run rem w1) as (w2 & E2 & Hl2 & _ & Hi2 & _ & _).
  unfold result, after_run. rewrite Hrun, (bind_ok _ _ _ _ _ E2).
  rewrite Hl in Hl2. apply local_side_faults in Hl2 as (_ & Ho2 & Hw2).
  destruct (saveItemsToDB_forced rem w2) as [Hok _].
  assert (Hres : result (saveItemsToDB rem true) w2 = Ok tt).
  { apply Hok. rewrite Ho2, Hw2. split; [done|]. split; [done|]. by apply storable_filter. }
  clear Hok.
  pose proof (saveItemsToDB_outcome rem true w2) as Hout.
  pose proof (saveItemsToDB_app rem true w2) as Happ.
  unfold result, after_run in *.
  destruct (saveItemsToDB rem true w2) as [r w3] eqn:E3. simpl in *. subst r.
  rewrite (bind_ok _ _ _ _ _ E3). simpl.
  split; [done|]. split; [|done].
  rewrite Happ, Hi2. apply add_all_key_ordered. apply Hout. by right.
Qed.

Lemma deleteItem_persists_witness :
  let w := with_app (Scenario.loaded false [Scenario.note (VStr "n1") "keep me"]) Scenario.one_local_note in
  let w' := after_run (deleteItem (VStr "n1") true) w in
  result (deleteItem (VStr "n1") true) w = Ok tt
  /\ List.map snd (idb w') ≡ₚ items (app w')
  /\ notification (app w') = Some item_deleted.
Proof.
  apply (deleteItem_persists (VStr "n1")
           (with_app (Scenario.loaded false [Scenario.note (VStr "n1") "keep me"]) Scenario.one_local_note));
    [reflexivity | reflexivity |].
  exists [KStr "n1"]. split; [reflexivity | apply NoDup_singleton].
Defined.

(** Deleting the only item empties the store, where saving the empty
    collection without force would have kept the record. *)
Example last_deletion_empties_the_store :
  let w := with_app (Scenario.loaded false [Scenario.note (VStr "n1") "keep me"]) Scenario.one_local_note in
  idb (after_run (deleteItem (VStr "n1") true) w) = []
  /\ length (idb (after_run (saveItems []) w)) = 1%nat.
Proof. split; reflexivity. Qed.

(** X14. [deleteItem] does not catch a failure of the local save.  When
    it rejects, the database did not open, or the transaction faulted, or
    the store cannot hold the items left; by then the collection has lost
    the item, while the store is as it was and no notification was shown. *)
Theorem deleteItem_rejects_after_publishing (id : Value) (w : World) (e : string) :
  result (deleteItem id true) w = Throw e ->
  let w' := after_run (deleteItem id true) w in
  (next_fault IdbOpen w = true \/ next_fault IdbWrite w = true
   \/ ~ storable (items (app w')))
  /\ Forall (fun item => strict_eq (prop item "id") id = false) (items (app w'))
  /\ idb w' = idb w
  /\ notification (app w') = notification (app w).
Proof.
  intros Hr w'. subst w'. revert Hr.
  destruct (deleteItem_run id w) as (w1 & Ha & Hl & _ & Hrun).
  set (rem := List.filter _ _) in *.
  destruct (setItems_run rem w1) as (w2 & E2 & Hl2 & _ & Hi2 & Hn2 & _).
  unfold result, after_run. rewrite Hrun, (bind_ok _ _ _ _ _ E2).
  rewrite Hl in Hl2. apply local_side_faults in Hl2 as (Hidb & Ho2 & Hw2).
  destruct (saveItemsToDB_forced rem w2) as [_ Hthrow].
  pose proof (saveItemsToDB_outcome rem true w2) as Hout.
  pose proof (saveItemsToDB_app rem true w2) as Happ.
  unfold result, after_run in *.
  destruct (saveItemsToDB rem true w2) as [[[]|e'] w3] eqn:E3; simpl in *.
  { rewrite (bind_ok _ _ _ _ _ E3). done. }
  unfold mbind, M_bind. rewrite E3. simpl. intros _.
  rewrite Happ, Hi2, Hn2, Ha, Hout, Hidb.
  split; [rewrite <- Ho2, <- Hw2; by apply (Hthrow e')|].
  split; [|done].
  apply Forall_forall. intros item Hin.
  apply list_elem_of_In, filter_In in Hin as [_ Hin]. by apply negb_true_iff.
Qed.

Lemma deleteItem_rejects_after_publishing_witness :
  let w := with_faults (fun op => match op with IdbWrite => [true] | _ => [] end)
             (with_app (Scenario.loaded false [Scenario.note (VStr "n1") "keep me"]) Scenario.one_local_note) in
  let w' := after_run (deleteItem (VStr "n1") true) w in
  (next_fault IdbOpen w = true \/ next_fault IdbWrite w = true
   \/ ~ storable (items (app w')))
  /\ Forall (fun item => strict_eq (prop item "id") (VStr "n1") = false) (items (app w'))
  /\ idb w' = idb w
  /\ notification (app w') = notification (app w).
Proof.
  apply (deleteItem_rejects_after_publishing (VStr "n1")
           (with_faults (fun op => match op with IdbWrite => [true] | _ => [] end)
              (with_app (Scenario.loaded false [Scenario.note (VStr "n1") "keep me"]) Scenario.one_local_note))
           "transaction error").
  reflexivity.
Defined.

(* ===================================================================== *)
(** ** Saving from the component; adding and toggling *)
(* ===================================================================== *)

(** [saveItemsToDB] does not look at the component. *)
Lemma saveItemsToDB_with_app l force a w :
  saveItemsToDB l force (with_app a w)
  = (fst (saveItemsToDB l force w), with_app a (snd (saveItemsToDB l force w))).
Proof.
  unfold saveItemsToDB, openDatabase, existing_count, replace_transaction. run.
  destruct (hd false (open_faults w)); simpl; [done|].
  destruct ((length l =? 0)%nat && negb force); simpl.
  - destruct (0 <? (if hd false (count_faults w) then 0 else length (idb w)))%nat; simpl;
      [done|].
    destruct (hd false (write_faults w)); simpl; [done|].
    by destruct (add_all l []).
  - destruct (hd false (write_faults w)); simpl; [done|].
    by destruct (add_all l []).
Qed.

Lemma saveItems_outcome l w :
  let w' := after_run (saveItems l) w in
  let saved := after_run (saveItemsToDB l false) w in
  result (saveItems l) w = Ok tt
  /\ isSaving (app w') = false
  /\ items (app w') = items (app w)
  /\ noteText (app w') = noteText (app w)
  /\ cloudEnabled (app w') = cloudEnabled (app w)
  /\ local_side w' = local_side saved
  /\ remote_side w' = remote_side w
  /\ match result (saveItemsToDB l false) w with
     | Ok _ =>
         syncStatus (app w') = (if cloudEnabled (app w) then Synced else Offline)
         /\ notification (app w') = notification (app w)
         /\ storageInfo (app w') = estimate (env w)
     | Throw e =>
         syncStatus (app w') = Offline
         /\ notification (app w') = Some saving_failed
         /\ storageInfo (app w') = storageInfo (app w)
     end.
Proof.
  pose proof (saveItemsToDB_app l false w) as Happ.
  pose proof (saveItemsToDB_remote l false w) as Hrem.
  assert (Henv : env (after_run (saveItemsToDB l false) w) = env w).
  { unfold saveItemsToDB, openDatabase, existing_count, replace_transaction, emit. 
    generalize w. change (preserves env (saveItemsToDB l false)).
    unfold saveItemsToDB, openDatabase, existing_count, replace_transaction, emit. frame. }
  unfold saveItems, getStorageEstimate, setStorageInfo, setSyncStatus, setIsSaving,
    showNotification, setNotification.
  run. rewrite !saveItemsToDB_with_app.
  destruct (saveItemsToDB l false w) as [[[]|e] w3]; simpl in *.
  - rewrite ?Happ, ?Henv. by repeat split.
  - rewrite ?Happ. by repeat split.
Qed.

(** X15. [saveItems], on a collection whose [id]s are valid keys, resolves
    whatever the local store does, and never touches the remote side (it
    saves locally only).  It leaves the collection as it is and nothing
    saving.  If the local save resolved, the status is [synced] when remote
    sync is enabled and [offline] when not; if it rejected, the status is
    [offline], the notification is the error message and the store is as
    it was. *)
Theorem saveItems_settles (l : list Item) (ks : list Key) (w : World) :
  keys_of l = Some ks ->
  let w' := after_run (saveItems l) w in
  result (saveItems l) w = Ok tt
  /\ isSaving (app w') = false
  /\ items (app w') = items (app w)
  /\ remote_side w' = remote_side w
  /\ match result (saveItemsToDB l false) w with
     | Ok _ =>
         syncStatus (app w') = (if cloudEnabled (app w) then Synced else Offline)
         /\ notification (app w') = notification (app w)
     | Throw e =>
         syncStatus (app w') = Offline
         /\ notification (app w') = Some saving_failed
         /\ idb w' = idb w
     end.
Proof.
  intros _ w'. subst w'.
  destruct (saveItems_outcome l w) as (Hres & Hs & Hi & _ & _ & Hl & Hr & Hm).
  pose proof (saveItemsToDB_outcome l false w) as Hout.
  split; [done|]. split; [done|]. split; [done|]. split; [done|].
  destruct (result (saveItemsToDB l false) w).
  - by destruct Hm as (? & ? & _).
  - destruct Hm as (? & ? & _). split; [done|]. split; [done|].
    apply local_side_faults in Hl as (Hidb & _). by rewrite Hidb.
Qed.

Lemma saveItems_settles_witness :
  let l := [Scenario.note (VStr "n1") "keep me"] in
  let w := Scenario.fresh Scenario.placeholders in
  let w' := after_run (saveItems l) w in
  result (saveItems l) w = Ok tt
  /\ isSaving (app w') = false
  /\ items (app w') = items (app w)
  /\ remote_side w' = remote_side w
  /\ match result (saveItemsToDB l false) w with
     | Ok _ =>
         syncStatus (app w') = (if cloudEnabled (app w) then Synced else Offline)
         /\ notification (app w') = notification (app w)
     | Throw e =>
         syncStatus (app w') = Offline
         /\ notification (app w') = Some saving_failed
         /\ idb w' = idb w
     end.
Proof.
  apply (saveItems_settles [Scenario.note (VStr "n1") "keep me"] [KStr "n1"]
           (Scenario.fresh Scenario.placeholders)).
  reflexivity.
Defined.

(** A save that gets to the transaction, of a collection that the store
    can hold. *)
Lemma saveItemsToDB_stores l force w :
  next_fault IdbOpen w = false -> next_fault IdbWrite w = false ->
  l <> [] \/ force = true -> storable l ->
  result (saveItemsToDB l force) w = Ok tt
  /\ List.map snd (idb (after_run (saveItemsToDB l force) w)) ≡ₚ l.
Proof.
  intros Ho Hw Hl Hst. unfold after_run, result.
  rewrite (saveItemsToDB_writes l force w Ho Hl).
  unfold next_fault, faults in *. unfold replace_transaction. run. rewrite Hw. simpl.
  apply add_all_storable in Hst as (s & E). rewrite E. simpl. split; [done|].
  by apply add_all_key_ordered.
Qed.

(** Publishing a collection and saving it, as the handlers do. *)
Lemma publish_and_save l w :
  exists w3, (setItems l;; saveItems l) w = (Ok tt, w3)
    /\ items (app w3) = l
    /\ isSaving (app w3) = false
    /\ noteText (app w3) = noteText (app w)
    /\ cloudEnabled (app w3) = cloudEnabled (app w)
    /\ remote_side w3 = remote_side w
    /\ (next_fault IdbOpen w = false -> next_fault IdbWrite w = false ->
        l <> [] -> storable l ->
        List.map snd (idb w3) ≡ₚ l
        /\ syncStatus (app w3) = (if cloudEnabled (app w) then Synced else Offline)
        /\ notification (app w3) = notification (app w)).
Proof.
  destruct (setItems_run l w) as (w2 & E2 & Hl2 & Hr2 & Hi2 & Hn2 & _).
  assert (Hc2 : cloudEnabled (app w2) = cloudEnabled (app w) /\ noteText (app w2) = noteText (app w)).
  { by injection E2 as <-. }
  destruct Hc2 as [Hc2 Ht2].
  destruct (saveItems_outcome l w2) as (Hres & Hs & Hi & Ht & Hc & Hl3 & Hr3 & Hm).
  unfold result, after_run in *. rewrite (bind_ok _ _ _ _ _ E2).
  destruct (saveItems l w2) as [r w3] eqn:E3. simpl in *. subst r.
  exists w3. split; [done|]. split; [congruence|]. split; [done|].
  split; [congruence|]. split; [congruence|]. split; [congruence|].
  intros Ho Hw Hne Hst. apply local_side_faults in Hl2 as (_ & Ho2 & Hw2).
  destruct (saveItemsToDB_stores l false w2) as [Hok Hrec];
    [congruence | congruence | by left | done |].
  unfold result, after_run in *. rewrite Hok in Hm. destruct Hm as (Hsy & Hno & _).
  apply local_side_faults in Hl3 as (Hidb & _). rewrite Hidb.
  split; [done|]. by rewrite Hsy, Hc2, Hno, Hn2.
Qed.

Lemma handleAddNote_run w :
  note_acceptable w = true ->
  let it := note_item (fresh_id (env w) (ids_used w)) (trim (noteText (app w)))
              (iso_clock (env w) (clock_reads w)) in
  exists w1, app w1 = app w /\ local_side w1 = local_side w
    /\ (cloudEnabled (app w) = false -> remote_side w1 = remote_side w)
    /\ handleAddNote w
       = (setItems (it :: items (app w));; saveItems (it :: items (app w));;
          setNoteText EmptyString;;
          showNotification "Note added successfully!" "success") w1.
Proof.
  intros Ha it. unfold note_acceptable in Ha.
  apply andb_true_iff in Ha as [Ha Hc]. apply andb_true_iff in Ha as [He Hl].
  apply negb_true_iff in He.
  rewrite Nat.leb_antisym in Hl. apply negb_true_iff in Hl.
  rewrite Nat.ltb_antisym in Hc. apply negb_true_iff in Hc.
  unfold handleAddNote. rewrite !gets_bind. rewrite He, Hl, Hc.
  rewrite (bind_ok generateId _ w _ _ eq_refl).
  rewrite (bind_ok now_iso _ _ _ _ eq_refl).
  fold it.
  match goal with |- context [(?m ≫= _) ?w0] => set (cloudpart := m); set (wb := w0) end.
  assert (Hn : no_throw cloudpart).
  { subst cloudpart. nothrow. }
  assert (Ha : preserves app cloudpart).
  { subst cloudpart. frame. }
  assert (Hlo : preserves local_side cloudpart).
  { subst cloudpart. frame. }
  assert (Hoff : cloudEnabled (app w) = false -> after_run cloudpart wb = wb).
  { intros Hoff. subst cloudpart. by rewrite Hoff. }
  destruct (Hn wb) as [[] Hr]. specialize (Ha wb). specialize (Hlo wb).
  unfold result, after_run in *. destruct (cloudpart wb) as [r w1] eqn:E.
  simpl in *. subst r. exists w1. split; [done|]. split; [done|].
  split; [intros Hoff'; by rewrite (Hoff Hoff')|].
  by rewrite (bind_ok _ _ _ _ _ E).
Qed.

(** X16. What [handleAddNote] does with a note that passes the checks,
    the [id]s of the collection being valid keys.  The trimmed text becomes a note with a fresh [id], put in front of the
    collection; the field is cleared, nothing is left saving, and the
    notification is [Note added successfully!], whatever became of the
    saves.  When the local store takes the collection, its records are the
    new collection and the status is [synced] if remote sync is enabled,
    whether or not the remote write went through, [offline] otherwise. *)
Theorem handleAddNote_adds (w : World) (ks : list Key) :
  note_acceptable w = true ->
  keys_of (items (app w)) = Some ks ->
  let it := note_item (fresh_id (env w) (ids_used w)) (trim (noteText (app w)))
              (iso_clock (env w) (clock_reads w)) in
  let w' := after_run handleAddNote w in
  items (app w') = it :: items (app w)
  /\ noteText (app w') = EmptyString
  /\ notification (app w') = Some note_added
  /\ isSaving (app w') = false
  /\ (next_fault IdbOpen w = false -> next_fault IdbWrite w = false ->
      storable (it :: items (app w)) ->
      List.map snd (idb w') ≡ₚ it :: items (app w)
      /\ syncStatus (app w') = (if cloudEnabled (app w) then Synced else Offline)).
Proof.
  intros Ha _ it w'. subst w'.
  destruct (handleAddNote_run w Ha) as (w1 & Happ & Hl & _ & Hrun). fold it in Hrun.
  destruct (publish_and_save (it :: items (app w)) w1)
    as (w3 & E3 & Hi & Hs & Ht & Hc & _ & Hst).
  unfold after_run. rewrite Hrun.
  change ((setItems (it :: items (app w));; saveItems (it :: items (app w));;
           setNoteText EmptyString;; showNotification "Note added successfully!" "success") w1)
    with (((setItems (it :: items (app w));; saveItems (it :: items (app w))) ≫=
           (fun _ => setNoteText EmptyString;;
                     showNotification "Note added successfully!" "success")) w1).
  rewrite (bind_ok _ _ _ _ _ E3). simpl.
  split; [done|]. split; [done|]. split; [done|]. split; [done|].
  intros Ho Hw Hsto. apply local_side_faults in Hl as (_ & Ho1 & Hw1).
  destruct Hst as (Hrec & Hsy & _); [congruence|congruence|done|done|].
  split; [done|]. by rewrite Hsy, Happ.
Qed.

Lemma handleAddNote_adds_witness :
  let w := Scenario.typing_hello in
  let it := note_item "3f2b8c1e-0d4a-4e6f-9a7b-000000000000" "hello"
              "2023-11-14T22:13:00.000Z" in
  let w' := after_run handleAddNote w in
  items (app w') = it :: items (app w)
  /\ noteText (app w') = EmptyString
  /\ notification (app w') = Some note_added
  /\ isSaving (app w') = false
  /\ (next_fault IdbOpen w = false -> next_fault IdbWrite w = false ->
      storable (it :: items (app w)) ->
      List.map snd (idb w') ≡ₚ it :: items (app w)
      /\ syncStatus (app w') = (if cloudEnabled (app w) then Synced else Offline)).
Proof. apply (handleAddNote_adds Scenario.typing_hello []); reflexivity. Defined.

(** The note is announced as added although neither store took it. *)
Example note_announced_though_not_saved :
  let w := with_faults (fun op => match op with IdbOpen | Cloud => [true] | _ => [] end)
             Scenario.typing_hello in
  let w' := after_run handleAddNote w in
  notification (app w') = Some note_added
  /\ idb w' = [] /\ docs w' = []
  /\ syncStatus (app w') = Offline.
Proof. split; [reflexivity|]. split; [reflexivity|]. split; reflexivity. Qed.

Lemma deleteItem_items id w :
  items (app (after_run (deleteItem id true) w))
  = List.filter (fun item => negb (strict_eq (prop item "id") id)) (items (app w)).
Proof.
  destruct (deleteItem_run id w) as (w1 & Ha & _ & _ & Hrun).
  unfold after_run. rewrite Hrun.
  apply (items_after_setItems _). intros _. frame.
Qed.

Lemma handleAddNote_items w :
  note_acceptable w = true ->
  items (app (after_run handleAddNote w))
  = note_item (fresh_id (env w) (ids_used w)) (trim (noteText (app w)))
      (iso_clock (env w) (clock_reads w)) :: items (app w).
Proof.
  intros Ha. destruct (handleAddNote_run w Ha) as (w1 & Happ & _ & _ & Hrun).
  unfold after_run. rewrite Hrun.
  apply (items_after_setItems _). intros _. unfold setNoteText, set_state. frame.
Qed.

Lemma filter_all {A} (P : A -> bool) l : Forall (fun x => P x = true) l -> List.filter P l = l.
Proof.
  induction 1 as [|x l Hx Hl IH]; simpl; [done|]. by rewrite Hx, IH.
Qed.

(** X17. Adding a note and then deleting the item of the [id] it was
    given restores the collection, provided no item had that [id]. *)
Theorem add_then_delete (w : World) :
  note_acceptable w = true ->
  let id := VStr (fresh_id (env w) (ids_used w)) in
  forallb (fun item => negb (strict_eq (prop item "id") id)) (items (app w)) = true ->
  items (app (after_run (deleteItem id true) (after_run handleAddNote w))) = items (app w).
Proof.
  intros Ha id Hfresh. rewrite deleteItem_items, (handleAddNote_items w Ha).
  cbn [List.filter].
  assert (Hid : strict_eq (prop (note_item (fresh_id (env w) (ids_used w))
                  (trim (noteText (app w))) (iso_clock (env w) (clock_reads w))) "id") id = true).
  { subst id. unfold note_item, prop. simpl. apply String.eqb_refl. }
  rewrite Hid. simpl. apply filter_all.
  apply Forall_forall. intros x Hx. rewrite forallb_forall in Hfresh.
  apply Hfresh. by apply list_elem_of_In.
Qed.

Lemma add_then_delete_witness :
  items (app (after_run (deleteItem (VStr "3f2b8c1e-0d4a-4e6f-9a7b-000000000002") true)
                (after_run handleAddNote
                   (after_run (setNoteText "third") Scenario.two_notes_synced))))
  = items (app (after_run (setNoteText "third") Scenario.two_notes_synced)).
Proof.
  apply (add_then_delete (after_run (setNoteText "third") Scenario.two_notes_synced));
    vm_compute; reflexivity.
Defined.

Lemma toggle_item_twice id item :
  flag_is_boolean item = true ->
  toggle_item id (toggle_item id item) = item.
Proof.
  unfold flag_is_boolean. intros Hb.
  destruct (item !! "important") as [[| |b| | | |]|] eqn:Hi; try done.
  unfold toggle_item.
  destruct (strict_eq (prop item "id") id) eqn:E; [|by rewrite E].
  assert (Hid : prop (<["important" := VBool (negb (truthy (prop item "important")))]> item) "id"
                = prop item "id").
  { unfold prop. by rewrite lookup_insert_ne. }
  rewrite Hid, E. unfold prop at 1. rewrite lookup_insert_eq. simpl.
  rewrite insert_insert_eq. unfold prop. rewrite Hi. simpl. rewrite negb_involutive.
  by apply insert_id.
Qed.

(** X18. Toggling the same [id] twice restores the collection, when
    the [important] flags are booleans (as they are on every item that the
    handlers make). *)
Theorem toggleImportant_twice (id : Value) (w : World) :
  forallb flag_is_boolean (items (app w)) = true ->
  items (app (after_run (toggleImportant id) (after_run (toggleImportant id) w)))
  = items (app w).
Proof.
  intros Hb. rewrite !toggleImportant_items.
  induction (items (app w)) as [|item l IH]; simpl in *; [done|].
  apply andb_true_iff in Hb as [Hitem Hl].
  by rewrite (toggle_item_twice id item Hitem), IH.
Qed.

Lemma toggleImportant_twice_witness :
  let w := Scenario.two_notes_synced in
  let id := VStr "3f2b8c1e-0d4a-4e6f-9a7b-000000000000" in
  items (app (after_run (toggleImportant id) (after_run (toggleImportant id) w)))
  = items (app w).
Proof.
  apply (toggleImportant_twice (VStr "3f2b8c1e-0d4a-4e6f-9a7b-000000000000")
           Scenario.two_notes_synced).
  vm_compute. reflexivity.
Defined.

(* ===================================================================== *)
(** ** Mutations without remote sync; handlers that cannot reject *)
(* ===================================================================== *)

Lemma phase_local_only hi evs : phase 2 hi evs -> local_only evs.
Proof.
  intros [_ H]. unfold local_only, steps in *. induction evs as [|e evs IH]; [constructor|].
  simpl in H. destruct (step_of e) as [s|] eqn:E.
  - simpl in H. apply Forall_cons in H as [Hs H]. constructor; [|by apply IH].
    rewrite E. intros [= ->]. simpl in Hs. lia.
  - constructor; [|by apply IH]. by rewrite E.
Qed.

Lemma upload_one_offline_emits held file cur :
  emits (phase 2 2) (upload_one held false file cur).
Proof.
  unfold upload_one, readAsDataURL, generateId, now_iso. emits_block.
Qed.

Lemma upload_loop_offline_emits held files cur :
  emits (phase 2 2) (upload_loop held false files cur).
Proof.
  revert cur. induction files as [|file files IH]; intros cur; simpl.
  - apply emits_ret.
  - emits_then 2%nat; [apply upload_one_offline_emits|apply IH].
Qed.

Lemma showNotification_remote message type : preserves remote_side (showNotification message type).
Proof. by intros w. Qed.
Lemma setItems_remote l : preserves remote_side (setItems l).
Proof. by intros w. Qed.
#[global] Hint Resolve showNotification_remote setItems_remote : frame.

Lemma validateFile_remote held file : preserves remote_side (validateFile held file).
Proof. unfold validateFile. frame. Qed.
#[global] Hint Resolve validateFile_remote : frame.

Lemma upload_one_offline_remote held file cur :
  preserves remote_side (upload_one held false file cur).
Proof. unfold upload_one, readAsDataURL, generateId, now_iso. frame. Qed.

Lemma upload_loop_offline_remote held files cur :
  preserves remote_side (upload_loop held false files cur).
Proof.
  revert cur. induction files as [|file files IH]; intros cur; simpl.
  - apply preserves_ret.
  - apply preserves_bind; [apply upload_one_offline_remote|intros ?; apply IH].
Qed.

#[global] Hint Resolve upload_loop_offline_remote : frame.

Lemma offline_run {A} (h m : M A) w :
  h w = m w -> emits (phase 2 3) m -> preserves remote_side m ->
  remote_side (after_run h w) = remote_side w /\ local_only (events_of h w).
Proof.
  intros Hrun He Hp. split.
  - unfold after_run. rewrite Hrun. apply Hp.
  - apply (phase_local_only 3). unfold events_of, after_run. rewrite Hrun.
    apply (events_of_emits m (phase 2 3) w He).
Qed.

Lemma toggleImportant_offline id w :
  cloudEnabled (app w) = false ->
  remote_side (after_run (toggleImportant id) w) = remote_side w
  /\ local_only (events_of (toggleImportant id) w).
Proof.
  intros Hoff.
  apply (offline_run _
           (setItems (List.map (toggle_item id) (items (app w)));;
            saveItems (List.map (toggle_item id) (items (app w))))).
  - unfold toggleImportant. rewrite !gets_bind, Hoff. reflexivity.
  - emits_then 2%nat; [apply setItems_emits|]. emits_within 3%nat 3%nat. emits_block.
  - frame.
Qed.

Lemma deleteItem_offline id confirmed w :
  cloudEnabled (app w) = false ->
  remote_side (after_run (deleteItem id confirmed) w) = remote_side w
  /\ local_only (events_of (deleteItem id confirmed) w).
Proof.
  intros Hoff. destruct confirmed.
  2: { split; [done|]. unfold events_of. simpl. rewrite drop_all. constructor. }
  set (rem := List.filter (fun item => negb (strict_eq (prop item "id") id)) (items (app w))).
  apply (offline_run _
           (setItems rem;; saveItemsToDB rem true;; showNotification "Item deleted" "success")).
  - unfold deleteItem. rewrite !gets_bind, Hoff. fold rem. by destruct (find _ _).
  - emits_then 2%nat; [apply setItems_emits|]. emits_within 3%nat 3%nat. emits_block.
  - frame.
Qed.

Lemma handleAddNote_offline w :
  cloudEnabled (app w) = false ->
  remote_side (after_run handleAddNote w) = remote_side w
  /\ local_only (events_of handleAddNote w).
Proof.
  intros Hoff. unfold handleAddNote.
  set (text := trim (noteText (app w))).
  apply (offline_run _
     (if String.eqb text EmptyString then showNotification "Please enter a note" "error"
      else if (MAX_NOTE_LENGTH <? String.length text)%nat then
        showNotification
          ("Note is too long. Max " +:+ pretty MAX_NOTE_LENGTH +:+ " characters.") "error"
      else if (MAX_ITEMS <=? length (items (app w)))%nat then
        showNotification
          ("Maximum " +:+ pretty MAX_ITEMS +:+ " items allowed. Please delete some items.")
          "error"
      else
        id ← generateId;
        createdAt ← now_iso;
        let newItems := note_item id text createdAt :: items (app w) in
        setItems newItems;; saveItems newItems;; setNoteText EmptyString;;
        showNotification "Note added successfully!" "success")).
  - rewrite !gets_bind, Hoff. fold text.
    destruct (String.eqb text EmptyString); [done|].
    destruct (MAX_NOTE_LENGTH <? String.length text)%nat; [done|].
    destruct (MAX_ITEMS <=? length (items (app w)))%nat; [done|]. reflexivity.
  - destruct (String.eqb _ _); [emits_within 2%nat 2%nat; emits_block|].
    destruct (_ <? _)%nat; [emits_within 2%nat 2%nat; emits_block|].
    destruct (_ <=? _)%nat; [emits_within 2%nat 2%nat; emits_block|].
    emits_then 2%nat; [unfold generateId; emits_block|].
    emits_then 2%nat; [unfold now_iso; emits_block|].
    simpl.
    emits_then 2%nat; [apply setItems_emits|].
    emits_within 3%nat 3%nat. unfold setNoteText, set_state. emits_block.
  - unfold generateId, now_iso, setNoteText, set_state. frame.
Qed.

Lemma handleFileUpload_offline files w :
  cloudEnabled (app w) = false ->
  remote_side (after_run (handleFileUpload files) w) = remote_side w
  /\ local_only (events_of (handleFileUpload files) w).
Proof.
  intros Hoff. destruct files as [|file files].
  { split; [done|]. unfold events_of. simpl. rewrite drop_all. constructor. }
  set (fs := file :: files).
  apply (offline_run _
     (setIsSaving true;; setSyncStatus Syncing;;
      currentItems ← upload_loop (items (app w)) false fs (items (app w));
      setItems currentItems;; saveItems currentItems;;
      showNotification (pretty (length fs) +:+ " file(s) uploaded!") "success";;
      setIsSaving false;; setSyncStatus Offline)).
  - unfold handleFileUpload. subst fs. cbv iota. rewrite !gets_bind, Hoff. reflexivity.
  - emits_then 2%nat; [unfold setIsSaving, set_state; emits_block|].
    emits_then 2%nat; [unfold setSyncStatus, set_state; emits_block|].
    emits_then 2%nat; [apply upload_loop_offline_emits|].
    emits_then 2%nat; [apply setItems_emits|].
    emits_within 3%nat 3%nat.
    unfold setIsSaving, setSyncStatus, set_state. emits_block.
  - unfold setIsSaving, setSyncStatus, set_state. frame.
Qed.

(** X19. While remote sync is not enabled, the four mutations stay local:
    [handleAddNote], [handleFileUpload], [toggleImportant] and [deleteItem]
    leave the documents and the blobs as they are, make no remote request,
    and do not even call the remote adapter. *)
Theorem offline_mutations_stay_local (w : World) :
  cloudEnabled (app w) = false ->
  (remote_side (after_run handleAddNote w) = remote_side w
   /\ local_only (events_of handleAddNote w))
  /\ (forall files,
        remote_side (after_run (handleFileUpload files) w) = remote_side w
        /\ local_only (events_of (handleFileUpload files) w))
  /\ (forall id,
        remote_side (after_run (toggleImportant id) w) = remote_side w
        /\ local_only (events_of (toggleImportant id) w))
  /\ (forall id confirmed,
        remote_side (after_run (deleteItem id confirmed) w) = remote_side w
        /\ local_only (events_of (deleteItem id confirmed) w)).
Proof.
  intros Hoff. split; [by apply handleAddNote_offline|].
  split; [intros files; by apply handleFileUpload_offline|].
  split; [intros id; by apply toggleImportant_offline|].
  intros id confirmed. by apply deleteItem_offline.
Qed.

Lemma offline_mutations_stay_local_witness :
  let w := Scenario.holding 1 in
  (remote_side (after_run handleAddNote w) = remote_side w
   /\ local_only (events_of handleAddNote w))
  /\ (forall files,
        remote_side (after_run (handleFileUpload files) w) = remote_side w
        /\ local_only (events_of (handleFileUpload files) w))
  /\ (forall id,
        remote_side (after_run (toggleImportant id) w) = remote_side w
        /\ local_only (events_of (toggleImportant id) w))
  /\ (forall id confirmed,
        remote_side (after_run (deleteItem id confirmed) w) = remote_side w
        /\ local_only (events_of (deleteItem id confirmed) w)).
Proof. apply (offline_mutations_stay_local (Scenario.holding 1)). reflexivity. Defined.

Lemma upload_loop_no_throw held cloud files cur :
  no_throw (upload_loop held cloud files cur).
Proof.
  intros w. destruct (upload_loop_spec held cloud files cur w) as (added & Hr & _).
  by eexists.
Qed.
#[global] Hint Resolve upload_loop_no_throw : nothrow.

(** X20. [handleAddNote], [handleFileUpload], [toggleImportant] and
    [loadItems] never reject: whatever the stores do, every failure is
    caught on the way. *)
Theorem handlers_never_reject (w : World) (e : string) :
  result handleAddNote w <> Throw e
  /\ (forall files, result (handleFileUpload files) w <> Throw e)
  /\ (forall id, result (toggleImportant id) w <> Throw e)
  /\ result loadItems w <> Throw e.
Proof.
  assert (Hn : forall (m : M unit), no_throw m -> result m w <> Throw e).
  { intros m Hm. destruct (Hm w) as [a Ha]. by rewrite Ha. }
  split; [|split; [|split]].
  - apply Hn.
    unfold handleAddNote, generateId, now_iso, setItems, setNoteText, emit, set_state. nothrow.
  - intros files. apply Hn.
    unfold handleFileUpload, setItems, setIsSaving, setSyncStatus, emit, set_state. nothrow.
  - intros id. apply Hn. unfold toggleImportant, setItems, emit, set_state. nothrow.
  - apply Hn, loadItems_no_throw.
Qed.

(* ===================================================================== *)
(** ** Uploading a selection of files *)
(* ===================================================================== *)

Lemma upload_one_exact held cloud file cur w :
  exists cur',
    result (upload_one held cloud file cur) w = Ok cur'
    /\ if uploadable held file
       then exists it, cur' = it :: cur /\ made_from file it
       else cur' = cur.
Proof.
  unfold upload_one, result, uploadable.
  pose proof (validateFile_result held file w) as Hr. unfold result in Hr.
  destruct (validateFile held file w) as [r w1] eqn:Ev. simpl in Hr. subst r.
  rewrite (bind_ok _ _ _ _ _ Ev).
  destruct (file_acceptable held file) eqn:Ha; simpl; [|by eexists].
  unfold readAsDataURL, generateId, now_iso, showNotification, setNotification.
  destruct (f_read file) as [data|]; run; [|by eexists].
  set (newItem := file_item _ file data _).
  assert (Hnew : made_from file newItem).
  { subst newItem. split; [|by repeat split].
    apply (file_acceptable_carries held); [done|reflexivity|reflexivity]. }
  destruct cloud; simpl; [|by eexists; split; [|eauto]].
  match goal with |- context [saveItemToCloud newItem ?w'] =>
    pose proof (saveItemToCloud_keeps newItem w') as Hk;
    unfold result in Hk; destruct (saveItemToCloud newItem w') as [[[it'|]|e] w2]
  end; simpl in *.
  - eexists. split; [done|]. eexists. split; [done|].
    destruct Hnew as (Hacc & Hty & Hna & Him).
    assert (Hsame : forall k, k <> "data" -> k <> "isCloudStored" -> k <> "updatedAt" ->
              prop it' k = prop newItem k).
    { intros k ? ? ?. unfold prop. by rewrite (Hk it' eq_refl). }
    split; [|by rewrite !Hsame].
    apply (file_acceptable_carries held); [done|..]; by rewrite Hsame.
  - eexists. split; [done|]. eauto.
  - eexists. split; [done|]. eauto.
Qed.

Lemma upload_loop_exact held cloud files : forall cur w,
  exists added,
    result (upload_loop held cloud files cur) w = Ok (added ++ cur)
    /\ Forall2 (fun it file => made_from file it) added
         (rev (List.filter (uploadable held) files)).
Proof.
  induction files as [|file files IH]; intros cur w; simpl.
  - exists []. split; [done|constructor].
  - destruct (upload_one_exact held cloud file cur w) as (cur' & Hr & Hc).
    unfold result in *. destruct (upload_one held cloud file cur w) as [r w1] eqn:E.
    simpl in Hr. subst r. rewrite (bind_ok _ _ _ _ _ E).
    destruct (IH cur' w1) as (added & Hr' & Hf). rewrite Hr'.
    destruct (uploadable held file).
    + destruct Hc as (it & -> & Hit). exists (added ++ [it]).
      split; [by rewrite <- app_assoc|]. simpl.
      apply Forall2_app; [done|]. constructor; [done|constructor].
    + subst cur'. by exists added.
Qed.

(** X21. [handleFileUpload] adds one item for each selected file that
    passes [validateFile] (against the collection held when the handler
    started) and that the reader delivers, in front of the collection and
    in the reverse of the order of selection; each carries the escaped name
    and the size of its file and is not important.  For a selection that is
    not empty the notification then announces the number of files selected,
    not of files added, nothing is left saving and the status is [synced]
    or [offline] by the remote-sync switch alone (the [id]s of the
    collection being valid keys); an empty selection changes nothing. *)
Theorem handleFileUpload_stacks (files : list File) (w : World) :
  let taken := List.filter (uploadable (items (app w))) files in
  let w' := after_run (handleFileUpload files) w in
  (exists added,
     items (app w') = added ++ items (app w)
     /\ Forall2 (fun it file => made_from file it) added (rev taken))
  /\ (files <> [] -> is_Some (keys_of (items (app w))) ->
      notification (app w') = Some (files_uploaded (length files))
      /\ isSaving (app w') = false
      /\ syncStatus (app w') = (if cloudEnabled (app w) then Synced else Offline))
  /\ (files = [] -> w' = w).
Proof.
  intros taken w'. subst taken w'. unfold handleFileUpload. destruct files as [|file files].
  { split; [|by split]. exists []. split; [done|constructor]. }
  rewrite !after_gets_bind.
  set (held := items (app w)). set (cloud := cloudEnabled (app w)).
  set (files' := file :: files).
  assert (Hne : files' <> []) by done. clearbody files'.
  rewrite (after_bind_result (setIsSaving true) _ _ tt) by reflexivity.
  rewrite (after_bind_result (setSyncStatus Syncing) _ _ tt) by reflexivity.
  set (w2 := after_run (setSyncStatus Syncing) _).
  destruct (upload_loop_exact held cloud files' held w2) as (added & Hr & Hf).
  rewrite (after_bind_result _ _ _ _ Hr).
  set (w3 := after_run (upload_loop held cloud files' held) w2).
  destruct (publish_and_save (added ++ held) w3) as (w4 & E4 & Hi & _).
  match goal with |- context [after_run ?m w3] =>
    change m with ((setItems (added ++ held);; saveItems (added ++ held)) ≫=
      (fun _ => showNotification (pretty (length files') +:+ " file(s) uploaded!") "success";;
                setIsSaving false;;
                setSyncStatus (if cloud then Synced else Offline)))
  end.
  rewrite (after_bind_result _ _ w3 tt) by (unfold result; by rewrite E4).
  unfold after_run at 2 4 6 8. rewrite E4. simpl.
  split; [by exists added|]. split; [done|]. intros ->. done.
Qed.

(** Of three files, the second of which cannot be read, the first and the
    third are added, the third in front. *)
Example unreadable_file_is_skipped :
  let unreadable :=
    {| f_name := "b.txt"; f_size := 2; f_type := "text/plain"; f_read := None |} in
  let third :=
    {| f_name := "<c>.txt"; f_size := 3; f_type := EmptyString;
       f_read := Some "data:;base64,AAAA" |} in
  let w := Scenario.holding 0 in
  let w' := after_run (handleFileUpload [Scenario.small_file; unreadable; third]) w in
  List.map (fun it => prop it "name") (items (app w'))
  = [VStr "&lt;c&gt;.txt"; VStr "a.txt"]
  /\ notification (app w') = Some (files_uploaded 3).
Proof. split; reflexivity. Qed.

(* ===================================================================== *)
(** ** Start-up: the local store *)
(* ===================================================================== *)

(** X22. Start-up without remote sync, when the local store answers.
    Remote sync is switched off, the status is [offline] and the remote
    side is not touched.  If the store holds records they become the
    collection, each once, and from the newest to the oldest when every
    [createdAt] is a date as [toISOString] writes it; the store and the
    legacy key are left as they are (a legacy list is not looked at).  If
    the store is empty and there is no legacy text, the collection is not
    set at all and nothing is written. *)
Theorem offline_startup_reads_local_store (w : World) :
  isUnlocked (app w) = true ->
  isFirebaseConfigured (config (env w)) = false ->
  next_fault IdbOpen w = false -> next_fault IdbRead w = false ->
  let w' := after_run loadItems w in
  cloudEnabled (app w') = false /\ syncStatus (app w') = Offline
  /\ remote_side w' = remote_side w
  /\ (idb w <> [] ->
      items (app w') ≡ₚ List.map snd (idb w)
      /\ (Forall (fun it => exists s t, prop it "createdAt" = VStr s
                                       /\ parse_iso s = Some t)
            (List.map snd (idb w)) ->
          StronglySorted (fun a b => created b <= created a) (items (app w')))
      /\ idb w' = idb w /\ legacy w' = legacy w
      /\ notification (app w') = notification (app w))
  /\ (idb w = [] -> legacy w = None \/ legacy w = Some EmptyString ->
      items (app w') = items (app w)
      /\ idb w' = [] /\ legacy w' = legacy w
      /\ forall l, EvSetItems l ∉ events_of loadItems w).
Proof.
  intros Hu Hc Ho Hr w'. subst w'.
  unfold loadItems, loadItemsFromDB, checkFirebaseConfig, requestPersistentStorage,
    setCloudEnabled, setSyncStatus, openDatabase, next_fault, faults in *.
  run; repeat (progress (rewrite ?Hu, ?Hc, ?Ho, ?Hr in *); simpl in * ).
  set (l := sort by_createdAt_desc (List.map snd (idb w))).
  destruct (sort_by_date (List.map snd (idb w))) as [Hperm Hsorted].
  fold l in Hperm, Hsorted.
  assert (Hl1 : idb w <> [] -> l <> []).
  { intros Hne Hnil. pose proof (sort_perm by_createdAt_desc (List.map snd (idb w))) as Hp.
    fold l in Hp. rewrite Hnil in Hp. apply Permutation_nil in Hp.
    destruct (idb w); done. }
  assert (Hl0 : idb w = [] -> l = []).
  { intros He. subst l. by rewrite He. }
  clearbody l. destruct l as [|x l]; simpl.
  - assert (He : idb w = []).
    { destruct (idb w) eqn:E; [done|]. by destruct Hl1. }
    clear Hl0 Hl1.
    destruct (legacy w) as [text|] eqn:El.
    + destruct (String.eqb text EmptyString) eqn:Et; simpl.
      * unfold getStorageEstimate, setStorageInfo, arm_load_timer, set_load_flags.
        run. split; [done|]. split; [done|]. split; [done|].
        split; [done|]. intros _ _. split; [done|]. split; [done|]. split; [done|].
        intros l. log_norm. not_in_log.
      * set (parsed := safeJSONParse (JSON_parse (env w)) text []). clearbody parsed.
        assert (Hno : ~ (Some text = None \/ Some text = Some EmptyString)).
        { intros [?|[= ->]]; [done|by simpl in Et]. }
        destruct parsed as [|p ps]; simpl.
        { unfold setItems, getStorageEstimate, setStorageInfo, arm_load_timer, set_load_flags.
          run. split; [done|]. split; [done|]. split; [done|]. split; [done|].
          intros _ H. by destruct Hno. }
        unfold saveItemsToDB, setItems, openDatabase, replace_transaction, showNotification,
          setNotification, getStorageEstimate, setStorageInfo, arm_load_timer, set_load_flags,
          removeLegacy.
        run.
        destruct (hd false (tl (open_faults w))); simpl.
        { split; [done|]. split; [done|]. split; [done|]. split; [done|].
          intros _ H. by destruct Hno. }
        destruct (hd false (write_faults w)); simpl.
        { split; [done|]. split; [done|]. split; [done|]. split; [done|].
          intros _ H. by destruct Hno. }
        destruct (add_all (p :: ps) []); simpl.
        { split; [done|]. split; [done|]. split; [done|]. split; [done|].
          intros _ H. by destruct Hno. }
        split; [done|]. split; [done|]. split; [done|]. split; [done|].
        intros _ H. by destruct Hno.
    + unfold getStorageEstimate, setStorageInfo, arm_load_timer, set_load_flags.
      run. split; [done|]. split; [done|]. split; [done|].
      split; [done|]. intros _ _. split; [done|]. split; [done|]. split; [done|].
      intros l. log_norm. not_in_log.
  - unfold setItems, getStorageEstimate, setStorageInfo, arm_load_timer, set_load_flags.
    run. split; [done|]. split; [done|]. split; [done|].
    split; [intros _; split; [exact Hperm|]; split; [exact Hsorted|done]|].
    intros He. by specialize (Hl0 He).
Qed.

(** Two records, the older one first in the order of the keys: the newer
    one comes first in the collection. *)
Lemma offline_startup_reads_local_store_witness :
  let older := Scenario.note (VStr "a") "older" in
  let newer := <["createdAt" := VStr "2024-02-03T09:30:00.000Z"]>
                 (Scenario.note (VStr "b") "newer") in
  let w := with_idb [(KStr "a", older); (KStr "b", newer)]
             (Scenario.fresh Scenario.placeholders) in
  let w' := after_run loadItems w in
  cloudEnabled (app w') = false /\ syncStatus (app w') = Offline
  /\ remote_side w' = remote_side w
  /\ items (app w') ≡ₚ [older; newer]
  /\ StronglySorted (fun a b => created b <= created a) (items (app w'))
  /\ items (app w') = [newer; older]
  /\ idb w' = idb w /\ legacy w' = legacy w
  /\ notification (app w') = notification (app w).
Proof.
  intros older newer w.
  destruct (offline_startup_reads_local_store w) as (H1 & H2 & H3 & H4 & _);
    [reflexivity | reflexivity | reflexivity | reflexivity |].
  destruct H4 as (Ha & Hb & Hc); [discriminate|].
  split; [exact H1|]. split; [exact H2|]. split; [exact H3|]. split; [exact Ha|].
  split; [|split; [vm_compute; reflexivity|exact Hc]].
  apply Hb.
  apply Forall_cons.
  split; [exists "2023-11-01T08:00:00.000Z", 1698825600000; split; reflexivity|].
  apply Forall_cons.
  split; [exists "2024-02-03T09:30:00.000Z", 1706952600000; split; reflexivity|].
  apply Forall_nil_2.
Defined.


(** A legacy list is not looked at while the store holds records. *)
Example local_store_comes_before_legacy :
  let w := with_legacy (Some Scenario.legacy_text) Scenario.one_local_note in
  let w' := after_run loadItems w in
  items (app w') = [Scenario.note (VStr "n1") "keep me"]
  /\ legacy w' = Some Scenario.legacy_text.
Proof. split; reflexivity. Qed.

(** X23. Start-up without remote sync, when the database does not
    open or the read request faults: [loadItems] still resolves, the
    collection, the store, the legacy key and the remote side are as they
    were, the status is [offline], the notification is
    [Error loading items], and the timer of the initial load is armed. *)
Theorem startup_failure_is_reported (w : World) :
  isUnlocked (app w) = true ->
  isFirebaseConfigured (config (env w)) = false ->
  next_fault IdbOpen w = true
  \/ (next_fault IdbOpen w = false /\ next_fault IdbRead w = true) ->
  let w' := after_run loadItems w in
  result loadItems w = Ok tt
  /\ items (app w') = items (app w)
  /\ syncStatus (app w') = Offline
  /\ notification (app w') = Some loading_failed
  /\ loadTimer (app w') = true
  /\ idb w' = idb w /\ legacy w' = legacy w /\ remote_side w' = remote_side w.
Proof.
  intros Hu Hc Hf w'. subst w'.
  unfold loadItems, loadItemsFromDB, checkFirebaseConfig, requestPersistentStorage,
    setCloudEnabled, setSyncStatus, openDatabase, showNotification, setNotification,
    arm_load_timer, set_load_flags, next_fault, faults in *.
  run; repeat (progress (rewrite ?Hu, ?Hc in *); simpl in * ).
  destruct Hf as [Ho|[Ho Hr]].
  - rewrite Ho. simpl. by repeat split.
  - rewrite Ho. simpl. rewrite Hr. simpl. by repeat split.
Qed.

Lemma startup_failure_is_reported_witness :
  let w := with_faults (fun op => match op with IdbOpen => [true] | _ => [] end)
             Scenario.one_local_note in
  let w' := after_run loadItems w in
  result loadItems w = Ok tt
  /\ items (app w') = items (app w)
  /\ syncStatus (app w') = Offline
  /\ notification (app w') = Some loading_failed
  /\ loadTimer (app w') = true
  /\ idb w' = idb w /\ legacy w' = legacy w /\ remote_side w' = remote_side w.
Proof.
  apply (startup_failure_is_reported
           (with_faults (fun op => match op with IdbOpen => [true] | _ => [] end)
              Scenario.one_local_note)); [reflexivity | reflexivity | by left].
Defined.


Lemma request_legacy op : preserves legacy (request op).
Proof. intros w. by destruct op. Qed.
Lemma request_local_cloud : preserves local_side (request Cloud).
Proof. by intros w. Qed.
#[global] Hint Resolve request_legacy request_local_cloud : frame.


Lemma saveItemToCloud_legacy item : preserves legacy (saveItemToCloud item).
Proof.
  unfold saveItemToCloud, setDoc, uploadBytes, getDownloadURL, is_inline_file,
    cloud_request, emit.
  frame.
Qed.
#[global] Hint Resolve saveItemToCloud_legacy : frame.




(** The remote read faults: the two remote notes are not seen, the local
    note becomes the collection and is written to the remote collection. *)
Example failed_remote_read_uploads_local_data :
  let w := with_faults (fun op => match op with Cloud => [true] | _ => [] end)
             Scenario.remote_and_local_differ in
  let w' := after_run loadItems w in
  items (app w') = [Scenario.note (VStr "n1") "keep me"]
  /\ List.map fst (docs w') = ["1700000000001"; "1700000000002"; "n1"]
  /\ syncStatus (app w') = Synced.
Proof. split; [reflexivity|]. split; reflexivity. Qed.


(* ===================================================================== *)
(** ** The filtered view; pushes of the subscription *)
(* ===================================================================== *)

Lemma filter_map_commute {A} (P : A -> bool) (f : A -> A) l :
  (forall x, P (f x) = P x) -> List.filter P (List.map f l) = List.map f (List.filter P l).
Proof.
  intros H. induction l as [|x l IH]; simpl; [done|].
  rewrite H. destruct (P x); simpl; by rewrite IH.
Qed.

Lemma filter_filter_commute {A} (P Q : A -> bool) l :
  List.filter P (List.filter Q l) = List.filter Q (List.filter P l).
Proof.
  induction l as [|x l IH]; simpl; [done|].
  destruct (P x) eqn:Ep, (Q x) eqn:Eq; simpl; rewrite ?Ep, ?Eq, ?IH; done.
Qed.

Lemma toggle_item_prop id item k :
  k <> "important" -> prop (toggle_item id item) k = prop item k.
Proof. intros Hk. unfold prop. by rewrite toggle_item_other. Qed.

Lemma toggle_item_truthy id item :
  strict_eq (prop item "id") id = true ->
  truthy (prop (toggle_item id item) "important") = negb (truthy (prop item "important")).
Proof. intros H. unfold prop at 1. by rewrite toggle_item_flag. Qed.

(** X25. The filtered view follows the mutations.  Under every filter but
    [important], the view after [toggleImportant] is the view before with
    the item toggled in place; under [important], an item of the given [id]
    is shown after the toggle exactly when it was not shown before; and
    under every filter the view after a confirmed [deleteItem] is the view
    before without the items of that [id]. *)
Theorem views_follow_mutations (filter : string) (id : Value) (w : World) :
  let before := items (app w) in
  let toggled := items (app (after_run (toggleImportant id) w)) in
  let deleted := items (app (after_run (deleteItem id true) w)) in
  (filter <> "important" ->
   filteredItems filter toggled = List.map (toggle_item id) (filteredItems filter before))
  /\ (forall item, item ∈ before -> strict_eq (prop item "id") id = true ->
        toggle_item id item ∈ filteredItems "important" toggled
        <-> item ∉ filteredItems "important" before)
  /\ filteredItems filter deleted
     = List.filter (fun item => negb (strict_eq (prop item "id") id))
         (filteredItems filter before).
Proof.
  intros before toggled deleted. subst toggled deleted.
  rewrite toggleImportant_items, deleteItem_items. fold before.
  split; [|split].
  - intros Hf. apply String.eqb_neq in Hf. unfold filteredItems. rewrite Hf.
    apply filter_map_commute. intros x. by rewrite toggle_item_prop.
  - intros item Hin Hid. unfold filteredItems. simpl.
    rewrite !list_elem_of_In, !filter_In, <- !list_elem_of_In.
    rewrite (toggle_item_truthy id item Hid). split.
    + intros [_ Ht] [_ Hf]. rewrite Hf in Ht. done.
    + intros Hn. split.
      * apply list_elem_of_fmap. by exists item.
      * destruct (truthy (prop item "important")); [|done]. by destruct Hn.
  - unfold filteredItems. apply filter_filter_commute.
Qed.

(** X26. The subscription installs a listener only when the vault is
    unlocked, remote sync is enabled and the remote store is set up.  A run
    of the listener never writes the local store nor the remote side: once
    the initial load is flagged done it makes the documents of the remote
    collection, each once, the collection of the component and sets the
    status [synced]; before that it changes nothing. *)
Theorem push_updates_collection_only (w : World) (listener : M unit) :
  result subscribe_effect w = Ok (Some listener) ->
  (isUnlocked (app w) = true /\ cloudEnabled (app w) = true /\ db_ready (env w) = true)
  /\ forall w1,
       let w' := after_run listener w1 in
       local_side w' = local_side w1 /\ remote_side w' = remote_side w1
       /\ (initialLoadDone (app w1) = true ->
           items (app w') ≡ₚ List.map snd (docs w1) /\ syncStatus (app w') = Synced)
       /\ (initialLoadDone (app w1) = false -> w' = w1).
Proof.
  intros Hs. split.
  - revert Hs. unfold subscribe_effect, subscribeToItems. run.
    destruct (isUnlocked (app w)), (cloudEnabled (app w)); simpl; try done.
    by destruct (db_ready (env w)).
  - intros w1. unfold after_run. rewrite (subscription_listener w listener Hs w1).
    unfold on_cloud_items, setItems, setSyncStatus. run.
    destruct (initialLoadDone (app w1)); simpl.
    + split; [done|]. split; [done|]. split; [|done]. intros _.
      split; [apply snapshot_items_perm|done].
    + by repeat split.
Qed.

Lemma push_updates_collection_only_witness :
  let w := Scenario.two_notes_synced in
  (isUnlocked (app w) = true /\ cloudEnabled (app w) = true /\ db_ready (env w) = true)
  /\ forall w1,
       let w' := after_run (ds ← gets docs; on_cloud_items (snapshot_items ds)) w1 in
       local_side w' = local_side w1 /\ remote_side w' = remote_side w1
       /\ (initialLoadDone (app w1) = true ->
           items (app w') ≡ₚ List.map snd (docs w1) /\ syncStatus (app w') = Synced)
       /\ (initialLoadDone (app w1) = false -> w' = w1).
Proof.
  apply (push_updates_collection_only Scenario.two_notes_synced
           (ds ← gets docs; on_cloud_items (snapshot_items ds))).
  reflexivity.
Defined.

(** X27. [loadItems] does not set the flag of the initial load, the timer
    it arms does: in a session that starts with the flag unset, a push that
    arrives after [loadItems] has ended and before the timer fires is
    dropped, and the same push after the timer has fired becomes the
    collection. *)
Theorem push_before_timer_is_dropped (w : World) (cloudItems : list Item) :
  isUnlocked (app w) = true ->
  initialLoadDone (app w) = false ->
  let w1 := after_run loadItems w in
  after_run (on_cloud_items cloudItems) w1 = w1
  /\ items (app (after_run (on_cloud_items cloudItems) (after_run load_timer_fires w1)))
     = cloudItems.
Proof.
  intros Hu Hf w1. destruct (flag_set_by_timer w Hu) as (Hflag & _ & Hfired).
  fold w1 in Hflag, Hfired. rewrite Hf in Hflag.
  unfold on_cloud_items, setItems, setSyncStatus. run.
  rewrite Hflag, Hfired. by split.
Qed.

Lemma push_before_timer_is_dropped_witness :
  let w1 := after_run loadItems Scenario.remote_and_local_differ in
  let pushed := [Scenario.note (VNum 1700000000003) "third"] in
  after_run (on_cloud_items pushed) w1 = w1
  /\ items (app (after_run (on_cloud_items pushed) (after_run load_timer_fires w1)))
     = pushed.
Proof.
  apply (push_before_timer_is_dropped Scenario.remote_and_local_differ
           [Scenario.note (VNum 1700000000003) "third"]); reflexivity.
Defined.

(* ===================================================================== *)
(** ** An added note, on the remote side *)
(* ===================================================================== *)

(** [saveItemToCloud] on an item that is not a file, when the remote store
    is set up and the write goes through. *)
Lemma saveItemToCloud_plain item docId w :
  db_ready (env w) = true ->
  method_toString (prop item "id") = Some docId ->
  strict_eq (prop item "type") (VStr "file") = false ->
  next_fault Cloud w = false ->
  let record := <["updatedAt" := VNum (clock (env w) (clock_reads w))]> item in
  result (saveItemToCloud item) w = Ok (Some record)
  /\ docs (after_run (saveItemToCloud item) w) = doc_set docId record (docs w)
  /\ blobs (after_run (saveItemToCloud item) w) = blobs w.
Proof.
  unfold next_fault, faults. intros Hd Hid Hty Hf.
  unfold saveItemToCloud, is_inline_file, setDoc, cloud_request, Date_now. run.
  rewrite Hd, Hid, Hty. simpl. rewrite Hf. simpl. done.
Qed.

Lemma after_try_catch_quiet {A} (m : M A) (a : A) w :
  after_run (try_catch m (fun _ => mret a)) w = after_run m w.
Proof. unfold after_run, try_catch. by destruct (m w) as [[x|e] w1]. Qed.

Lemma after_bind_unit (m : M unit) {B} (k : unit -> M B) w :
  no_throw m -> after_run (m ≫= k) w = after_run (k tt) (after_run m w).
Proof.
  intros Hn. destruct (Hn w) as [[] Hr]. by apply after_bind_result.
Qed.

Lemma after_bind_ret {A B} (m : M A) (b : B) w :
  after_run (m ≫= (fun _ => mret b)) w = after_run m w.
Proof. unfold after_run, mbind, M_bind. by destruct (m w) as [[x|e] w1]. Qed.

(** X28. With remote sync enabled, the remote store set up and its next
    request going through, an accepted note is filed remotely under its
    [id], with an [updatedAt] stamp; the blobs are left alone; and the
    collection gets the note as it was made, without that stamp. *)
Theorem handleAddNote_files_remotely (w : World) :
  note_acceptable w = true ->
  cloudEnabled (app w) = true -> db_ready (env w) = true ->
  next_fault Cloud w = false ->
  let id := fresh_id (env w) (ids_used w) in
  let it := note_item id (trim (noteText (app w))) (iso_clock (env w) (clock_reads w)) in
  let w' := after_run handleAddNote w in
  exists t,
    docs w' = doc_set id (<["updatedAt" := VNum t]> it) (docs w)
    /\ blobs w' = blobs w
    /\ items (app w') = it :: items (app w)
    /\ prop it "updatedAt" = VUndefined.
Proof.
  intros Ha Hc Hd Hf id it w'. subst w'.
  unfold note_acceptable in Ha.
  apply andb_true_iff in Ha as [Ha Hm]. apply andb_true_iff in Ha as [He Hl].
  apply negb_true_iff in He.
  rewrite Nat.leb_antisym in Hl. apply negb_true_iff in Hl.
  rewrite Nat.ltb_antisym in Hm. apply negb_true_iff in Hm.
  unfold handleAddNote. rewrite !after_gets_bind. rewrite He, Hl, Hm, Hc.
  rewrite (after_bind_result generateId _ _ _ eq_refl).
  rewrite (after_bind_result now_iso _ _ _ eq_refl).
  fold id. fold it. cbv iota.
  set (wb := after_run now_iso (after_run generateId w)).
  destruct (saveItemToCloud_plain it id wb) as (Hres & Hdocs & Hblobs);
    [done | done | done | done |].
  exists (clock (env wb) (clock_reads wb)).
  rewrite after_bind_unit by nothrow.
  rewrite after_try_catch_quiet, after_bind_ret. cbv beta.
  set (w1 := after_run (saveItemToCloud it) wb) in *.
  set (rest := (setItems _ ≫= _)).
  assert (Hrem : preserves remote_side rest).
  { subst rest. unfold setNoteText, set_state. frame. }
  assert (Hit : items (app (after_run rest w1)) = it :: items (app w)).
  { subst rest. apply items_after_setItems. intros _. unfold setNoteText, set_state. frame. }
  specialize (Hrem w1). unfold remote_side in Hrem. injection Hrem as Hd1 Hb1 _.
  change (docs (after_run rest w1)
          = doc_set id (<["updatedAt" := VNum (clock (env wb) (clock_reads wb))]> it) (docs w)
          /\ blobs (after_run rest w1) = blobs w
          /\ items (app (after_run rest w1)) = it :: items (app w)
          /\ prop it "updatedAt" = VUndefined).
  rewrite Hd1, Hb1, Hdocs, Hblobs, Hit. done.
Qed.

Lemma handleAddNote_files_remotely_witness :
  let w := Scenario.typing_hello in
  let id := "3f2b8c1e-0d4a-4e6f-9a7b-000000000000" in
  let it := note_item id "hello" "2023-11-14T22:13:00.000Z" in
  let w' := after_run handleAddNote w in
  exists t,
    docs w' = doc_set id (<["updatedAt" := VNum t]> it) (docs w)
    /\ blobs w' = blobs w
    /\ items (app w') = it :: items (app w)
    /\ prop it "updatedAt" = VUndefined.
Proof. apply (handleAddNote_files_remotely Scenario.typing_hello); reflexivity. Defined.
